(** * RKSV DEP verification: a shallow embedding of [verify.py] and
    [librksv/algorithms.py], with the properties of the specification
    proved over it.

    Conventions of the embedding.
    - A Python [str] is a [string] holding its UTF-8 bytes, so
      [s.encode("utf-8")] is [utf8 s]; [bytes] is [list byte].
    - A value that may be [None] is an [option]; Python truthiness of such
      a value is [truthy].
    - A function that may raise returns [result]: [Ok v] or [Raise e].
      State that the source mutates in place is passed and returned.
    - Python sets of receipt IDs are [gset string].
    - Code of the repository that is outside the two source files
      (receipt parsing, the receipt verifier, the key store, the crypto
      bindings of [utils], the parser) is taken as a parameter, bundled in
      the interfaces below. Where a property depends on what such code
      computes, it is modelled from the spec and marked so: the counter
      mode of [utils.aes256ctr] and the projection
      [CashRegisterState.fromDEPGroup]. *)

From Stdlib Require Import ZArith NArith List Lia Floats.
From Stdlib Require Import Strings.Byte Strings.Ascii.
From stdpp Require Import gmap strings list pretty.

(* [set_solver] clears hypotheses that are not always there. *)
Set Warnings "-clear-no-such-hyp".

Open Scope Z_scope.

(* ===================================================================== *)
(** ** Python values *)
(* ===================================================================== *)

Abbreviation bytes := (list byte).

(** [s.encode("utf-8")] *)
Definition utf8 (s : string) : bytes := String.list_byte_of_string s.

(** Truthiness of a [str]-or-[None] value: [None] and [""] are false. *)
Definition truthy (o : option string) : bool :=
  match o with
  | Some s => negb (String.eqb s "")
  | None => false
  end.

(** Truthiness of a [bytes]-or-[None] value (the turnover key). *)
Definition truthy_bytes (o : option bytes) : bool :=
  match o with
  | Some (_ :: _) => true
  | _ => false
  end.

Definition byte_of_Z (z : Z) : byte :=
  match Byte.of_N (Z.to_N z) with
  | Some b => b
  | None => x00
  end.

Definition Z_of_byte (b : byte) : Z := Z.of_N (Byte.to_N b).

(** [a ^ b] on two bytes. *)
Definition byte_xor (a b : byte) : byte :=
  byte_of_Z (Z.lxor (Z_of_byte a) (Z_of_byte b)).

(** The big-endian digits of [u] in base 256, [size] of them. *)
Fixpoint be_bytes (size : nat) (u : Z) : bytes :=
  match size with
  | O => []
  | S k => be_bytes k (u / 256) ++ [byte_of_Z (u mod 256)]
  end.

(** [int.from_bytes(bs, byteorder='big', signed=False)] *)
Definition be_value (bs : bytes) : Z :=
  fold_left (fun acc b => acc * 256 + Z_of_byte b) bs 0.

(** [n.to_bytes(size, byteorder='big', signed=True)]; [None] stands for
    Python's [OverflowError]. *)
Definition int_to_bytes (size : nat) (n : Z) : option bytes :=
  let m := 2 ^ (8 * Z.of_nat size) in
  if (- m <=? 2 * n) && (2 * n <? m) then Some (be_bytes size (n mod m))
  else None.

(** [int.from_bytes(bs, byteorder='big', signed=True)] *)
Definition int_from_bytes (bs : bytes) : Z :=
  let m := 2 ^ (8 * Z.of_nat (length bs)) in
  let u := be_value bs in
  if m <=? 2 * u then u - m else u.

(** The integers [n.to_bytes(size, 'big', signed=True)] can represent. *)
Definition representable (size : nat) (n : Z) : Prop :=
  - 2 ^ (8 * Z.of_nat size - 1) <= n < 2 ^ (8 * Z.of_nat size - 1).

(* ===================================================================== *)
(** ** Results and exceptions *)
(* ===================================================================== *)

Inductive result (E A : Type) : Type :=
| Ok (a : A)
| Raise (e : E).
Arguments Ok {E A} a.
Arguments Raise {E A} e.

Definition bind {E A B} (c : result E A) (k : A -> result E B) : result E B :=
  match c with
  | Ok a => k a
  | Raise e => Raise e
  end.

Declare Scope result_scope.
Delimit Scope result_scope with result.
Notation "'let*' x ':=' c 'in' k" := (bind c (fun x => k))
  (at level 10, x name, c at level 100, k at level 200) : result_scope.
Notation "'let*' ' p ':=' c 'in' k" :=
  (bind c (fun x => match x with p => k end))
  (at level 10, p pattern, c at level 100, k at level 200) : result_scope.
Notation "'check' c 'in' k" := (bind c (fun _ => k))
  (at level 10, c at level 100, k at level 200) : result_scope.
Open Scope result_scope.

(** [raise e] when [b] holds, as in [if b: raise e]. *)
Definition raise_if {E} (b : bool) (e : E) : result E unit :=
  if b then Raise e else Ok tt.

(* ===================================================================== *)
(** ** [base64.b64encode] *)
(* ===================================================================== *)

Definition b64_alphabet : string :=
  "ABCDEFGHIJKLMNOPQRSTUVWXYZabcdefghijklmnopqrstuvwxyz0123456789+/".

Definition b64_char (n : Z) : ascii :=
  match String.get (Z.to_nat n) b64_alphabet with
  | Some c => c
  | None => "="%char
  end.

(** [base64.b64encode(bs).decode("utf-8")]: three bytes give four
    characters, the last group is padded with [=]. *)
Fixpoint b64encode (bs : bytes) : string :=
  match bs with
  | [] => ""
  | [a] =>
      let n := Z_of_byte a in
      String (b64_char (n / 4)) (String (b64_char (n mod 4 * 16)) "==")
  | [a; b] =>
      let n := Z_of_byte a * 256 + Z_of_byte b in
      String (b64_char (n / 1024))
        (String (b64_char (n / 16 mod 64))
           (String (b64_char (n mod 16 * 4)) "="))
  | a :: b :: c :: rest =>
      let n := (Z_of_byte a * 256 + Z_of_byte b) * 256 + Z_of_byte c in
      String (b64_char (n / 262144))
        (String (b64_char (n / 4096 mod 64))
           (String (b64_char (n / 64 mod 64))
              (String (b64_char (n mod 64)) (b64encode rest))))
  end.

(* ===================================================================== *)
(** ** [librksv/algorithms.py] *)
(* ===================================================================== *)

(** The crypto bindings of [utils] the algorithm class calls. SHA-256 and
    the AES-256 block function are external primitives. *)
Class CryptoI := {
  (** [utils.sha256(data)] *)
  sha256 : bytes -> bytes;
  (** AES-256 encryption of one 16-byte block under a key *)
  aes256_block : bytes -> bytes -> bytes;
}.

(** [class AlgorithmI]: what every algorithm implements (signing and
    signature verification, which only the receipt verifier calls, are
    left out). [encryptTurnoverCounter] gives [None] where Python raises
    [OverflowError]. *)
Record AlgorithmI (Receipt : Type) := {
  id : string;
  jwsHeader : string;
  sigAlgo : string;
  chainBytes : nat;
  hash : string -> bytes;
  chain : Receipt -> option string -> bytes;
  verifyKey : bytes -> bool;
  encryptTurnoverCounter : Receipt -> Z -> bytes -> nat -> option bytes;
  decryptTurnoverCounter : Receipt -> bytes -> bytes -> Z;
}.
Arguments id {Receipt} _.
Arguments jwsHeader {Receipt} _.
Arguments sigAlgo {Receipt} _.
Arguments chainBytes {Receipt} _.
Arguments hash {Receipt} _ _.
Arguments chain {Receipt} _ _ _.
Arguments verifyKey {Receipt} _ _.
Arguments encryptTurnoverCounter {Receipt} _ _ _ _ _.
Arguments decryptTurnoverCounter {Receipt} _ _ _ _.

(** The receipt object of [receipt.Receipt]: its fields and predicates.
    The sums are Python floats. *)
Class ReceiptI (Receipt : Type) := {
  zda : Receipt -> string;
  registerId : Receipt -> string;
  receiptId : Receipt -> string;
  previousChain : Receipt -> string;
  sumA : Receipt -> float;
  sumB : Receipt -> float;
  sumC : Receipt -> float;
  sumD : Receipt -> float;
  sumE : Receipt -> float;
  isNull : Receipt -> bool;
  isDummy : Receipt -> bool;
  isReversal : Receipt -> bool;
  isSignedBroken : Receipt -> bool;
  (** [ro.decryptTurnoverCounter(key, algorithm)] *)
  Receipt_decryptTurnoverCounter : Receipt -> bytes -> AlgorithmI Receipt -> Z;
}.

Section Algorithms.
Context `{CryptoI} {Receipt : Type} `{ReceiptI Receipt}.

(** Modelled from the spec: [utils.aes256ctr(iv, key, data)] is not among
    the sources. The spec names it AES-256-CTR: byte [j] of the input is
    XORed with byte [j mod 16] of the AES encryption of the counter block
    [iv + j / 16] (a 128-bit big-endian counter). *)
Definition aes256ctr_keystream (iv key : bytes) (j : nat) : byte :=
  let ctr := (be_value iv + Z.of_nat (j / 16)) mod 2 ^ 128 in
  nth (j mod 16) (aes256_block key (be_bytes 16 ctr)) x00.

Fixpoint aes256ctr_from (j : nat) (iv key data : bytes) : bytes :=
  match data with
  | [] => []
  | b :: rest =>
      byte_xor b (aes256ctr_keystream iv key j)
        :: aes256ctr_from (S j) iv key rest
  end.

Definition aes256ctr (iv key data : bytes) : bytes :=
  aes256ctr_from 0 iv key data.

(** [class R1(AlgorithmI)] *)
Definition R1_id : string := "R1".

Definition R1_sigAlgo : string := "ES256".

(** The double-quote character (code 34) *)
Definition dquote : string := String (Ascii.ascii_of_nat 34) EmptyString.

(** The JWS header: the JSON object with the one member alg, whose value
    is [sigAlgo()] *)
Definition R1_jwsHeader : string :=
  "{" ++ dquote ++ "alg" ++ dquote ++ ":" ++ dquote ++ R1_sigAlgo
    ++ dquote ++ "}".

Definition R1_chainBytes : nat := 8.

Definition R1_hash (data : string) : bytes := sha256 (utf8 data).

Definition R1_chain (receipt : Receipt) (previousJwsString : option string)
  : bytes :=
  let chainingValue :=
    if truthy previousJwsString
    then sha256 (utf8 (default "" previousJwsString))
    else sha256 (utf8 (registerId receipt)) in
  take 8 chainingValue.

Definition R1_verifyKey (key : bytes) : bool :=
  if negb (length key =? 32)%nat then false else true.

(** The initialisation vector both turnover functions derive. *)
Definition R1_iv (receipt : Receipt) : bytes :=
  take 16 (sha256 (utf8 (registerId receipt) ++ utf8 (receiptId receipt))).

Definition R1_encryptTurnoverCounter (receipt : Receipt)
    (turnoverCounter : Z) (key : bytes) (size : nat) : option bytes :=
  let iv := R1_iv receipt in
  match int_to_bytes size turnoverCounter with
  | Some pt => Some (aes256ctr iv key pt)
  | None => None
  end.

Definition R1_decryptTurnoverCounter (receipt : Receipt)
    (encTurnoverCounter key : bytes) : Z :=
  let iv := R1_iv receipt in
  let decCtr := aes256ctr iv key encTurnoverCounter in
  int_from_bytes decCtr.

Definition R1 : AlgorithmI Receipt := {|
  id := R1_id;
  jwsHeader := R1_jwsHeader;
  sigAlgo := R1_sigAlgo;
  chainBytes := R1_chainBytes;
  hash := R1_hash;
  chain := R1_chain;
  verifyKey := R1_verifyKey;
  encryptTurnoverCounter := R1_encryptTurnoverCounter;
  decryptTurnoverCounter := R1_decryptTurnoverCounter;
|}.

(** [ALGORITHMS = { 'R1': R1() }] *)
Definition ALGORITHMS (prefix : string) : option (AlgorithmI Receipt) :=
  if String.eqb prefix "R1" then Some R1 else None.

End Algorithms.

(* ===================================================================== *)
(** ** [verify.py]: exceptions and state *)
(* ===================================================================== *)

(** The exceptions of [verify_receipt] and [receipt] that reach
    [verifyGroup]: the first two are caught there, the others pass
    through. *)
Inductive ReceiptException : Type :=
| SignatureSystemFailedException
| UnsignedNullReceiptException
| CertSerialInvalidException
| CertSerialMismatchException
| NoPublicKeyException
| InvalidSignatureException
| MalformedReceiptException
| UnknownAlgorithmException
| AlgorithmMismatchException.

(** [class DEPException] and its subclasses, with their constructor
    arguments; the last constructors are the exceptions of other modules
    and of Python itself that the functions below can let through. *)
Inductive DEPException : Type :=
| ClusterInOpenSystemException
| ChainingException (rec : string) (recPrev : option string)
| NoRestoreReceiptAfterSignatureSystemFailureException (rec : string)
| DuplicateReceiptIdException (rec : string)
| InvalidTurnoverCounterException (rec : string)
| ChangingRegisterIdException (rec : string)
| DecreasingDateException (rec : string)
| ChangingSystemTypeException (rec : string)
| ChangingTurnoverCounterSizeException (rec : string)
| NoCertificateGivenException
| UntrustedCertificateException (cert : string)
| CertificateChainBrokenException (cert sign : string)
| CertificateSerialCollisionException (serial cert1FP cert2FP : string)
| SignatureSystemFailedOnInitialReceiptException (rec : string)
| NonzeroTurnoverOnInitialReceiptException (rec : string)
| InvalidChainingOnInitialReceiptException (rec : string)
| InvalidChainingOnClusterInitialReceiptException (rec : string)
| NonstandardTypeOnInitialReceiptException (rec : string)
| ReceiptError (e : ReceiptException)
| StateError (msg : string)
| PyKeyError (key : string)
| PyAttributeError
| PyValueError
| PyOverflowError
| PyException (msg : string).

Abbreviation exc := (result DEPException).

(** An exception of the receipt modules propagates unchanged. *)
Definition lift_receipt {A} (c : result ReceiptException A) : exc A :=
  match c with
  | Ok a => Ok a
  | Raise e => Raise (ReceiptError e)
  end.

(** [verification_state.CashRegisterState] *)
Record CashRegisterState : Type := {
  startReceiptJWS : option string;
  lastReceiptJWS : option string;
  lastTurnoverCounter : Z;
  needRestoreReceipt : bool;
}.

Definition set_startReceiptJWS (v : option string) (s : CashRegisterState) :=
  {| startReceiptJWS := v;
     lastReceiptJWS := lastReceiptJWS s;
     lastTurnoverCounter := lastTurnoverCounter s;
     needRestoreReceipt := needRestoreReceipt s |}.

Definition set_lastReceiptJWS (v : option string) (s : CashRegisterState) :=
  {| startReceiptJWS := startReceiptJWS s;
     lastReceiptJWS := v;
     lastTurnoverCounter := lastTurnoverCounter s;
     needRestoreReceipt := needRestoreReceipt s |}.

Definition set_lastTurnoverCounter (v : Z) (s : CashRegisterState) :=
  {| startReceiptJWS := startReceiptJWS s;
     lastReceiptJWS := lastReceiptJWS s;
     lastTurnoverCounter := v;
     needRestoreReceipt := needRestoreReceipt s |}.

Definition set_needRestoreReceipt (v : bool) (s : CashRegisterState) :=
  {| startReceiptJWS := startReceiptJWS s;
     lastReceiptJWS := lastReceiptJWS s;
     lastTurnoverCounter := lastTurnoverCounter s;
     needRestoreReceipt := v |}.

(** The receipt verifier, the receipt parser and the DEP parser's
    [expandDEPReceipt], as [verifyGroup] calls them. *)
Class VerifierI (Receipt ReceiptVerifier : Type) := {
  (** [rv.verifyJWS(r)] *)
  verifyJWS : ReceiptVerifier -> string ->
              result ReceiptException (Receipt * AlgorithmI Receipt);
  (** [receipt.Receipt.fromJWSString(r)]: the receipt object and its
      algorithm prefix *)
  fromJWSString : string -> result ReceiptException (Receipt * string);
  (** [depparser.expandDEPReceipt(cr)] *)
  expandDEPReceipt : string -> string;
}.

(** Certificates and the key store, as [verifyCert] and the packaging of
    chunks call them. *)
Class KeyStoreI (Cert KeyStore ReceiptVerifier : Type) := {
  (** [cert.serial] *)
  serial : Cert -> Z;
  (** [key_store.numSerialToKeyId(serial)] *)
  numSerialToKeyId : Z -> string;
  (** [keyStore.getCert(keyId)] *)
  getCert : KeyStore -> string -> option Cert;
  (** [utils.certFingerprint(cert)] *)
  certFingerprint : Cert -> string;
  (** [utils.verifyCert(cert, signer)]: was [cert] signed by [signer] *)
  utils_verifyCert : Cert -> Cert -> bool;
  (** [verify_receipt.ReceiptVerifier.fromKeyStore(keyStore)] *)
  ReceiptVerifier_fromKeyStore : KeyStore -> ReceiptVerifier;
  (** [verify_receipt.ReceiptVerifier.fromCert(cert)] *)
  ReceiptVerifier_fromCert : Cert -> ReceiptVerifier;
}.

(** [int(round(x))] on a float that is a number: Python 2 rounds ties
    away from zero and Python 3 to even, and the sources run under both.
    [int_of_round] below adds what both do on the other floats. *)
Class BuiltinsI := {
  int_round : float -> Z;
}.

(** [int(round(x))] on any float: [ValueError] on a NaN and
    [OverflowError] on an infinity, under Python 2 (where [int] raises
    them) as under Python 3 (where [round] does). *)
Definition int_of_round `{BuiltinsI} (x : float) : exc Z :=
  if is_nan x then Raise PyValueError
  else if is_infinity x then Raise PyOverflowError
  else Ok (int_round x).

(** [verification_state]: the cluster state and the projection of a
    register state over an unverified group. *)
Class StateI (ClusterState : Type) := {
  (** [verification_state.ClusterState()] *)
  ClusterState_new : ClusterState;
  (** [state.getCashRegisterInfo(cashRegisterIdx)] *)
  getCashRegisterInfo :
    ClusterState -> option Z ->
    exc (option string * CashRegisterState * gset string);
  (** [state.updateCashRegisterInfo(cashRegisterIdx, rState, usedRecIds)] *)
  updateCashRegisterInfo :
    ClusterState -> option Z -> CashRegisterState -> gset string ->
    ClusterState;
  (** [verification_state.CashRegisterState.fromDEPGroup(old, group, key)] *)
  CashRegisterState_fromDEPGroup :
    CashRegisterState -> list string -> option bytes -> CashRegisterState;
}.

(* ===================================================================== *)
(** ** [verify.py]: the chain and the certificates *)
(* ===================================================================== *)

Section Verify.
Context `{CryptoI} `{BuiltinsI}.
Context {Receipt ReceiptVerifier Cert KeyStore ClusterState : Type}.
Context `{ReceiptI Receipt} `{VerifierI Receipt ReceiptVerifier}.
Context `{KeyStoreI Cert KeyStore ReceiptVerifier} `{StateI ClusterState}.

Definition verifyChain (rec : Receipt) (prev : option string)
    (algorithm : AlgorithmI Receipt) : exc unit :=
  let chainingValue := chain algorithm rec prev in
  let chainingValue := b64encode chainingValue in
  if negb (String.eqb chainingValue (previousChain rec))
  then Raise (ChainingException (receiptId rec) prev)
  else Ok tt.

(** The key-store check both the loop body and the code after the loop
    make on [prev]: [Some] result when the certificate is in the store
    (the function returns or raises there), [None] when it is not. *)
Definition lookupInKeyStore (prev : Cert) (keyStore : KeyStore)
  : option (exc unit) :=
  match getCert keyStore (numSerialToKeyId (serial prev)) with
  | Some ksCert =>
      if negb (String.eqb (certFingerprint ksCert) (certFingerprint prev))
      then Some (Raise (CertificateSerialCollisionException
                          (numSerialToKeyId (serial prev))
                          (certFingerprint prev)
                          (certFingerprint ksCert)))
      else Some (Ok tt)
  | None => None
  end.

(** The loop of [verifyCert] from the certificate [prev] on, and the
    code after it. *)
Fixpoint verifyCert_from (cert prev : Cert) (chain : list Cert)
    (keyStore : KeyStore) : exc unit :=
  match chain with
  | c :: rest =>
      match lookupInKeyStore prev keyStore with
      | Some outcome => outcome
      | None =>
          if negb (utils_verifyCert prev c)
          then Raise (CertificateChainBrokenException
                        (numSerialToKeyId (serial prev))
                        (numSerialToKeyId (serial c)))
          else verifyCert_from cert c rest keyStore
      end
  | [] =>
      match lookupInKeyStore prev keyStore with
      | Some outcome => outcome
      | None =>
          Raise (UntrustedCertificateException
                   (numSerialToKeyId (serial cert)))
      end
  end.

Definition verifyCert (cert : Cert) (chain : list Cert) (keyStore : KeyStore)
  : exc unit :=
  verifyCert_from cert cert chain keyStore.

(* ===================================================================== *)
(** ** [verify.py]: [verifyGroup] *)
(* ===================================================================== *)

(** The variables one iteration of the loop of [verifyGroup] reads and
    writes: the register state and the used IDs (both mutated in place by
    the source), and the locals [prev] and [prevObj]. *)
Record LoopState : Type := {
  ls_state : CashRegisterState;
  ls_used : gset string;
  ls_prev : option string;
  ls_prevObj : option Receipt;
}.

(** Lines 379-391: the [try] block. The result is the register state and
    [(ro, algorithm)], which stay [None] when one of the two tolerated
    exceptions was caught. *)
Definition verifySignature (rv : ReceiptVerifier) (r : string)
    (st : CashRegisterState) (prevObj : option Receipt)
  : exc (CashRegisterState * option (Receipt * AlgorithmI Receipt)) :=
  match verifyJWS rv r with
  | Ok (ro, algorithm) =>
      if bool_decide (is_Some prevObj)
         && (negb (isNull ro) || isDummy ro || isReversal ro)
      then
        if needRestoreReceipt st
        then Raise (NoRestoreReceiptAfterSignatureSystemFailureException
                      (receiptId ro))
        else
          if from_option isSignedBroken false prevObj
          then Ok (set_needRestoreReceipt true st, Some (ro, algorithm))
          else Ok (st, Some (ro, algorithm))
      else Ok (set_needRestoreReceipt false st, Some (ro, algorithm))
  | Raise SignatureSystemFailedException => Ok (st, None)
  | Raise UnsignedNullReceiptException => Ok (st, None)
  | Raise e => Raise (ReceiptError e)
  end.

(** Lines 393-401: [if not ro], after an exception was caught. *)
Definition recoverUnsigned (r : string) (st : CashRegisterState)
    (prevObj : option Receipt)
    (verified : option (Receipt * AlgorithmI Receipt))
  : exc (Receipt * AlgorithmI Receipt) :=
  match verified with
  | Some ro_algorithm => Ok ro_algorithm
  | None =>
      let* '(ro, algorithmPrefix) := lift_receipt (fromJWSString r) in
      check raise_if (negb (bool_decide (is_Some prevObj)))
              (SignatureSystemFailedOnInitialReceiptException (receiptId ro)) in
      check raise_if (needRestoreReceipt st)
              (NoRestoreReceiptAfterSignatureSystemFailureException
                 (receiptId ro)) in
      match ALGORITHMS algorithmPrefix with
      | Some algorithm => Ok (ro, algorithm)
      | None => Raise (PyKeyError algorithmPrefix)
      end
  end.

(** Lines 403-418: [if not prevObj], the checks on a register's first
    receipt. The result is the register state and the locals [prev] and
    [prevObj]. *)
Definition checkInitialReceipt (r : string) (ro : Receipt)
    (prevStartReceiptJWS : option string) (st : CashRegisterState)
    (prev : option string) (prevObj : option Receipt)
  : exc (CashRegisterState * option string * option Receipt) :=
  match prevObj with
  | Some _ => Ok (st, prev, prevObj)
  | None =>
      check raise_if (negb (isNull ro))
              (NonzeroTurnoverOnInitialReceiptException (receiptId ro)) in
      check raise_if (isDummy ro || isReversal ro)
              (NonstandardTypeOnInitialReceiptException (receiptId ro)) in
      let* '(prev, prevObj) :=
        if truthy prevStartReceiptJWS
        then
          check raise_if (negb (String.eqb (zda ro) "AT0"))
                  ClusterInOpenSystemException in
          let prev := prevStartReceiptJWS in
          let* '(prevObj, algorithmPrefix) :=
            lift_receipt (fromJWSString (default "" prev)) in
          check raise_if (negb (String.eqb (zda prevObj) "AT0"))
                  ClusterInOpenSystemException in
          Ok (prev, Some prevObj)
        else Ok (prev, prevObj) in
      Ok (set_startReceiptJWS (Some r) st, prev, prevObj)
  end.

(** Lines 420-431: [if prevObj], the checks against the previous
    receipt. *)
Definition checkAgainstPrevious (ro : Receipt) (usedReceiptIds : gset string)
    (prevObj : option Receipt) : exc unit :=
  match prevObj with
  | Some prevObj =>
      check raise_if (bool_decide (receiptId ro ∈ usedReceiptIds))
              (DuplicateReceiptIdException (receiptId ro)) in
      check raise_if (negb (String.eqb (registerId prevObj) (registerId ro)))
              (ChangingRegisterIdException (receiptId ro)) in
      check raise_if
              ((String.eqb (zda prevObj) "AT0"
                  && negb (String.eqb (zda ro) "AT0"))
               || (negb (String.eqb (zda prevObj) "AT0")
                     && String.eqb (zda ro) "AT0"))
              (ChangingSystemTypeException (receiptId ro)) in
      Ok tt
  | None => Ok tt
  end.

(** Lines 435-443: the chain check and the special exceptions for the
    initial receipt. *)
Definition checkChain (r : string) (ro : Receipt) (prev : option string)
    (algorithm : AlgorithmI Receipt) (prevStartReceiptJWS : option string)
    (st : CashRegisterState) : exc unit :=
  match verifyChain ro prev algorithm with
  | Raise (ChainingException receipt recPrev) =>
      if bool_decide (startReceiptJWS st = Some r)
      then
        if truthy prevStartReceiptJWS
        then Raise (InvalidChainingOnClusterInitialReceiptException receipt)
        else Raise (InvalidChainingOnInitialReceiptException receipt)
      else Raise (ChainingException receipt recPrev)
  | outcome => outcome
  end.

(** Lines 445-453: the turnover counter. *)
Definition checkTurnoverCounter (ro : Receipt) (key : option bytes)
    (algorithm : AlgorithmI Receipt) (st : CashRegisterState)
  : exc CashRegisterState :=
  if negb (isDummy ro)
  then
    if truthy_bytes key
    then
      let* cents :=
        int_of_round
          ((sumA ro + sumB ro + sumC ro + sumD ro + sumE ro) * 100)%float in
      let newC := lastTurnoverCounter st + cents in
      check
        (if negb (isReversal ro)
         then
           let turnoverCounter :=
             Receipt_decryptTurnoverCounter ro (default [] key) algorithm in
           raise_if (negb (turnoverCounter =? newC))
             (InvalidTurnoverCounterException (receiptId ro))
         else Ok tt) in
      Ok (set_lastTurnoverCounter newC st)
    else Ok st
  else Ok st.

(** One iteration of [for cr in group], lines 376-456. *)
Definition verifyGroup_receipt (rv : ReceiptVerifier) (key : option bytes)
    (prevStartReceiptJWS : option string) (ls : LoopState) (cr : string)
  : exc LoopState :=
  let r := expandDEPReceipt cr in
  let* '(st, verified) :=
    verifySignature rv r (ls_state ls) (ls_prevObj ls) in
  let* '(ro, algorithm) := recoverUnsigned r st (ls_prevObj ls) verified in
  let* '(st, prev, prevObj) :=
    checkInitialReceipt r ro prevStartReceiptJWS st (ls_prev ls)
      (ls_prevObj ls) in
  check checkAgainstPrevious ro (ls_used ls) prevObj in
  let usedReceiptIds := {[receiptId ro]} ∪ ls_used ls in
  check checkChain r ro prev algorithm prevStartReceiptJWS st in
  let* st := checkTurnoverCounter ro key algorithm st in
  Ok {| ls_state := st;
        ls_used := usedReceiptIds;
        ls_prev := Some r;
        ls_prevObj := Some ro |}.

Fixpoint verifyGroup_loop (rv : ReceiptVerifier) (key : option bytes)
    (prevStartReceiptJWS : option string) (ls : LoopState)
    (group : list string) : exc LoopState :=
  match group with
  | [] => Ok ls
  | cr :: rest =>
      let* ls := verifyGroup_receipt rv key prevStartReceiptJWS ls cr in
      verifyGroup_loop rv key prevStartReceiptJWS ls rest
  end.

(** [verifyGroup]. The caller's [None] for the register state or the used
    IDs stands for a fresh state and the empty set; an empty set is
    replaced by a new empty one, which is the same set. *)
Definition verifyGroup (group : list string) (rv : ReceiptVerifier)
    (key : option bytes) (prevStartReceiptJWS : option string)
    (cashRegisterState : CashRegisterState) (usedReceiptIds : gset string)
  : exc (CashRegisterState * gset string) :=
  let prev := lastReceiptJWS cashRegisterState in
  let* prevObj :=
    if truthy prev
    then
      let* '(prevObj, algorithmPrefix) :=
        lift_receipt (fromJWSString (default "" prev)) in
      Ok (Some prevObj)
    else Ok None in
  let* ls :=
    verifyGroup_loop rv key prevStartReceiptJWS
      {| ls_state := cashRegisterState;
         ls_used := usedReceiptIds;
         ls_prev := prev;
         ls_prevObj := prevObj |} group in
  Ok (set_lastReceiptJWS (ls_prev ls) (ls_state ls), ls_used ls).

(* ===================================================================== *)
(** ** [verify.py]: groups, chunks and the orchestrator *)
(* ===================================================================== *)

(** A group with the verifier of its receipts, and a group as the parser
    yields it: the receipts, the certificate or [None], and the
    certificate chain. A chunk is a list of the latter, a package a list
    of the former. *)
Definition GroupWithVerifier : Type := list string * ReceiptVerifier.
Definition DEPGroup : Type := list string * option Cert * list Cert.

Fixpoint verifyGroupsWithVerifiers (groups : list GroupWithVerifier)
    (key : option bytes) (prevStart : option string)
    (rState : CashRegisterState) (usedRecIds : gset string)
  : exc (CashRegisterState * gset string) :=
  match groups with
  | [] => Ok (rState, usedRecIds)
  | (recs, rv) :: rest =>
      let* '(rState, usedRecIds) :=
        verifyGroup recs rv key prevStart rState usedRecIds in
      verifyGroupsWithVerifiers rest key prevStart rState usedRecIds
  end.

(** The argument tuple [prepareVerificationTuples] builds for one
    package. *)
Definition VerificationTuple : Type :=
  list GroupWithVerifier * option bytes * option string
  * CashRegisterState * gset string.

Definition verifyGroupsWithVerifiersTuple (args : VerificationTuple)
  : exc (CashRegisterState * gset string) :=
  let '(groups, key, prevStart, rState, usedRecIds) := args in
  verifyGroupsWithVerifiers groups key prevStart rState usedRecIds.

(** The inner loop of [updateUsedReceiptIds], over the IDs of one set.
    Python iterates a set in an order of its own; here it is the order of
    [elements], which decides only which of several duplicates is
    reported. *)
Fixpoint updateUsedReceiptIds_set (seen : gset string) (rids : list string)
  : exc (gset string) :=
  match rids with
  | [] => Ok seen
  | rid :: rest =>
      if bool_decide (rid ∈ seen)
      then Raise (DuplicateReceiptIdException rid)
      else updateUsedReceiptIds_set ({[rid]} ∪ seen) rest
  end.

Fixpoint updateUsedReceiptIds_sets (seen : gset string)
    (sets : list (gset string)) : exc (gset string) :=
  match sets with
  | [] => Ok seen
  | rids :: rest =>
      let* seen := updateUsedReceiptIds_set seen (elements rids) in
      updateUsedReceiptIds_sets seen rest
  end.

Definition updateUsedReceiptIds (outUsedRecIds : list (gset string))
    (usedRecIds : gset string) : exc (gset string) :=
  updateUsedReceiptIds_sets ∅ (usedRecIds :: outUsedRecIds).

(** The [else] branch of [packageChunkWithVerifiers]: every group needs
    a certificate. *)
Fixpoint packageGroupsWithCerts (chunk : list DEPGroup) (keyStore : KeyStore)
  : exc (list GroupWithVerifier) :=
  match chunk with
  | [] => Ok []
  | (recs, cert, chain) :: rest =>
      match cert with
      | None => Raise NoCertificateGivenException
      | Some cert =>
          check verifyCert cert chain keyStore in
          let rv := ReceiptVerifier_fromCert cert in
          let* groupsWithVerifiers := packageGroupsWithCerts rest keyStore in
          Ok ((recs, rv) :: groupsWithVerifiers)
      end
  end.

Definition packageChunkWithVerifiers (chunk : list DEPGroup)
    (keyStore : KeyStore) : exc (list GroupWithVerifier) :=
  match chunk with
  | [(recs, cert, chain)] =>
      let* rv :=
        match cert with
        | None => Ok (ReceiptVerifier_fromKeyStore keyStore)
        | Some cert =>
            check verifyCert cert chain keyStore in
            Ok (ReceiptVerifier_fromCert cert)
        end in
      Ok [(recs, rv)]
  | _ => packageGroupsWithCerts chunk keyStore
  end.

(** The generator [getChunksForProcs], as the list of what it yields;
    [ret] is its accumulator. *)
Fixpoint getChunksForProcs_from {A} (ret : list A) (allChunks : list A)
    (nprocs : nat) : list (list A) :=
  match allChunks with
  | [] => if (0 <? length ret)%nat then [ret] else []
  | chunk :: rest =>
      let ret := ret ++ [chunk] in
      if (nprocs <=? length ret)%nat
      then ret :: getChunksForProcs_from [] rest nprocs
      else getChunksForProcs_from ret rest nprocs
  end.

Definition getChunksForProcs {A} (allChunks : list A) (nprocs : nat)
  : list (list A) :=
  getChunksForProcs_from [] allChunks nprocs.

(** Modelled from the spec: the turnover delta of one receipt, as the
    pass of [fromDEPGroup] below applies it. It is what [verifyGroup] adds
    for the receipt (spec 4.4, step 8): with a key, the rounded sum in
    cents of a receipt that is no dummy. The pass parses the receipt and
    verifies nothing; a receipt that does not parse, or whose sum has no
    integer, adds nothing. *)
Definition fromDEPGroup_delta (key : option bytes) (cr : string) : Z :=
  match fromJWSString (expandDEPReceipt cr) with
  | Ok (ro, algorithmPrefix) =>
      if negb (isDummy ro) && truthy_bytes key
      then
        match
          int_of_round
            ((sumA ro + sumB ro + sumC ro + sumD ro + sumE ro) * 100)%float
        with
        | Ok cents => cents
        | Raise _ => 0
        end
      else 0
  | Raise _ => 0
  end.

(** Modelled from the spec: [CashRegisterState.fromDEPGroup] of
    [verification_state], which [prepareVerificationTuples] calls and which
    is not among the sources. The spec (4.6, step 2) has the orchestrator
    compute the starting state of the next chunk by a cheap local pass that
    applies only the turnover delta and updates the last receipt JWS to the
    final JWS of the chunk; its design notes name the carry: the running
    turnover and the last JWS. The start receipt and the restore flag stay
    those of the state the pass starts from. *)
Definition fromDEPGroup_spec (old : CashRegisterState) (group : list string)
    (key : option bytes) : CashRegisterState :=
  let counter :=
    lastTurnoverCounter old
    + foldr Z.add 0 (map (fromDEPGroup_delta key) group) in
  let lastJWS :=
    match last group with
    | Some cr => Some (expandDEPReceipt cr)
    | None => lastReceiptJWS old
    end in
  set_lastReceiptJWS lastJWS (set_lastTurnoverCounter counter old).

(** The inner loop of [prepareVerificationTuples]: the register state
    projected over the groups of one package. *)
Definition projectPackage (key : option bytes) (pkgRState : CashRegisterState)
    (pkg : list GroupWithVerifier) : CashRegisterState :=
  fold_left
    (fun pkgRState '(group, rv) =>
       CashRegisterState_fromDEPGroup pkgRState group key)
    pkg pkgRState.

(** The states the outer loop appends to [pkgRStates]. *)
Fixpoint projectPackages (key : option bytes) (pkgRState : CashRegisterState)
    (chunksWithVerifiers : list (list GroupWithVerifier))
  : list CashRegisterState :=
  match chunksWithVerifiers with
  | [] => []
  | pkg :: rest =>
      let pkgRState := projectPackage key pkgRState pkg in
      pkgRState :: projectPackages key pkgRState rest
  end.

(** [zip] of the five lists. The last one holds one and the same empty
    set for every package; [verifyGroup] never adds to it, since it takes
    a new set in place of an empty one, so every package starts from the
    empty set. *)
Fixpoint zipVerificationTuples (pkgs : list (list GroupWithVerifier))
    (key : option bytes) (prevStartJWS : option string)
    (pkgRStates : list CashRegisterState) : list VerificationTuple :=
  match pkgs, pkgRStates with
  | pkg :: pkgs, pkgRState :: pkgRStates =>
      (pkg, key, prevStartJWS, pkgRState, ∅)
        :: zipVerificationTuples pkgs key prevStartJWS pkgRStates
  | _, _ => []
  end.

Definition prepareVerificationTuples
    (chunksWithVerifiers : list (list GroupWithVerifier))
    (key : option bytes) (prevStartJWS : option string)
    (cashregState : CashRegisterState) : list VerificationTuple :=
  let pkgRStates :=
    cashregState :: projectPackages key cashregState chunksWithVerifiers in
  let pkgRStates := removelast pkgRStates in
  zipVerificationTuples chunksWithVerifiers key prevStartJWS pkgRStates.

(** [map] with a function that may raise: the first exception ends it. *)
Fixpoint map_exc {A B} (f : A -> exc B) (l : list A) : exc (list B) :=
  match l with
  | [] => Ok []
  | a :: rest =>
      let* b := f a in
      let* bs := map_exc f rest in
      Ok (b :: bs)
  end.

(** The three statements after [res.get()]: unzip the results, merge the
    used IDs, take the last register state. An empty list of results
    cannot be unzipped into the two. *)
Definition collectResults
    (res : exc (list (CashRegisterState * gset string)))
    (usedRecIds : gset string) : exc (CashRegisterState * gset string) :=
  let* results := res in
  match last (map fst results) with
  | None => Raise PyValueError
  | Some rState =>
      let outUsedRecIds := map snd results in
      let* usedRecIds := updateUsedReceiptIds outUsedRecIds usedRecIds in
      Ok (rState, usedRecIds)
  end.

(** The loop of [verifyParsedDEP] over the batches of chunks. [res] is
    the pending result of the batch before: the workers' exceptions
    surface where [res.get()] is called (so it is with a pool and with
    Python 3's lazy [map]; Python 2's [map] raises them one step earlier,
    which changes only which exception an invalid DEP reports). *)
Fixpoint verifyParsedDEP_loop (batches : list (list (list DEPGroup)))
    (keyStore : KeyStore) (key : option bytes) (prevStart : option string)
    (res : option (exc (list (CashRegisterState * gset string))))
    (rState : CashRegisterState) (usedRecIds : gset string)
  : exc (option (exc (list (CashRegisterState * gset string)))
         * CashRegisterState * gset string) :=
  match batches with
  | [] => Ok (res, rState, usedRecIds)
  | chunks :: rest =>
      let* pkgs :=
        map_exc (fun chunk => packageChunkWithVerifiers chunk keyStore)
          chunks in
      let* '(rState, usedRecIds) :=
        match res with
        | Some res => collectResults res usedRecIds
        | None => Ok (rState, usedRecIds)
        end in
      let wargs := prepareVerificationTuples pkgs key prevStart rState in
      let res := Some (map_exc verifyGroupsWithVerifiersTuple wargs) in
      verifyParsedDEP_loop rest keyStore key prevStart res rState usedRecIds
  end.

(** [verifyParsedDEP], up to the call of [updateCashRegisterInfo]: the
    register state and the used IDs it computes from those of the
    caller's cluster state. [allChunks] are the chunks
    [parser.parse(chunksize)] yields. *)
Definition verifyParsedDEP_register (allChunks : list (list DEPGroup))
    (keyStore : KeyStore) (key : option bytes) (prevStart : option string)
    (rState : CashRegisterState) (usedRecIds : gset string) (nprocs : nat)
  : exc (CashRegisterState * gset string) :=
  let* '(res, rState, usedRecIds) :=
    verifyParsedDEP_loop (getChunksForProcs allChunks nprocs) keyStore key
      prevStart None rState usedRecIds in
  match res with
  | None => Raise PyAttributeError
  | Some res => collectResults res usedRecIds
  end.

Definition verifyParsedDEP (allChunks : list (list DEPGroup))
    (keyStore : KeyStore) (key : option bytes) (state : option ClusterState)
    (cashRegisterIdx : option Z) (nprocs : nat) : exc ClusterState :=
  let state := default ClusterState_new state in
  let* '(prevStart, rState, usedRecIds) :=
    getCashRegisterInfo state cashRegisterIdx in
  let* '(rState, usedRecIds) :=
    verifyParsedDEP_register allChunks keyStore key prevStart rState
      usedRecIds nprocs in
  Ok (updateCashRegisterInfo state cashRegisterIdx rState usedRecIds).

(** The variables the loops of [verifyDEP] carry. [one_group] is [None],
    [True] or [False]. *)
Definition DEPLoopState : Type :=
  option bool * CashRegisterState * gset string.

(** The inner loop of [verifyDEP], over the groups of one chunk. *)
Fixpoint verifyDEP_groups (chunk : list DEPGroup) (keyStore : KeyStore)
    (key : option bytes) (prevStart : option string) (ls : DEPLoopState)
  : exc DEPLoopState :=
  match chunk with
  | [] => Ok ls
  | (recs, cert, chain) :: rest =>
      let '(one_group, rState, usedRecIds) := ls in
      check raise_if (bool_decide (one_group = Some true))
              NoCertificateGivenException in
      check raise_if (bool_decide (one_group = Some true))
              NoCertificateGivenException in
      let* '(rv, one_group) :=
        match cert with
        | None =>
            check raise_if (bool_decide (one_group = Some false))
                    NoCertificateGivenException in
            Ok (ReceiptVerifier_fromKeyStore keyStore, Some true)
        | Some cert =>
            check verifyCert cert chain keyStore in
            Ok (ReceiptVerifier_fromCert cert, Some false)
        end in
      let* '(rState, usedRecIds) :=
        verifyGroup recs rv key prevStart rState usedRecIds in
      verifyDEP_groups rest keyStore key prevStart
        (one_group, rState, usedRecIds)
  end.

(** The outer loop of [verifyDEP], over the chunks. *)
Fixpoint verifyDEP_chunks (chunks : list (list DEPGroup))
    (keyStore : KeyStore) (key : option bytes) (prevStart : option string)
    (ls : DEPLoopState) : exc DEPLoopState :=
  match chunks with
  | [] => Ok ls
  | chunk :: rest =>
      check raise_if (length chunk <? 1)%nat (PyException "THIS IS A BUG") in
      let* ls := verifyDEP_groups chunk keyStore key prevStart ls in
      verifyDEP_chunks rest keyStore key prevStart ls
  end.

(** [verifyDEP]. [chunks] are the chunks
    [depparser.DictDEPParser(dep).parse(0)] yields. *)
Definition verifyDEP (chunks : list (list DEPGroup)) (keyStore : KeyStore)
    (key : option bytes) (state : option ClusterState)
    (cashRegisterIdx : option Z) : exc ClusterState :=
  let state := default ClusterState_new state in
  let* '(prevStart, rState, usedRecIds) :=
    getCashRegisterInfo state cashRegisterIdx in
  let* '(one_group, rState, usedRecIds) :=
    verifyDEP_chunks chunks keyStore key prevStart (None, rState, usedRecIds) in
  Ok (updateCashRegisterInfo state cashRegisterIdx rState usedRecIds).

End Verify.

Arguments LoopState : clear implicits.
Arguments GroupWithVerifier : clear implicits.
Arguments DEPGroup : clear implicits.
Arguments VerificationTuple : clear implicits.

(* ===================================================================== *)
(** ** [verify.py]: [balanceGroupsWithVerifiers] *)
(* ===================================================================== *)

(** [int(ceil(float(a) / b))] for a divisor [b] other than 0: the
    quotient is a float. *)
Class MathI := {
  int_ceil_fdiv : Z -> Z -> Z;
}.

(** [==] on receipt verifiers, by which [itertools.groupby] compares the
    keys: the key of the group first, the key of the item second. *)
Class VerifierEqI (ReceiptVerifier : Type) := {
  rv_eq : ReceiptVerifier -> ReceiptVerifier -> bool;
}.

(** What [balanceGroupsWithVerifiers] raises: [ZeroDivisionError] from
    the division by [nprocs], and the [ValueError] of [range] for a step
    of 0. *)
Inductive BalanceError : Type :=
| PyZeroDivisionError
| PyRangeStepError.

Section Balance.
Context `{MathI} {ReceiptVerifier : Type} `{VerifierEqI ReceiptVerifier}.

(** The comprehension [(r, rv) for recs, rv in groups for r in recs] *)
Definition recsWithVerifiers_of
    (groups : list (GroupWithVerifier ReceiptVerifier))
  : list (string * ReceiptVerifier) :=
  concat (map (fun '(recs, rv) => map (fun r : string => (r, rv)) recs) groups).

(** [range(0, stop, step)] for a step above 0 *)
Definition py_range (stop step : nat) : list nat :=
  map (fun k => k * step)%nat (seq 0 ((stop + step - 1) / step)).

(** The comprehension [l[i:i + n] for i in range(0, len(l), n)] *)
Definition slices {A} (n : nat) (l : list A) : list (list A) :=
  map (fun i => take n (drop i l)) (py_range (length l) n).

(** [groupby(sub, lambda x: x[1])] with the receipts of each run
    collected, as the inner loop does: a run goes on while the key of the
    next item equals [tgtkey], the key of the run's first item. [recs]
    holds the receipts of the run so far. *)
Fixpoint groupby_from (tgtkey : ReceiptVerifier) (recs : list string)
    (sub : list (string * ReceiptVerifier))
  : list (GroupWithVerifier ReceiptVerifier) :=
  match sub with
  | [] => [(recs, tgtkey)]
  | (r, v) :: rest =>
      if rv_eq tgtkey v then groupby_from tgtkey (recs ++ [r]) rest
      else (recs, tgtkey) :: groupby_from v [r] rest
  end.

Definition groupby_verifier (sub : list (string * ReceiptVerifier))
  : list (GroupWithVerifier ReceiptVerifier) :=
  match sub with
  | [] => []
  | (r, v) :: rest => groupby_from v [r] rest
  end.

Definition balanceGroupsWithVerifiers
    (groups : list (GroupWithVerifier ReceiptVerifier)) (nprocs : Z)
  : result BalanceError (list (list (GroupWithVerifier ReceiptVerifier))) :=
  let recsWithVerifiers := recsWithVerifiers_of groups in
  check raise_if (nprocs =? 0) PyZeroDivisionError in
  let recsPerProc :=
    int_ceil_fdiv (Z.of_nat (length recsWithVerifiers)) nprocs in
  check raise_if (recsPerProc =? 0) PyRangeStepError in
  let subs :=
    if recsPerProc <? 0 then []
    else slices (Z.to_nat recsPerProc) recsWithVerifiers in
  Ok (map groupby_verifier subs).

End Balance.

(* ===================================================================== *)
(** ** Notions the properties are stated with *)
(* ===================================================================== *)

(** The successful result of a computation, forgetting which exception a
    failed one raised. *)
Definition ok_of {E A} (c : result E A) : option A :=
  match c with
  | Ok a => Some a
  | Raise _ => None
  end.

(** [sets] share no ID with [seen] nor with one another. *)
Fixpoint disjoint_sets (seen : gset string) (sets : list (gset string))
  : Prop :=
  match sets with
  | [] => True
  | X :: rest => X ## seen /\ disjoint_sets (seen ∪ X) rest
  end.

(** The exception of the restore-receipt discipline. *)
Definition raisedForRestore (e : DEPException) : bool :=
  match e with
  | NoRestoreReceiptAfterSignatureSystemFailureException _ => true
  | _ => false
  end.

Section Notions.
Context `{CryptoI} `{BuiltinsI}.
Context {Receipt ReceiptVerifier Cert KeyStore ClusterState : Type}.
Context `{ReceiptI Receipt} `{VerifierI Receipt ReceiptVerifier}.
Context `{KeyStoreI Cert KeyStore ReceiptVerifier} `{StateI ClusterState}.

Implicit Types (rv : ReceiptVerifier) (key : option bytes)
  (prevStart prev : option string) (ls : LoopState Receipt)
  (used : gset string) (st rState : CashRegisterState) (ro : Receipt)
  (algorithm : AlgorithmI Receipt) (keyStore : KeyStore).

(** A certificate is anchored in the key store when the store holds a
    certificate of its serial and fingerprint, and unknown to the store
    when it holds none of its serial. *)
Definition anchored (c : Cert) keyStore : Prop :=
  exists ksCert,
    getCert keyStore (numSerialToKeyId (serial c)) = Some ksCert
    /\ certFingerprint ksCert = certFingerprint c.

Definition unknown (c : Cert) keyStore : Prop :=
  getCert keyStore (numSerialToKeyId (serial c)) = None.

(** A null receipt that is neither a dummy nor a reversal. *)
Definition plainNull ro : bool :=
  isNull ro && negb (isDummy ro) && negb (isReversal ro).

(** The loop state [verifyGroup] starts from when the register state
    holds no previous receipt. *)
Definition initialLoopState st used : LoopState Receipt :=
  {| ls_state := st; ls_used := used;
     ls_prev := lastReceiptJWS st; ls_prevObj := None |}.

Definition with_used (u : gset string) ls : LoopState Receipt :=
  {| ls_state := ls_state ls; ls_used := u;
     ls_prev := ls_prev ls; ls_prevObj := ls_prevObj ls |}.

(** The iteration of [verifyGroup] from the checks against the previous
    receipt on (lines 420-456), for a receipt [ro] of JWS [r]. *)
Definition afterInitialChecks key prevStart (r : string) ro algorithm st
    used prev (prevObj : option Receipt) : exc (LoopState Receipt) :=
  check checkAgainstPrevious ro used prevObj in
  check checkChain r ro prev algorithm prevStart st in
  let* st := checkTurnoverCounter ro key algorithm st in
  Ok {| ls_state := st;
        ls_used := {[receiptId ro]} ∪ used;
        ls_prev := Some r;
        ls_prevObj := Some ro |}.

(** The iteration after the signature checks (lines 403-456). *)
Definition afterSignatureChecks key prevStart (r : string) ro algorithm st ls
  : exc (LoopState Receipt) :=
  let* '(st, prev, prevObj) :=
    checkInitialReceipt r ro prevStart st (ls_prev ls) (ls_prevObj ls) in
  afterInitialChecks key prevStart r ro algorithm st (ls_used ls) prev prevObj.

(** A receipt passes the checks that come before the chain check (lines
    376-433): signature and restore discipline, the checks on an initial
    receipt and those against the previous receipt. [st] and [prev] are
    the register state and the previous JWS the chain check then sees. *)
Definition reachesChainCheck rv prevStart ls (cr : string) ro algorithm st
    prev : Prop :=
  exists st1 verified prevObj,
    verifySignature rv (expandDEPReceipt cr) (ls_state ls) (ls_prevObj ls)
    = Ok (st1, verified)
    /\ recoverUnsigned (expandDEPReceipt cr) st1 (ls_prevObj ls) verified
       = Ok (ro, algorithm)
    /\ checkInitialReceipt (expandDEPReceipt cr) ro prevStart st1 (ls_prev ls)
         (ls_prevObj ls)
       = Ok (st, prev, prevObj)
    /\ checkAgainstPrevious ro (ls_used ls) prevObj = Ok tt.






(** The chunks verified one after the other, each from the register state
    the chunk before it ended in and from an empty set of used IDs: what
    the workers of [verifyParsedDEP] would compute from the true start
    states. The results are the states the chunks end in, so the chunks
    start from [chunkStarts]. *)
Fixpoint runChunks key prevStart rState
    (pkgs : list (list (GroupWithVerifier ReceiptVerifier)))
  : exc (list (CashRegisterState * gset string)) :=
  match pkgs with
  | [] => Ok []
  | pkg :: rest =>
      let* '(rState, usedRecIds) :=
        verifyGroupsWithVerifiers pkg key prevStart rState ∅ in
      let* results := runChunks key prevStart rState rest in
      Ok ((rState, usedRecIds) :: results)
  end.


(** The last register state of a list of results, [rState] when there is
    none. *)
Definition lastState rState (results : list (CashRegisterState * gset string))
  : CashRegisterState :=
  default rState (last (map fst results)).

(** The register state and used IDs a pending result stands for. *)
Definition pending (res : option (exc (list (CashRegisterState * gset string))))
    rState used : exc (CashRegisterState * gset string) :=
  match res with
  | Some res => collectResults res used
  | None => Ok (rState, used)
  end.

(** The outcome of the orchestrator's loop once the last pending result
    is collected. *)
Definition loopOutcome (batches : list (list (list (DEPGroup Cert))))
    keyStore key prevStart res rState used
  : exc (CashRegisterState * gset string) :=
  let* '(res, rState, used) :=
    verifyParsedDEP_loop batches keyStore key prevStart res rState used in
  pending res rState used.

(** The chunks packaged, run in sequence and their IDs merged. *)
Definition chunksInSequence (chunks : list (list (DEPGroup Cert)))
    keyStore key prevStart rState used
  : option (CashRegisterState * gset string) :=
  pkgs ← ok_of (map_exc (fun chunk => packageChunkWithVerifiers chunk keyStore)
                  chunks);
  results ← ok_of (runChunks key prevStart rState pkgs);
  used ← ok_of (updateUsedReceiptIds_sets used (map snd results));
  Some (lastState rState results, used).

(** Follows the spec's words: the sequential result. Every chunk gets its
    verifiers, then all groups are processed in order by
    [verifyGroupsWithVerifiers], from the register state and the used IDs
    of the caller's cluster state. *)
Definition verifySequentially (allChunks : list (list (DEPGroup Cert)))
    keyStore key (state : option ClusterState) (cashRegisterIdx : option Z)
  : exc ClusterState :=
  let state := default ClusterState_new state in
  let* '(prevStart, rState, usedRecIds) :=
    getCashRegisterInfo state cashRegisterIdx in
  let* pkgs :=
    map_exc (fun chunk => packageChunkWithVerifiers chunk keyStore)
      allChunks in
  let* '(rState, usedRecIds) :=
    verifyGroupsWithVerifiers (concat pkgs) key prevStart rState usedRecIds in
  Ok (updateCashRegisterInfo state cashRegisterIdx rState usedRecIds).

End Notions.

(* ===================================================================== *)
(** ** Notions for the further properties *)
(* ===================================================================== *)

Section MoreNotions.
Context `{CryptoI} `{BuiltinsI}.
Context {Receipt ReceiptVerifier Cert KeyStore ClusterState : Type}.
Context `{ReceiptI Receipt} `{VerifierI Receipt ReceiptVerifier}.
Context `{KeyStoreI Cert KeyStore ReceiptVerifier} `{StateI ClusterState}.

Implicit Types (rv : ReceiptVerifier) (key : option bytes)
  (prevStart prev : option string) (ls : LoopState Receipt)
  (used : gset string) (st rState : CashRegisterState) (ro : Receipt)
  (algorithm : AlgorithmI Receipt) (keyStore : KeyStore).

(** The receipt object and the algorithm an iteration of [verifyGroup]
    goes on with for the JWS [r] (lines 379-401): those of [verifyJWS],
    or, after one of the two exceptions the loop catches, those of
    [fromJWSString] and of the table of algorithms. *)
Definition receiptAndAlgorithm rv (r : string)
  : option (Receipt * AlgorithmI Receipt) :=
  match verifyJWS rv r with
  | Ok ro_algorithm => Some ro_algorithm
  | Raise SignatureSystemFailedException
  | Raise UnsignedNullReceiptException =>
      match fromJWSString r with
      | Ok (ro, algorithmPrefix) =>
          algorithm ← ALGORITHMS algorithmPrefix; Some (ro, algorithm)
      | Raise _ => None
      end
  | Raise _ => None
  end.

(** The receipt objects of a group, when each receipt has one. *)
Definition receiptObjects rv (group : list string) : option (list Receipt) :=
  mapM (fun cr => fst <$> receiptAndAlgorithm rv (expandDEPReceipt cr)) group.

(** What a receipt adds to the turnover counter (lines 445-453). *)
Definition turnoverDelta ro : Z :=
  if isDummy ro then 0
  else int_round ((sumA ro + sumB ro + sumC ro + sumD ro + sumE ro) * 100)%float.

(** The previous JWS the chain check of a group's first receipt uses. *)
Definition firstPrevious prevStart st : option string :=
  if truthy (lastReceiptJWS st) then lastReceiptJWS st
  else if truthy prevStart then prevStart
  else lastReceiptJWS st.

(** The receipt verifier and the receipt parser agree: a JWS that
    [verifyJWS] accepts parses to the same receipt object. *)
Definition verifier_parses rv : Prop :=
  forall (r : string) ro algorithm,
    verifyJWS rv r = Ok (ro, algorithm) ->
    exists algorithmPrefix, fromJWSString r = Ok (ro, algorithmPrefix).

(** [set_lastReceiptJWS] on the register state of a loop state. *)
Definition with_lastReceiptJWS (v : option string) ls : LoopState Receipt :=
  {| ls_state := set_lastReceiptJWS v (ls_state ls); ls_used := ls_used ls;
     ls_prev := ls_prev ls; ls_prevObj := ls_prevObj ls |}.

(** The package entry of a group: its receipts with the verifier of its
    certificate, or of the key store when it has none. *)
Definition groupWithVerifier keyStore (group : DEPGroup Cert)
  : GroupWithVerifier ReceiptVerifier :=
  let '(recs, cert, chain) := group in
  (recs,
   match cert with
   | Some cert => ReceiptVerifier_fromCert cert
   | None => ReceiptVerifier_fromKeyStore keyStore
   end).

(** A group carries a certificate that [verifyCert] accepts. *)
Definition certified keyStore (group : DEPGroup Cert) : Prop :=
  let '(recs, cert, chain) := group in
  exists c, cert = Some c /\ verifyCert c chain keyStore = Ok tt.

(** Every receipt in a group of its own. *)
Definition singletons (l : list (string * ReceiptVerifier))
  : list (GroupWithVerifier ReceiptVerifier) :=
  map (fun '(r, rv) => ([r], rv)) l.

(** The receipts with verifiers that [verifyGroup] can take one at a
    time: the verifier's receipt objects are the parser's, and no JWS is
    the empty string. *)
Definition separable (l : list (string * ReceiptVerifier)) : Prop :=
  Forall (fun '(cr, rv) => verifier_parses rv /\ expandDEPReceipt cr <> "") l.

End MoreNotions.

(* ===================================================================== *)
(** ** The primitives, for the examples *)
(* ===================================================================== *)

(** SHA-256 as FIPS 180-4 defines it, on 32-bit words held in [Z]. *)
Module SHA256.

Definition w32 (x : Z) : Z := x mod 2 ^ 32.

Definition rotr (n x : Z) : Z :=
  Z.lor (Z.shiftr x n) (w32 (Z.shiftl x (32 - n))).

Definition Ch (x y z : Z) : Z :=
  Z.lxor (Z.land x y) (Z.land (Z.lnot x) z).

Definition Maj (x y z : Z) : Z :=
  Z.lxor (Z.lxor (Z.land x y) (Z.land x z)) (Z.land y z).

Definition Sigma0 (x : Z) : Z :=
  Z.lxor (Z.lxor (rotr 2 x) (rotr 13 x)) (rotr 22 x).

Definition Sigma1 (x : Z) : Z :=
  Z.lxor (Z.lxor (rotr 6 x) (rotr 11 x)) (rotr 25 x).

Definition sigma0 (x : Z) : Z :=
  Z.lxor (Z.lxor (rotr 7 x) (rotr 18 x)) (Z.shiftr x 3).

Definition sigma1 (x : Z) : Z :=
  Z.lxor (Z.lxor (rotr 17 x) (rotr 19 x)) (Z.shiftr x 10).

Definition K : list Z :=
  [1116352408; 1899447441; 3049323471; 3921009573; 961987163; 1508970993;
   2453635748; 2870763221; 3624381080; 310598401; 607225278; 1426881987;
   1925078388; 2162078206; 2614888103; 3248222580; 3835390401; 4022224774;
   264347078; 604807628; 770255983; 1249150122; 1555081692; 1996064986;
   2554220882; 2821834349; 2952996808; 3210313671; 3336571891; 3584528711;
   113926993; 338241895; 666307205; 773529912; 1294757372; 1396182291;
   1695183700; 1986661051; 2177026350; 2456956037; 2730485921; 2820302411;
   3259730800; 3345764771; 3516065817; 3600352804; 4094571909; 275423344;
   430227734; 506948616; 659060556; 883997877; 958139571; 1322822218;
   1537002063; 1747873779; 1955562222; 2024104815; 2227730452; 2361852424;
   2428436474; 2756734187; 3204031479; 3329325298].

Definition H0 : list Z :=
  [1779033703; 3144134277; 1013904242; 2773480762; 1359893119; 2600822924;
   528734635; 1541459225].

(** The message, the byte 0x80, zeros up to 56 modulo 64, and the length
    in bits as a 64-bit big-endian number. *)
Definition pad (msg : bytes) : bytes :=
  let len := Z.of_nat (length msg) in
  msg ++ [byte_of_Z 128]
      ++ repeat x00 (Z.to_nat ((55 - len) mod 64))
      ++ be_bytes 8 (8 * len).

(** Cut a byte string into pieces of [n] bytes ([fuel] bounds their
    number). *)
Fixpoint pieces (fuel n : nat) (bs : bytes) : list bytes :=
  match fuel, bs with
  | O, _ | _, [] => []
  | S fuel, _ => take n bs :: pieces fuel n (drop n bs)
  end.

Definition words (block : bytes) : list Z :=
  map be_value (pieces 16 4 block).

(** Extends the message schedule by [n] words. *)
Fixpoint schedule (n : nat) (w : list Z) : list Z :=
  match n with
  | O => w
  | S n =>
      let t := length w in
      let at_ k := nth (t - k) w 0 in
      schedule n
        (w ++ [w32 (sigma1 (at_ 2%nat) + at_ 7%nat
                    + sigma0 (at_ 15%nat) + at_ 16%nat)])
  end.

Definition round (st : list Z) (kw : Z * Z) : list Z :=
  match st with
  | [a; b; c; d; e; f; g; h] =>
      let t1 := h + Sigma1 e + Ch e f g + fst kw + snd kw in
      let t2 := Sigma0 a + Maj a b c in
      [w32 (t1 + t2); a; b; c; w32 (d + t1); e; f; g]
  | _ => st
  end.

Definition compress (h : list Z) (block : bytes) : list Z :=
  let w := schedule 48 (words block) in
  let st := fold_left round (combine K w) h in
  map (fun p => w32 (fst p + snd p)) (combine h st).

Definition sha256 (msg : bytes) : bytes :=
  let padded := pad msg in
  let blocks := pieces (length padded) 64 padded in
  concat (map (be_bytes 4) (fold_left compress blocks H0)).

End SHA256.

(** The AES-256 block encryption of FIPS 197, on bytes held in [Z]. *)
Module AES256.

(** Multiplication by x in GF(2^8) modulo x^8 + x^4 + x^3 + x + 1. *)
Definition xtime (b : Z) : Z :=
  let s := 2 * b in
  if 256 <=? s then Z.lxor (s - 256) 27 else s.

Fixpoint gmul_ (fuel : nat) (a b : Z) : Z :=
  match fuel with
  | O => 0
  | S fuel =>
      Z.lxor (if Z.odd b then a else 0) (gmul_ fuel (xtime a) (b / 2))
  end.

Definition gmul (a b : Z) : Z := gmul_ 8 a b.

Fixpoint gpow (x : Z) (n : nat) : Z :=
  match n with
  | O => 1
  | S n => gmul x (gpow x n)
  end.

Definition rotl8 (x n : Z) : Z :=
  Z.lor (Z.shiftl x n mod 256) (Z.shiftr x (8 - n)).

(** The S-box: the inverse in GF(2^8) (x^254), then the affine map. *)
Definition sbox_value (x : Z) : Z :=
  let i := gpow x 254 in
  Z.lxor (Z.lxor (Z.lxor (Z.lxor (Z.lxor i (rotl8 i 1)) (rotl8 i 2))
                    (rotl8 i 3)) (rotl8 i 4)) 99.

(** The S-box as a table, computed once. *)
Definition sbox_table : list Z :=
  Eval vm_compute in map (fun i => sbox_value (Z.of_nat i)) (seq 0 256).

Definition sbox (x : Z) : Z := nth (Z.to_nat x) sbox_table 0.

Definition xor_words (a b : list Z) : list Z :=
  map (fun p => Z.lxor (fst p) (snd p)) (combine a b).

(** Extends the key schedule (a list of 4-byte words, 8 to begin with)
    by [n] words. *)
Fixpoint expand (n : nat) (w : list (list Z)) : list (list Z) :=
  match n with
  | O => w
  | S n =>
      let i := length w in
      let temp := nth (i - 1) w [] in
      let temp :=
        if (i mod 8 =? 0)%nat
        then xor_words (map sbox (drop 1 temp ++ take 1 temp))
               [gpow 2 (i / 8 - 1)%nat; 0; 0; 0]
        else if (i mod 8 =? 4)%nat then map sbox temp
        else temp in
      expand n (w ++ [xor_words (nth (i - 8) w []) temp])
  end.

Fixpoint words_of (fuel : nat) (bs : list Z) : list (list Z) :=
  match fuel, bs with
  | O, _ | _, [] => []
  | S fuel, _ => take 4 bs :: words_of fuel (drop 4 bs)
  end.

Definition round_keys (key : list Z) : list (list Z) :=
  map (fun k => concat (take 4 (drop (4 * k) (expand 52 (words_of 8 key)))))
    (seq 0 15).

Definition shift_rows (s : list Z) : list Z :=
  map (fun i => nth (4 * ((i / 4 + i mod 4) mod 4) + i mod 4)%nat s 0)
    (seq 0 16).

Definition mix_column (c : list Z) : list Z :=
  match c with
  | [a0; a1; a2; a3] =>
      [Z.lxor (Z.lxor (gmul 2 a0) (gmul 3 a1)) (Z.lxor a2 a3);
       Z.lxor (Z.lxor a0 (gmul 2 a1)) (Z.lxor (gmul 3 a2) a3);
       Z.lxor (Z.lxor a0 a1) (Z.lxor (gmul 2 a2) (gmul 3 a3));
       Z.lxor (Z.lxor (gmul 3 a0) a1) (Z.lxor a2 (gmul 2 a3))]
  | _ => c
  end.

Definition mix_columns (s : list Z) : list Z :=
  concat (map mix_column (words_of 4 s)).

Definition encrypt_block (key block : bytes) : bytes :=
  match round_keys (map Z_of_byte key) with
  | k0 :: ks =>
      let s := xor_words (map Z_of_byte block) k0 in
      let s :=
        fold_left
          (fun s k => xor_words (mix_columns (shift_rows (map sbox s))) k)
          (take 13 ks) s in
      let s := xor_words (shift_rows (map sbox s)) (nth 13 ks []) in
      map byte_of_Z s
  | [] => []
  end.

End AES256.

(* ===================================================================== *)
(** ** A small world to run the verifier in *)
(* ===================================================================== *)

(** Stand-ins for the collaborators that are outside the sources, with
    the receipts of one cash register. They serve the examples below; the
    theorems hold for every implementation of the interfaces. *)
Module Fixture.

#[export] Instance crypto : CryptoI := {|
  sha256 := SHA256.sha256;
  aes256_block := AES256.encrypt_block;
|}.

(** [int(round(x))] as Python 3 computes it: to the nearest integer, ties
    to the even one. *)
Definition py3_int_round (x : float) : Z :=
  match Prim2SF x with
  | S754_finite s m e =>
      let a :=
        if 0 <=? e then Z.pos m * 2 ^ e
        else
          let d := 2 ^ (- e) in
          let q := Z.pos m / d in
          let r := Z.pos m mod d in
          if 2 * r <? d then q
          else if d <? 2 * r then q + 1
          else if Z.even q then q else q + 1 in
      if s then - a else a
  | _ => 0
  end.

#[export] Instance builtins : BuiltinsI := {| int_round := py3_int_round |}.

Record Receipt : Type := {
  r_zda : string;
  r_registerId : string;
  r_receiptId : string;
  r_previousChain : string;
  r_sumA : float;
  r_sumB : float;
  r_sumC : float;
  r_sumD : float;
  r_sumE : float;
  r_encTurnoverCounter : bytes;
  r_certSerial : Z;
  r_dummy : bool;
  r_reversal : bool;
  r_signedBroken : bool;
}.

Definition r_isNull (r : Receipt) : bool :=
  (r_sumA r =? 0)%float && (r_sumB r =? 0)%float && (r_sumC r =? 0)%float
  && (r_sumD r =? 0)%float && (r_sumE r =? 0)%float.

#[export] Instance receipts_are_receipts : ReceiptI Receipt := {|
  zda := r_zda;
  registerId := r_registerId;
  receiptId := r_receiptId;
  previousChain := r_previousChain;
  sumA := r_sumA;
  sumB := r_sumB;
  sumC := r_sumC;
  sumD := r_sumD;
  sumE := r_sumE;
  isNull := r_isNull;
  isDummy := r_dummy;
  isReversal := r_reversal;
  isSignedBroken := r_signedBroken;
  Receipt_decryptTurnoverCounter r key algorithm :=
    decryptTurnoverCounter algorithm r (r_encTurnoverCounter r) key;
|}.

(** The turnover key: the bytes 0 to 31. *)
Definition key : bytes := map (fun i => byte_of_Z (Z.of_nat i)) (seq 0 32).

(** A receipt of register [K1] in a closed system: its ID, the JWS of
    its predecessor, its sums A, B and D, the turnover counter it
    encrypts, and whether the signature device had failed. *)
Definition receipt (rid : string) (previous : option string)
    (a b d : float) (counter : Z) (broken : bool) : Receipt :=
  let blank := {|
    r_zda := "AT0"; r_registerId := "K1"; r_receiptId := rid;
    r_previousChain := ""; r_sumA := a; r_sumB := b; r_sumC := 0;
    r_sumD := d; r_sumE := 0; r_encTurnoverCounter := [];
    r_certSerial := 4711; r_dummy := false; r_reversal := false;
    r_signedBroken := broken |} in
  {| r_zda := r_zda blank; r_registerId := r_registerId blank;
     r_receiptId := rid;
     r_previousChain := b64encode (R1_chain blank previous);
     r_sumA := a; r_sumB := b; r_sumC := 0; r_sumD := d; r_sumE := 0;
     r_encTurnoverCounter :=
       default [] (R1_encryptTurnoverCounter blank counter key 8);
     r_certSerial := 4711; r_dummy := false; r_reversal := false;
     r_signedBroken := broken |}.

(** The receipts of this world: a start receipt, two sales, a sale made
    while the signature device was down, the null receipt that restores
    it and a further sale; and, as an alternative to the restoring
    receipt, a sale in its place and the sale after that one, or else a
    null receipt after that sale and one more sale. *)
Definition start1 : Receipt :=
  Eval vm_compute in receipt "1" None 0 0 0 0 false.
Definition sale2 : Receipt :=
  Eval vm_compute in receipt "2" (Some "jws-start") 100 50 0 15000 false.
Definition sale3 : Receipt :=
  Eval vm_compute in receipt "3" (Some "jws-sale-2") 0 0 25 17500 false.
Definition outage4 : Receipt :=
  Eval vm_compute in receipt "4" (Some "jws-sale-3") 10 0 0 18500 true.
Definition restore5 : Receipt :=
  Eval vm_compute in receipt "5" (Some "jws-outage-4") 0 0 0 18500 false.
Definition sale6 : Receipt :=
  Eval vm_compute in receipt "6" (Some "jws-restore-5") 1.5 0 0 18650 false.
Definition sale5x : Receipt :=
  Eval vm_compute in receipt "5x" (Some "jws-outage-4") 2 0 0 18700 false.
Definition sale6x : Receipt :=
  Eval vm_compute in receipt "6x" (Some "jws-sale-5x") 3 0 0 19000 false.
Definition restore6y : Receipt :=
  Eval vm_compute in receipt "6y" (Some "jws-sale-5x") 0 0 0 18700 false.
Definition sale7y : Receipt :=
  Eval vm_compute in receipt "7y" (Some "jws-restore-6y") 3 0 0 19000 false.

(** The JWS strings that hold them. *)
Definition jws : list (string * Receipt) :=
  [("jws-start", start1); ("jws-sale-2", sale2); ("jws-sale-3", sale3);
   ("jws-outage-4", outage4); ("jws-restore-5", restore5);
   ("jws-sale-6", sale6); ("jws-sale-5x", sale5x); ("jws-sale-6x", sale6x);
   ("jws-restore-6y", restore6y); ("jws-sale-7y", sale7y)].

Fixpoint assoc {A} (k : string) (l : list (string * A)) : option A :=
  match l with
  | [] => None
  | (k', a) :: rest => if String.eqb k k' then Some a else assoc k rest
  end.

Record Certificate : Type := {
  c_serial : Z;
  c_fingerprint : string;
  c_issuer : string;
}.

Definition KeyStore : Type := list (string * Certificate).

Inductive ReceiptVerifier : Type :=
| fromCert (cert : Certificate)
| fromKeyStore (keyStore : KeyStore).

Definition parse (r : string) : result ReceiptException (Receipt * string) :=
  match assoc r jws with
  | Some ro => Ok (ro, "R1")
  | None => Raise MalformedReceiptException
  end.

(** The verifier reports a failed signature device for a receipt marked
    so, and otherwise accepts a receipt whose certificate serial is the
    one it verifies against. *)
Definition verify (rv : ReceiptVerifier) (r : string)
  : result ReceiptException (Receipt * AlgorithmI Receipt) :=
  let* '(ro, prefix) := parse r in
  if r_signedBroken ro then Raise SignatureSystemFailedException
  else
    match rv with
    | fromCert cert =>
        if r_certSerial ro =? c_serial cert then Ok (ro, R1)
        else Raise CertSerialMismatchException
    | fromKeyStore keyStore =>
        match assoc (pretty (r_certSerial ro)) keyStore with
        | Some _ => Ok (ro, R1)
        | None => Raise NoPublicKeyException
        end
    end.

#[export] Instance verifier : VerifierI Receipt ReceiptVerifier := {|
  verifyJWS := verify;
  fromJWSString := parse;
  expandDEPReceipt cr := cr;
|}.

#[export] Instance keyStores : KeyStoreI Certificate KeyStore ReceiptVerifier := {|
  serial := c_serial;
  numSerialToKeyId := pretty;
  getCert keyStore keyId := assoc keyId keyStore;
  certFingerprint := c_fingerprint;
  utils_verifyCert cert signer :=
    String.eqb (c_issuer cert) (c_fingerprint signer);
  ReceiptVerifier_fromKeyStore := fromKeyStore;
  ReceiptVerifier_fromCert := fromCert;
|}.

(** A root certificate, an intermediate one it signed, the certificate
    of the signature device, and a forged certificate with the device's
    serial. *)
Definition root : Certificate :=
  {| c_serial := 1; c_fingerprint := "fp-root"; c_issuer := "fp-root" |}.
Definition intermediate : Certificate :=
  {| c_serial := 2; c_fingerprint := "fp-ca"; c_issuer := "fp-root" |}.
Definition device : Certificate :=
  {| c_serial := 4711; c_fingerprint := "fp-device"; c_issuer := "fp-ca" |}.
Definition forged : Certificate :=
  {| c_serial := 4711; c_fingerprint := "fp-forged"; c_issuer := "fp-ca" |}.

Definition trustedRoot : KeyStore := [("1", root)].
Definition trustedDevice : KeyStore := [("4711", device)].

(** The cluster state of the spec: the register states in order and the
    used receipt IDs. *)
Record ClusterState : Type := {
  cashRegisters : list CashRegisterState;
  usedReceiptIds : gset string;
}.

Definition emptyRegister : CashRegisterState :=
  {| startReceiptJWS := None; lastReceiptJWS := None;
     lastTurnoverCounter := 0; needRestoreReceipt := false |}.

(** The register the DEP extends, with the start receipt of the register
    before it: a new last register when there is no index. *)
Definition registerInfo (state : ClusterState) (idx : option Z)
  : exc (option string * CashRegisterState * gset string) :=
  match idx with
  | None =>
      match last (cashRegisters state) with
      | None => Ok (None, emptyRegister, usedReceiptIds state)
      | Some before =>
          if truthy (startReceiptJWS before)
          then Ok (startReceiptJWS before, emptyRegister,
                   usedReceiptIds state)
          else Raise (StateError "no start receipt for last register")
      end
  | Some i =>
      match cashRegisters state !! Z.to_nat i with
      | Some register =>
          if i <? 0 then Raise (StateError "invalid cash register index")
          else
            let prevStart :=
              if i =? 0 then None
              else
                from_option startReceiptJWS None
                  (cashRegisters state !! Z.to_nat (i - 1)) in
            Ok (prevStart, register, usedReceiptIds state)
      | None => Raise (StateError "invalid cash register index")
      end
  end.

Definition updateRegister (state : ClusterState) (idx : option Z)
    (rState : CashRegisterState) (usedRecIds : gset string) : ClusterState :=
  {| cashRegisters :=
       match idx with
       | None => cashRegisters state ++ [rState]
       | Some i => <[Z.to_nat i := rState]> (cashRegisters state)
       end;
     usedReceiptIds := usedRecIds |}.

(** The cluster state, with the projection of a register state as the
    spec describes it. *)
#[export] Instance states : StateI ClusterState := {|
  ClusterState_new := {| cashRegisters := []; usedReceiptIds := ∅ |};
  getCashRegisterInfo := registerInfo;
  updateCashRegisterInfo := updateRegister;
  CashRegisterState_fromDEPGroup := fromDEPGroup_spec;
|}.

(** A DEP of four chunks with the receipts of the register, and the
    cluster state its verification ends in. *)
Definition dep : list (list (DEPGroup Certificate)) :=
  [ [(["jws-start"; "jws-sale-2"], Some device, [intermediate; root])];
    [(["jws-sale-3"; "jws-outage-4"], Some device, [intermediate; root])];
    [(["jws-restore-5"], Some device, [intermediate; root])];
    [(["jws-sale-6"], Some device, [intermediate; root])] ].

Definition dep_verified : ClusterState :=
  {| cashRegisters :=
       [{| startReceiptJWS := Some "jws-start";
           lastReceiptJWS := Some "jws-sale-6";
           lastTurnoverCounter := 18650;
           needRestoreReceipt := false |}];
     usedReceiptIds := {["1"; "2"; "3"; "4"; "5"; "6"]} |}.




(** The register once the first chunk of the DEP is verified, and the
    rest of the DEP. *)
Definition dep_begun : ClusterState :=
  {| cashRegisters :=
       [{| startReceiptJWS := Some "jws-start";
           lastReceiptJWS := Some "jws-sale-2";
           lastTurnoverCounter := 15000;
           needRestoreReceipt := false |}];
     usedReceiptIds := {["1"; "2"]} |}.

Definition dep_rest : list (list (DEPGroup Certificate)) :=
  [ [(["jws-sale-3"; "jws-outage-4"], Some device, [intermediate; root])];
    [(["jws-restore-5"], Some device, [intermediate; root])];
    [(["jws-sale-6"], Some device, [intermediate; root])] ].



(** The register state once the start receipt is verified, and the loop
    state of [verifyGroup] at that point. *)
Definition started : CashRegisterState :=
  {| startReceiptJWS := Some "jws-start"; lastReceiptJWS := None;
     lastTurnoverCounter := 0; needRestoreReceipt := false |}.

Definition afterStart : LoopState Receipt :=
  {| ls_state := started; ls_used := {["1"]};
     ls_prev := Some "jws-start"; ls_prevObj := Some start1 |}.

(** The loop state after the outage and the sale [sale5x] that follows it
    in place of a restoring receipt. *)
Definition afterSale5x : LoopState Receipt :=
  {| ls_state := set_needRestoreReceipt true
                   (set_lastTurnoverCounter 18700 started);
     ls_used := {["1"; "2"; "3"; "4"; "5x"]};
     ls_prev := Some "jws-sale-5x"; ls_prevObj := Some sale5x |}.

End Fixture.

(* ===================================================================== *)
(** ** More of the small world *)
(* ===================================================================== *)

(** The collaborators of [balanceGroupsWithVerifiers], and more names
    for the receipts of the register. *)
Module MoreFixture.
Import Fixture.

(** The ceiling of the quotient, which the float division gives for
    numbers as small as those of the examples. *)
#[export] Instance math : MathI := {|
  int_ceil_fdiv a b := - ((- a) / b);
|}.

#[export] Instance Certificate_eq_dec : EqDecision Certificate.
Proof. solve_decision. Defined.

#[export] Instance ReceiptVerifier_eq_dec : EqDecision ReceiptVerifier.
Proof. solve_decision. Defined.

(** Two verifiers are equal when they were made from the same
    certificate or the same key store. *)
#[export] Instance verifierEq : VerifierEqI ReceiptVerifier := {|
  rv_eq a b := bool_decide (a = b);
|}.

(** The receipts of the register in two groups, before and from the
    outage on. *)
Definition twoGroups : list (GroupWithVerifier ReceiptVerifier) :=
  [(["jws-start"; "jws-sale-2"; "jws-sale-3"], fromCert device);
   (["jws-outage-4"; "jws-restore-5"], fromCert device)].

(** The first three receipts of the register, and the register state
    their verification ends in. *)
Definition firstThree : list string :=
  ["jws-start"; "jws-sale-2"; "jws-sale-3"].

Definition afterThree : CashRegisterState :=
  {| startReceiptJWS := Some "jws-start";
     lastReceiptJWS := Some "jws-sale-3";
     lastTurnoverCounter := 17500;
     needRestoreReceipt := false |}.

End MoreFixture.

(** A second world, with two more receipts: the start receipt of a
    register K2, and a sale of the register K1 carrying the operator tag
    of an open system. *)
Module Cluster.
Import Fixture.

Definition start2 : Receipt :=
  {| r_zda := "AT0"; r_registerId := "K2"; r_receiptId := "K2-1";
     r_previousChain := r_previousChain start1;
     r_sumA := 0; r_sumB := 0; r_sumC := 0; r_sumD := 0; r_sumE := 0;
     r_encTurnoverCounter := r_encTurnoverCounter start1;
     r_certSerial := 4711; r_dummy := false; r_reversal := false;
     r_signedBroken := false |}.

Definition openSale : Receipt :=
  {| r_zda := "AT1"; r_registerId := "K1"; r_receiptId := "2o";
     r_previousChain := r_previousChain sale2;
     r_sumA := 100; r_sumB := 50; r_sumC := 0; r_sumD := 0; r_sumE := 0;
     r_encTurnoverCounter := r_encTurnoverCounter sale2;
     r_certSerial := 4711; r_dummy := false; r_reversal := false;
     r_signedBroken := false |}.

Definition jws : list (string * Receipt) :=
  Fixture.jws ++ [("jws-k2-start", start2); ("jws-open-sale", openSale)].

Definition parse (r : string) : result ReceiptException (Receipt * string) :=
  match assoc r jws with
  | Some ro => Ok (ro, "R1")
  | None => Raise MalformedReceiptException
  end.

(** The verifier of the first world, over the larger table. *)
Definition verify (rv : ReceiptVerifier) (r : string)
  : result ReceiptException (Receipt * AlgorithmI Receipt) :=
  let* '(ro, prefix) := parse r in
  if r_signedBroken ro then Raise SignatureSystemFailedException
  else
    match rv with
    | fromCert cert =>
        if r_certSerial ro =? c_serial cert then Ok (ro, R1)
        else Raise CertSerialMismatchException
    | fromKeyStore keyStore =>
        match assoc (pretty (r_certSerial ro)) keyStore with
        | Some _ => Ok (ro, R1)
        | None => Raise NoPublicKeyException
        end
    end.

#[export] Instance verifier : VerifierI Receipt ReceiptVerifier := {|
  verifyJWS := verify;
  fromJWSString := parse;
  expandDEPReceipt cr := cr;
|}.

End Cluster.

(* ===================================================================== *)
(** * Properties *)
(* ===================================================================== *)

(** ** Bytes and integers *)
Lemma Z_of_byte_range (b : byte) : 0 <= Z_of_byte b < 256.
Proof.
  unfold Z_of_byte. pose proof (Byte.to_N_bounded b) as Hb. lia.
Qed.

Lemma byte_of_Z_of_byte (b : byte) : byte_of_Z (Z_of_byte b) = b.
Proof.
  unfold byte_of_Z, Z_of_byte. rewrite N2Z.id, Byte.of_to_N. reflexivity.
Qed.

Lemma Z_of_byte_of_Z (z : Z) : 0 <= z < 256 -> Z_of_byte (byte_of_Z z) = z.
Proof.
  intros Hz. unfold byte_of_Z, Z_of_byte.
  destruct (Byte.of_N (Z.to_N z)) as [b|] eqn:Hb.
  - apply Byte.to_of_N in Hb. rewrite Hb. lia.
  - apply Byte.of_N_None_iff in Hb. lia.
Qed.

Lemma lxor_byte_range (a b : Z) :
  0 <= a < 256 -> 0 <= b < 256 -> 0 <= Z.lxor a b < 256.
Proof.
  intros Ha Hb. split.
  - apply Z.lxor_nonneg. lia.
  - destruct (Z.eq_dec (Z.lxor a b) 0) as [->|Hne]; [lia|].
    assert (0 < Z.lxor a b) by (pose proof (proj2 (Z.lxor_nonneg a b)); lia).
    change 256 with (2 ^ 8). apply Z.log2_lt_pow2; [lia|].
    pose proof (Z.log2_lxor a b ltac:(lia) ltac:(lia)) as Hl.
    assert (Z.log2 a < 8).
    { destruct (Z.eq_dec a 0) as [->|]; [cbn; lia|].
      apply Z.log2_lt_pow2; [lia|]. change (2 ^ 8) with 256. lia. }
    assert (Z.log2 b < 8).
    { destruct (Z.eq_dec b 0) as [->|]; [cbn; lia|].
      apply Z.log2_lt_pow2; [lia|]. change (2 ^ 8) with 256. lia. }
    lia.
Qed.

Lemma byte_xor_involutive (a k : byte) : byte_xor (byte_xor a k) k = a.
Proof.
  unfold byte_xor.
  rewrite Z_of_byte_of_Z
    by (apply lxor_byte_range; apply Z_of_byte_range).
  rewrite Z.lxor_assoc, Z.lxor_nilpotent, Z.lxor_0_r.
  apply byte_of_Z_of_byte.
Qed.

Lemma be_bytes_length (size : nat) (u : Z) : length (be_bytes size u) = size.
Proof.
  revert u. induction size as [|k IH]; intros u; cbn [be_bytes]; [reflexivity|].
  rewrite length_app, IH. cbn. lia.
Qed.

Lemma be_value_snoc (bs : bytes) (b : byte) :
  be_value (bs ++ [b]) = be_value bs * 256 + Z_of_byte b.
Proof. unfold be_value. rewrite fold_left_app. reflexivity. Qed.

Lemma be_value_be_bytes (size : nat) (u : Z) :
  0 <= u < 2 ^ (8 * Z.of_nat size) -> be_value (be_bytes size u) = u.
Proof.
  revert u. induction size as [|k IH]; intros u Hu.
  - cbn in *. lia.
  - cbn [be_bytes]. rewrite be_value_snoc.
    replace (8 * Z.of_nat (S k)) with (8 * Z.of_nat k + 8) in Hu by lia.
    rewrite Z.pow_add_r in Hu by lia. change (2 ^ 8) with 256 in Hu.
    rewrite IH.
    + rewrite Z_of_byte_of_Z by (apply Z.mod_pos_bound; lia).
      pose proof (Z.div_mod u 256 ltac:(lia)). lia.
    + split; [apply Z.div_pos; lia|].
      apply Z.div_lt_upper_bound; lia.
Qed.

Lemma int_from_to_bytes (size : nat) (n : Z) (pt : bytes) :
  int_to_bytes size n = Some pt -> int_from_bytes pt = n.
Proof.
  unfold int_to_bytes, int_from_bytes.
  set (m := 2 ^ (8 * Z.of_nat size)).
  assert (Hm : 0 < m) by (apply Z.pow_pos_nonneg; lia).
  destruct (_ && _) eqn:Hr; [|discriminate].
  intros [= <-]. rewrite be_bytes_length. fold m.
  apply andb_prop in Hr as [H1 H2].
  apply Z.leb_le in H1. apply Z.ltb_lt in H2.
  rewrite be_value_be_bytes by (apply Z.mod_pos_bound; lia).
  destruct (Z_lt_le_dec n 0) as [Hneg|Hpos].
  - replace (n mod m) with (n + m)
      by (apply Z.mod_unique with (q := -1); lia).
    destruct (m <=? 2 * (n + m)) eqn:Hc; [lia|].
    apply Z.leb_gt in Hc. lia.
  - rewrite Z.mod_small by lia.
    destruct (m <=? 2 * n) eqn:Hc; [|reflexivity].
    apply Z.leb_le in Hc. lia.
Qed.

Lemma int_to_bytes_representable (size : nat) (n : Z) :
  (0 < size)%nat -> representable size n -> is_Some (int_to_bytes size n).
Proof.
  intros Hs [H1 H2]. unfold int_to_bytes.
  assert (Hp : 2 ^ (8 * Z.of_nat size) = 2 * 2 ^ (8 * Z.of_nat size - 1)).
  { rewrite <- Z.pow_succ_r by lia. f_equal. lia. }
  rewrite Hp.
  destruct (_ && _) eqn:Hr; [eauto|].
  apply andb_false_iff in Hr as [Hr|Hr];
    [apply Z.leb_gt in Hr | apply Z.ltb_ge in Hr]; lia.
Qed.

(** ** The turnover counter of R1 *)

Section R1Props.
Context `{CryptoI} {Receipt : Type} `{ReceiptI Receipt}.

Lemma aes256ctr_from_involutive (j : nat) (iv key data : bytes) :
  aes256ctr_from j iv key (aes256ctr_from j iv key data) = data.
Proof.
  revert j. induction data as [|b rest IH]; intros j; cbn; [reflexivity|].
  rewrite byte_xor_involutive, IH. reflexivity.
Qed.

Lemma aes256ctr_involutive (iv key data : bytes) :
  aes256ctr iv key (aes256ctr iv key data) = data.
Proof. apply aes256ctr_from_involutive. Qed.

(** C5. For a key R1 accepts (32 bytes), a size between 5 and 16, any
    receipt and any integer [c] that [size] signed big-endian bytes
    represent, [R1.encryptTurnoverCounter] returns a ciphertext, and
    [R1.decryptTurnoverCounter] of that ciphertext under the same receipt
    and key is [c]. *)
Theorem R1_turnover_roundtrip (receipt : Receipt) (key : bytes) (size : nat)
    (c : Z) :
  R1_verifyKey key = true ->
  (5 <= size <= 16)%nat ->
  representable size c ->
  exists enc,
    R1_encryptTurnoverCounter receipt c key size = Some enc
    /\ R1_decryptTurnoverCounter receipt enc key = c.
Proof.
  intros _ Hsize Hc.
  destruct (int_to_bytes_representable size c ltac:(lia) Hc) as [pt Hpt].
  exists (aes256ctr (R1_iv receipt) key pt).
  unfold R1_encryptTurnoverCounter, R1_decryptTurnoverCounter.
  rewrite Hpt. split; [reflexivity|].
  rewrite aes256ctr_involutive. eapply int_from_to_bytes, Hpt.
Qed.
End R1Props.

(** ** The result monad *)

Lemma bind_Ok {E A B} (c : result E A) (k : A -> result E B) (b : B) :
  bind c k = Ok b <-> exists a, c = Ok a /\ k a = Ok b.
Proof.
  destruct c as [a|e]; cbn; split.
  - eauto.
  - intros (a' & [= <-] & Hk). exact Hk.
  - discriminate.
  - intros (a' & Hc & _). discriminate.
Qed.

Lemma raise_if_Ok {E} (b : bool) (e : E) (u : unit) :
  raise_if b e = Ok u <-> b = false.
Proof. destruct b, u; cbn; split; congruence. Qed.

(** Takes a successful computation apart, bind by bind. *)
Ltac inv_ok H :=
  repeat match type of H with
    | bind _ _ = Ok _ =>
        let a := fresh "a" in let Ha := fresh "Ha" in
        apply bind_Ok in H as (a & Ha & H)
    | (let '(_, _) := ?p in _) = Ok _ => destruct p
    | (match ?p with (_, _) => _ end) = Ok _ => destruct p
    end.

Lemma map_exc_app {A B} (f : A -> exc B) (l1 l2 : list A) :
  map_exc f (l1 ++ l2)
  = bind (map_exc f l1) (fun b1 =>
      bind (map_exc f l2) (fun b2 => Ok (b1 ++ b2))).
Proof.
  induction l1 as [|a l1 IH]; cbn.
  - destruct (map_exc f l2); reflexivity.
  - destruct (f a) as [b|e]; cbn; [|reflexivity].
    rewrite IH. destruct (map_exc f l1) as [b1|e]; cbn; [|reflexivity].
    destruct (map_exc f l2); reflexivity.
Qed.

Lemma map_exc_length {A B} (f : A -> exc B) (l : list A) (bs : list B) :
  map_exc f l = Ok bs -> length bs = length l.
Proof.
  revert bs. induction l as [|a l IH]; cbn; intros bs Hm.
  - injection Hm as <-. reflexivity.
  - apply bind_Ok in Hm as (b & _ & Hm).
    apply bind_Ok in Hm as (bs' & Hl & [= <-]).
    cbn. f_equal. eauto.
Qed.

(** ** Merging the used IDs *)

Section Merge.
Implicit Types (seen : gset string) (rids : list string).

Lemma updateUsedReceiptIds_set_Ok seen rids s :
  updateUsedReceiptIds_set seen rids = Ok s
  <-> NoDup rids /\ (forall x, x ∈ rids -> x ∉ seen)
      /\ s = seen ∪ list_to_set rids.
Proof.
  revert seen. induction rids as [|rid rest IH]; intros seen; cbn.
  - split.
    + intros [= <-]. split; [constructor|]. split; [set_solver|set_solver].
    + intros (_ & _ & ->). f_equal. set_solver.
  - case_bool_decide as Hin.
    + split; [discriminate|]. intros (_ & Hfresh & _).
      exfalso. apply (Hfresh rid); [set_solver|exact Hin].
    + rewrite IH. split.
      * intros (Hnd & Hfresh & ->). split; [|split].
        -- constructor; [|exact Hnd]. intros Hr.
           apply (Hfresh rid Hr). set_solver.
        -- intros x Hx. apply elem_of_cons in Hx as [->|Hx]; [exact Hin|].
           specialize (Hfresh x Hx). set_solver.
        -- set_solver.
      * intros (Hnd & Hfresh & ->). apply NoDup_cons in Hnd as [Hn Hnd].
        split; [exact Hnd|]. split; [|set_solver].
        intros x Hx. specialize (Hfresh x ltac:(set_solver)).
        assert (x <> rid) by (intros ->; contradiction). set_solver.
Qed.

Lemma updateUsedReceiptIds_set_Raise seen rids e :
  updateUsedReceiptIds_set seen rids = Raise e ->
  exists rid, e = DuplicateReceiptIdException rid /\ rid ∈ rids.
Proof.
  revert seen. induction rids as [|rid rest IH]; intros seen; cbn.
  - discriminate.
  - case_bool_decide.
    + intros [= <-]. exists rid. split; [reflexivity|set_solver].
    + intros Hr. apply IH in Hr as (x & -> & Hx). exists x. set_solver.
Qed.

(** One set is merged when it shares no ID with those seen. *)
Lemma updateUsedReceiptIds_elements_Ok seen (X : gset string) s :
  updateUsedReceiptIds_set seen (elements X) = Ok s
  <-> X ## seen /\ s = seen ∪ X.
Proof.
  rewrite updateUsedReceiptIds_set_Ok, list_to_set_elements_L.
  split.
  - intros (_ & Hf & ->). split; [|reflexivity].
    intros x Hx. apply Hf. set_solver.
  - intros (Hd & ->). split; [apply NoDup_elements|]. split; [|reflexivity].
    intros x Hx. apply elem_of_elements in Hx. set_solver.
Qed.

Lemma updateUsedReceiptIds_sets_Ok seen sets s :
  updateUsedReceiptIds_sets seen sets = Ok s
  <-> disjoint_sets seen sets /\ s = seen ∪ ⋃ sets.
Proof.
  revert seen. induction sets as [|X rest IH]; intros seen; cbn.
  - split.
    + intros [= <-]. split; [exact I|set_solver].
    + intros (_ & ->). f_equal. set_solver.
  - rewrite bind_Ok. split.
    + intros (s1 & H1 & H2). apply updateUsedReceiptIds_elements_Ok in H1 as [Hd ->].
      apply IH in H2 as [Hr ->]. split; [tauto|set_solver].
    + intros ((Hd & Hr) & ->). exists (seen ∪ X). split.
      * apply updateUsedReceiptIds_elements_Ok. tauto.
      * apply IH. split; [exact Hr|set_solver].
Qed.

Lemma updateUsedReceiptIds_sets_app seen sets1 sets2 :
  updateUsedReceiptIds_sets seen (sets1 ++ sets2)
  = bind (updateUsedReceiptIds_sets seen sets1)
      (fun seen => updateUsedReceiptIds_sets seen sets2).
Proof.
  revert seen. induction sets1 as [|X rest IH]; intros seen; cbn.
  - reflexivity.
  - destruct (updateUsedReceiptIds_set seen (elements X)); cbn; [apply IH|reflexivity].
Qed.

(** The merge starts from the caller's set. *)
Lemma updateUsedReceiptIds_from_used outs used :
  updateUsedReceiptIds outs used = updateUsedReceiptIds_sets used outs.
Proof.
  unfold updateUsedReceiptIds. cbn.
  assert (Hu : updateUsedReceiptIds_set ∅ (elements used) = Ok used).
  { apply updateUsedReceiptIds_elements_Ok. set_solver. }
  rewrite Hu. reflexivity.
Qed.

End Merge.

Ltac destruct_units :=
  repeat match goal with u : unit |- _ => destruct u end.

(** Replays the successful steps recorded in the context. *)
Ltac rewrite_ok :=
  repeat match goal with
    | Hx : ?c = Ok _ |- context [?c] => rewrite Hx; cbn
    end.

(** ** Used IDs the state machine does not look at *)

Section Orchestrator.
Context `{CryptoI} `{BuiltinsI}.
Context {Receipt ReceiptVerifier Cert KeyStore ClusterState : Type}.
Context `{ReceiptI Receipt} `{VerifierI Receipt ReceiptVerifier}.
Context `{KeyStoreI Cert KeyStore ReceiptVerifier} `{StateI ClusterState}.

Implicit Types (rv : ReceiptVerifier) (key : option bytes)
  (prevStart : option string) (ls : LoopState Receipt) (used w : gset string)
  (rState : CashRegisterState).

Lemma checkAgainstPrevious_frame (ro : Receipt) used w prevObj :
  checkAgainstPrevious ro used prevObj = Ok tt ->
  receiptId ro ∉ w ->
  checkAgainstPrevious ro (used ∪ w) prevObj = Ok tt.
Proof.
  unfold checkAgainstPrevious. destruct prevObj as [p|]; [|reflexivity].
  intros Hc Hw. inv_ok Hc.
  apply raise_if_Ok in Ha, Ha0, Ha1. rewrite Ha0, Ha1.
  apply bool_decide_eq_false in Ha.
  rewrite bool_decide_eq_false_2 by set_solver. reflexivity.
Qed.

Lemma verifyGroup_receipt_used rv key prevStart ls cr ls' :
  verifyGroup_receipt rv key prevStart ls cr = Ok ls' ->
  exists rid, ls_used ls' = {[rid]} ∪ ls_used ls.
Proof.
  unfold verifyGroup_receipt. intros Hv. inv_ok Hv.
  injection Hv as <-. cbn. eauto.
Qed.

Lemma verifyGroup_receipt_frame rv key prevStart ls cr ls' w :
  verifyGroup_receipt rv key prevStart ls cr = Ok ls' ->
  ls_used ls' ## w ->
  verifyGroup_receipt rv key prevStart (with_used (ls_used ls ∪ w) ls) cr
  = Ok (with_used (ls_used ls' ∪ w) ls').
Proof.
  unfold verifyGroup_receipt. intros Hv Hw. inv_ok Hv.
  injection Hv as <-. cbn in *. destruct_units.
  match goal with
  | Hc : checkAgainstPrevious _ _ _ = Ok tt |- _ =>
      apply checkAgainstPrevious_frame with (w := w) in Hc; [|set_solver]
  end.
  rewrite_ok. unfold with_used. cbn. do 2 f_equal. set_solver.
Qed.

Lemma verifyGroup_loop_mono rv key prevStart ls group ls' :
  verifyGroup_loop rv key prevStart ls group = Ok ls' ->
  ls_used ls ⊆ ls_used ls'.
Proof.
  revert ls. induction group as [|cr rest IH]; intros ls; cbn.
  - intros [= <-]. reflexivity.
  - intros Hv. apply bind_Ok in Hv as (ls1 & Hv1 & Hv2).
    apply verifyGroup_receipt_used in Hv1 as [rid Hr].
    apply IH in Hv2. set_solver.
Qed.

Lemma verifyGroup_loop_frame rv key prevStart ls group ls' w :
  verifyGroup_loop rv key prevStart ls group = Ok ls' ->
  ls_used ls' ## w ->
  verifyGroup_loop rv key prevStart (with_used (ls_used ls ∪ w) ls) group
  = Ok (with_used (ls_used ls' ∪ w) ls').
Proof.
  revert ls. induction group as [|cr rest IH]; intros ls; cbn.
  - intros [= <-] _. reflexivity.
  - intros Hv Hw. apply bind_Ok in Hv as (ls1 & Hv1 & Hv2).
    pose proof (verifyGroup_loop_mono _ _ _ _ _ _ Hv2) as Hm.
    rewrite (verifyGroup_receipt_frame _ _ _ _ _ _ w Hv1) by set_solver.
    cbn. apply (IH _ Hv2 Hw).
Qed.

Lemma verifyGroup_mono group rv key prevStart rState used rState' used' :
  verifyGroup group rv key prevStart rState used = Ok (rState', used') ->
  used ⊆ used'.
Proof.
  unfold verifyGroup. intros Hv. inv_ok Hv. injection Hv as <- <-.
  apply verifyGroup_loop_mono in Ha0. exact Ha0.
Qed.

(** IDs outside those a group adds do not change what [verifyGroup]
    does. *)
Lemma verifyGroup_frame group rv key prevStart rState used rState' used' w :
  verifyGroup group rv key prevStart rState used = Ok (rState', used') ->
  used' ## w ->
  verifyGroup group rv key prevStart rState (used ∪ w)
  = Ok (rState', used' ∪ w).
Proof.
  unfold verifyGroup. intros Hv Hw. inv_ok Hv. injection Hv as <- <-.
  rewrite Ha. cbn.
  apply verifyGroup_loop_frame with (w := w) in Ha0; [|exact Hw].
  unfold with_used in Ha0. cbn in Ha0. rewrite Ha0. reflexivity.
Qed.

Lemma verifyGroupsWithVerifiers_mono groups key prevStart rState used
    rState' used' :
  verifyGroupsWithVerifiers groups key prevStart rState used
  = Ok (rState', used') ->
  used ⊆ used'.
Proof.
  revert rState used. induction groups as [|[recs rv] rest IH];
    intros rState used; cbn.
  - intros [= <- <-]. reflexivity.
  - intros Hv. apply bind_Ok in Hv as ([s1 u1] & Hv1 & Hv2).
    apply verifyGroup_mono in Hv1. apply IH in Hv2. set_solver.
Qed.

Lemma verifyGroupsWithVerifiers_frame groups key prevStart rState used
    rState' used' w :
  verifyGroupsWithVerifiers groups key prevStart rState used
  = Ok (rState', used') ->
  used' ## w ->
  verifyGroupsWithVerifiers groups key prevStart rState (used ∪ w)
  = Ok (rState', used' ∪ w).
Proof.
  revert rState used. induction groups as [|[recs rv] rest IH];
    intros rState used; cbn.
  - intros [= <- <-] _. reflexivity.
  - intros Hv Hw. apply bind_Ok in Hv as ([s1 u1] & Hv1 & Hv2).
    pose proof (verifyGroupsWithVerifiers_mono _ _ _ _ _ _ _ Hv2) as Hm.
    rewrite (verifyGroup_frame _ _ _ _ _ _ _ _ w Hv1) by set_solver.
    cbn. apply (IH _ _ Hv2 Hw).
Qed.

Lemma verifyGroupsWithVerifiers_app groups1 groups2 key prevStart rState used :
  verifyGroupsWithVerifiers (groups1 ++ groups2) key prevStart rState used
  = bind (verifyGroupsWithVerifiers groups1 key prevStart rState used)
      (fun '(rState, used) =>
         verifyGroupsWithVerifiers groups2 key prevStart rState used).
Proof.
  revert rState used. induction groups1 as [|[recs rv] rest IH];
    intros rState used; cbn.
  - reflexivity.
  - destruct (verifyGroup recs rv key prevStart rState used) as [[s1 u1]|e];
      cbn; [apply IH|reflexivity].
Qed.

(** Chunk runs whose used IDs merge give the run over all groups in
    sequence. *)
Lemma runChunks_sequential key prevStart rState pkgs results used used' :
  runChunks key prevStart rState pkgs = Ok results ->
  updateUsedReceiptIds_sets used (map snd results) = Ok used' ->
  verifyGroupsWithVerifiers (concat pkgs) key prevStart rState used
  = Ok (lastState rState results, used').
Proof.
  revert rState used results.
  induction pkgs as [|pkg rest IH]; intros rState used results; cbn.
  - intros [= <-]. cbn. intros [= <-]. reflexivity.
  - intros Hr Hm. apply bind_Ok in Hr as ([s1 u1] & Hv1 & Hr).
    apply bind_Ok in Hr as (rs & Hr & [= <-]).
    cbn in Hm. apply bind_Ok in Hm as (used1 & Hm1 & Hm).
    apply updateUsedReceiptIds_elements_Ok in Hm1 as [Hd ->].
    rewrite verifyGroupsWithVerifiers_app.
    apply verifyGroupsWithVerifiers_frame with (w := used) in Hv1; [|exact Hd].
    replace (∅ ∪ used) with used in Hv1 by set_solver.
    rewrite Hv1. cbn. replace (u1 ∪ used) with (used ∪ u1) by set_solver.
    rewrite (IH _ _ _ Hr Hm). f_equal. f_equal.
    unfold lastState. cbn. destruct rs as [|r rs]; [reflexivity|].
    cbn. rewrite last_cons. destruct (last (map fst rs)); reflexivity.
Qed.

End Orchestrator.

(** ** The orchestrator *)

Lemma ok_of_Some {E A} (c : result E A) (a : A) :
  ok_of c = Some a <-> c = Ok a.
Proof. destruct c; cbn; split; congruence. Qed.

Lemma getChunksForProcs_from_concat {A} (ret allChunks : list A) (nprocs : nat) :
  concat (getChunksForProcs_from ret allChunks nprocs) = ret ++ allChunks.
Proof.
  revert ret. induction allChunks as [|chunk rest IH]; intros ret; cbn.
  - destruct ret; cbn; [reflexivity|]. rewrite !app_nil_r. reflexivity.
  - destruct (nprocs <=? length (ret ++ [chunk]))%nat; cbn; rewrite IH.
    + rewrite <- app_assoc. reflexivity.
    + rewrite <- app_assoc. reflexivity.
Qed.

Lemma getChunksForProcs_from_nonempty {A} (ret allChunks : list A)
    (nprocs : nat) :
  Forall (fun batch => batch <> []) (getChunksForProcs_from ret allChunks nprocs).
Proof.
  revert ret. induction allChunks as [|chunk rest IH]; intros ret; cbn.
  - destruct ret; cbn; constructor; [discriminate|constructor].
  - destruct (nprocs <=? length (ret ++ [chunk]))%nat.
    + constructor; [|apply IH]. destruct ret; discriminate.
    + apply IH.
Qed.

Lemma getChunksForProcs_from_bounded {A} (ret allChunks : list A)
    (nprocs : nat) :
  (length ret < Nat.max nprocs 1)%nat ->
  Forall (fun batch => (length batch <= Nat.max nprocs 1)%nat)
    (getChunksForProcs_from ret allChunks nprocs).
Proof.
  revert ret. induction allChunks as [|chunk rest IH]; intros ret Hret; cbn.
  - destruct ret; cbn; constructor; [cbn in *; lia|constructor].
  - assert (Hlen : length (ret ++ [chunk]) = S (length ret))
      by (rewrite length_app; cbn; lia).
    destruct (Nat.leb_spec nprocs (length (ret ++ [chunk]))) as [Hle|Hgt].
    + constructor; [lia|]. apply IH. cbn. lia.
    + apply IH. lia.
Qed.

(** [getChunksForProcs] cuts the chunks into batches: in order, none
    empty, each of at most [nprocs] chunks (of one chunk when [nprocs] is
    0). *)
Theorem getChunksForProcs_partition {A} (allChunks : list A) (nprocs : nat) :
  concat (getChunksForProcs allChunks nprocs) = allChunks
  /\ Forall (fun batch => batch <> [])
       (getChunksForProcs allChunks nprocs)
  /\ Forall (fun batch => (length batch <= Nat.max nprocs 1)%nat)
       (getChunksForProcs allChunks nprocs).
Proof.
  unfold getChunksForProcs. split; [|split].
  - apply getChunksForProcs_from_concat.
  - apply getChunksForProcs_from_nonempty.
  - apply getChunksForProcs_from_bounded. cbn. lia.
Qed.

Section Loop.
Context `{CryptoI} `{BuiltinsI}.
Context {Receipt ReceiptVerifier Cert KeyStore ClusterState : Type}.
Context `{ReceiptI Receipt} `{VerifierI Receipt ReceiptVerifier}.
Context `{KeyStoreI Cert KeyStore ReceiptVerifier} `{StateI ClusterState}.

Implicit Types (rv : ReceiptVerifier) (key : option bytes)
  (prevStart : option string) (used : gset string)
  (rState : CashRegisterState) (keyStore : KeyStore)
  (pkgs : list (list (GroupWithVerifier ReceiptVerifier)))
  (results : list (CashRegisterState * gset string)).

Lemma ok_of_collectResults
    (res : exc (list (CashRegisterState * gset string))) used :
  ok_of (collectResults res used)
  = results ← ok_of res;
    rState ← last (map fst results);
    used ← ok_of (updateUsedReceiptIds_sets used (map snd results));
    Some (rState, used).
Proof.
  unfold collectResults. destruct res as [results|e]; [|reflexivity].
  cbn -[updateUsedReceiptIds]. destruct (last (map fst results)); [|reflexivity].
  cbn -[updateUsedReceiptIds]. rewrite updateUsedReceiptIds_from_used.
  destruct (updateUsedReceiptIds_sets used (map snd results)); reflexivity.
Qed.

#[local] Arguments collectResults : simpl never.

Lemma prepareVerificationTuples_cons pkg pkgs key prevStart rState :
  prepareVerificationTuples (pkg :: pkgs) key prevStart rState
  = (pkg, key, prevStart, rState, ∅)
      :: prepareVerificationTuples pkgs key prevStart
           (projectPackage key rState pkg).
Proof.
  unfold prepareVerificationTuples. cbn [projectPackages].
  destruct pkgs as [|pkg' rest]; cbn; reflexivity.
Qed.

Lemma runChunks_length key prevStart rState pkgs results :
  runChunks key prevStart rState pkgs = Ok results ->
  length results = length pkgs.
Proof.
  revert rState results. induction pkgs as [|pkg rest IH];
    intros rState results; cbn.
  - intros [= <-]. reflexivity.
  - intros Hr. apply bind_Ok in Hr as ([s1 u1] & _ & Hr).
    apply bind_Ok in Hr as (rs & Hr & [= <-]). cbn. f_equal. eauto.
Qed.

Lemma lastState_cons rState r results :
  lastState rState (r :: results) = lastState (fst r) results.
Proof.
  unfold lastState. cbn. destruct results as [|r' rs]; [reflexivity|].
  cbn. rewrite last_cons. destruct (last (map fst rs)); reflexivity.
Qed.

Lemma lastState_app rState results1 results2 :
  lastState rState (results1 ++ results2)
  = lastState (lastState rState results1) results2.
Proof.
  revert rState. induction results1 as [|r rs IH]; intros rState.
  - reflexivity.
  - cbn [app]. rewrite !lastState_cons. apply IH.
Qed.

Lemma last_lastState rState results :
  results <> [] -> last (map fst results) = Some (lastState rState results).
Proof.
  intros Hne. unfold lastState.
  destruct (last (map fst results)) eqn:Hl; [reflexivity|].
  apply last_None in Hl. destruct results; [contradiction|discriminate].
Qed.

Lemma runChunks_app key prevStart rState pkgs1 pkgs2 :
  runChunks key prevStart rState (pkgs1 ++ pkgs2)
  = bind (runChunks key prevStart rState pkgs1) (fun results1 =>
      bind (runChunks key prevStart (lastState rState results1) pkgs2)
        (fun results2 => Ok (results1 ++ results2))).
Proof.
  revert rState. induction pkgs1 as [|pkg rest IH]; intros rState; cbn.
  - destruct (runChunks key prevStart rState pkgs2); reflexivity.
  - destruct (verifyGroupsWithVerifiers pkg key prevStart rState ∅)
      as [[s1 u1]|e]; cbn; [|reflexivity].
    rewrite IH. destruct (runChunks key prevStart s1 rest) as [rs1|e]; cbn;
      [|reflexivity].
    rewrite lastState_cons. cbn.
    destruct (runChunks key prevStart (lastState s1 rs1) pkgs2); reflexivity.
Qed.


End Loop.

Lemma String_eqb_false (a b : string) : String.eqb a b = false <-> a <> b.
Proof. apply String.eqb_neq. Qed.

(** ** The chain value and the certificate walk *)

Section Certificates.
Context `{CryptoI} `{BuiltinsI}.
Context {Receipt ReceiptVerifier Cert KeyStore ClusterState : Type}.
Context `{ReceiptI Receipt} `{VerifierI Receipt ReceiptVerifier}.
Context `{KeyStoreI Cert KeyStore ReceiptVerifier} `{StateI ClusterState}.

Implicit Types (rv : ReceiptVerifier) (key : option bytes)
  (prevStart prev : option string) (ls : LoopState Receipt)
  (used : gset string) (st : CashRegisterState) (ro : Receipt)
  (algorithm : AlgorithmI Receipt) (keyStore : KeyStore).

(** C7. [R1.chain] returns the first [chainBytes() = 8] bytes of the
    SHA-256 of the UTF-8 bytes of the previous JWS when one is present,
    and of the receipt's register ID when it is absent. Present is
    Python's truthiness: [None] and the empty string, which is no JWS,
    both count as absent. *)
Theorem R1_chain_sha256_prefix (receipt : Receipt)
    (previousJwsString : option string) :
  chainBytes R1 = 8%nat
  /\ chain R1 receipt previousJwsString
     = take (chainBytes R1)
         (sha256 (utf8 (if truthy previousJwsString
                        then default "" previousJwsString
                        else registerId receipt)))
  /\ (forall p, p <> "" ->
        chain R1 receipt (Some p) = take 8 (sha256 (utf8 p)))
  /\ chain R1 receipt None = take 8 (sha256 (utf8 (registerId receipt)))
  /\ chain R1 receipt (Some "") = take 8 (sha256 (utf8 (registerId receipt)))
  /\ (length (chain R1 receipt previousJwsString) <= 8)%nat.
Proof.
  cbn [chainBytes chain R1]. unfold R1_chainBytes, R1_chain.
  repeat split.
  - destruct (truthy previousJwsString); reflexivity.
  - intros p Hp. cbn. apply String_eqb_false in Hp. rewrite Hp. reflexivity.
  - rewrite length_take. lia.
Qed.

(** C9. [verifyCert] walks up the chain. At each certificate [prev],
    the leaf first: when its serial is in the key store the walk ends,
    normally if the stored fingerprint is that of [prev] and with
    [CertificateSerialCollisionException] if not; when it is not in the
    store and the chain goes on with [c], [CertificateChainBrokenException]
    is raised unless [c] signed [prev], and the walk moves to [c]; when it
    is not in the store and the chain is exhausted,
    [UntrustedCertificateException] is raised for the leaf. *)
Theorem verifyCert_walks_the_chain (cert prev : Cert) (chain : list Cert)
    keyStore :
  let keyId c := numSerialToKeyId (serial c) in
  verifyCert cert chain keyStore = verifyCert_from cert cert chain keyStore
  /\ (forall ksCert,
        getCert keyStore (keyId prev) = Some ksCert ->
        certFingerprint ksCert = certFingerprint prev ->
        verifyCert_from cert prev chain keyStore = Ok tt)
  /\ (forall ksCert,
        getCert keyStore (keyId prev) = Some ksCert ->
        certFingerprint ksCert <> certFingerprint prev ->
        verifyCert_from cert prev chain keyStore
        = Raise (CertificateSerialCollisionException (keyId prev)
                   (certFingerprint prev) (certFingerprint ksCert)))
  /\ (forall c rest,
        chain = c :: rest ->
        getCert keyStore (keyId prev) = None ->
        utils_verifyCert prev c = false ->
        verifyCert_from cert prev chain keyStore
        = Raise (CertificateChainBrokenException (keyId prev) (keyId c)))
  /\ (forall c rest,
        chain = c :: rest ->
        getCert keyStore (keyId prev) = None ->
        utils_verifyCert prev c = true ->
        verifyCert_from cert prev chain keyStore
        = verifyCert_from cert c rest keyStore)
  /\ (chain = [] ->
      getCert keyStore (keyId prev) = None ->
      verifyCert_from cert prev chain keyStore
      = Raise (UntrustedCertificateException (keyId cert))).
Proof.
  cbv zeta. split; [reflexivity|]. repeat split.
  - intros ksCert Hks Hfp.
    destruct chain; cbn; unfold lookupInKeyStore; rewrite Hks, Hfp,
      String.eqb_refl; reflexivity.
  - intros ksCert Hks Hfp. apply String_eqb_false in Hfp.
    destruct chain; cbn; unfold lookupInKeyStore; rewrite Hks, Hfp;
      reflexivity.
  - intros c rest -> Hks Hv. cbn. unfold lookupInKeyStore.
    rewrite Hks, Hv. reflexivity.
  - intros c rest -> Hks Hv. cbn. unfold lookupInKeyStore.
    rewrite Hks, Hv. reflexivity.
  - intros -> Hks. cbn. unfold lookupInKeyStore. rewrite Hks. reflexivity.
Qed.

(** [verifyCert] accepts exactly when some certificate of the path
    leaf, chain is anchored in the key store, every certificate below
    it is unknown to the store, and each of those was signed by the
    next one. *)
Theorem verifyCert_from_accepts (cert prev : Cert) (chain : list Cert) keyStore :
  verifyCert_from cert prev chain keyStore = Ok tt
  <-> exists below anchor above,
        prev :: chain = below ++ anchor :: above
        /\ anchored anchor keyStore
        /\ Forall (fun c => unknown c keyStore) below
        /\ (forall i c signer,
              (below ++ [anchor]) !! i = Some c ->
              (below ++ [anchor]) !! S i = Some signer ->
              utils_verifyCert c signer = true).
Proof.
  revert prev. induction chain as [|c rest IH]; intros prev.
  - cbn. unfold lookupInKeyStore.
    destruct (getCert keyStore (numSerialToKeyId (serial prev)))
      as [ksCert|] eqn:Hks.
    + destruct (String.eqb (certFingerprint ksCert) (certFingerprint prev))
        eqn:Hfp; cbn.
      * apply String.eqb_eq in Hfp. split; [intros _|reflexivity].
        exists [], prev, []. repeat split; [exists ksCert; tauto|constructor|].
        intros [|i] a b Ha Hb; cbn in *; discriminate.
      * apply String_eqb_false in Hfp. split; [discriminate|].
        intros (below & anchor & above & Hpath & (k & Hk & Hfp') & Hb & _).
        destruct below as [|b0 below].
        -- injection Hpath as <- _. congruence.
        -- destruct below; discriminate.
    + split; [discriminate|].
      intros (below & anchor & above & Hpath & (k & Hk & Hfp') & Hb & _).
      destruct below as [|b0 below].
      * injection Hpath as <- _. congruence.
      * destruct below; discriminate.
  - cbn [verifyCert_from]. unfold lookupInKeyStore.
    destruct (getCert keyStore (numSerialToKeyId (serial prev)))
      as [ksCert|] eqn:Hks.
    + destruct (String.eqb (certFingerprint ksCert) (certFingerprint prev))
        eqn:Hfp; cbn.
      * apply String.eqb_eq in Hfp. split; [intros _|reflexivity].
        exists [], prev, (c :: rest).
        repeat split; [exists ksCert; tauto|constructor|].
        intros [|i] a b Ha Hb; cbn in *; discriminate.
      * apply String_eqb_false in Hfp. split; [discriminate|].
        intros (below & anchor & above & Hpath & (k & Hk & Hfp') & Hb & _).
        destruct below as [|b0 below].
        -- injection Hpath as <- _. congruence.
        -- injection Hpath as <- _. apply Forall_cons in Hb as [Hu _].
           unfold unknown in Hu. congruence.
    + destruct (utils_verifyCert prev c) eqn:Hv; cbn.
      * rewrite IH. split.
        -- intros (below & anchor & above & Hpath & Ha & Hb & Hs).
           exists (prev :: below), anchor, above.
           repeat split; [cbn; congruence|exact Ha|constructor; assumption|].
           intros [|i] a b Hi Hj.
           ++ cbn in Hi. injection Hi as <-.
              assert (b = c) as ->; [|exact Hv].
              destruct below; cbn in *; congruence.
           ++ cbn in Hi, Hj. eapply Hs; eassumption.
        -- intros (below & anchor & above & Hpath & Ha & Hb & Hs).
           destruct below as [|b0 below].
           ++ injection Hpath as <- _. destruct Ha as (k & Hk & _).
              congruence.
           ++ injection Hpath as <- Hpath.
              exists below, anchor, above.
              apply Forall_cons in Hb as [_ Hb].
              repeat split; [exact Hpath|exact Ha|exact Hb|].
              intros i a b Hi Hj. apply (Hs (S i)); assumption.
      * split; [discriminate|].
        intros (below & anchor & above & Hpath & Ha & Hb & Hs).
        destruct below as [|b0 below].
        -- injection Hpath as <- _. destruct Ha as (k & Hk & _). congruence.
        -- injection Hpath as <- Hpath.
           assert (Hc : (prev :: below ++ [anchor]) !! 1%nat = Some c).
           { destruct below; cbn in *; congruence. }
           specialize (Hs 0%nat prev c eq_refl Hc). congruence.
Qed.

End Certificates.

(** ** The chain check and the turnover counter *)

Section ChainAndTurnover.
Context `{CryptoI} `{BuiltinsI}.
Context {Receipt ReceiptVerifier Cert KeyStore ClusterState : Type}.
Context `{ReceiptI Receipt} `{VerifierI Receipt ReceiptVerifier}.
Context `{KeyStoreI Cert KeyStore ReceiptVerifier} `{StateI ClusterState}.

Implicit Types (rv : ReceiptVerifier) (key : option bytes)
  (prevStart prev : option string) (ls : LoopState Receipt)
  (used : gset string) (st : CashRegisterState) (ro : Receipt)
  (algorithm : AlgorithmI Receipt) (keyStore : KeyStore).

(** The rest of the iteration for such a receipt. *)
Lemma verifyGroup_receipt_from_chain rv key prevStart ls cr ro algorithm st
    prev :
  reachesChainCheck rv prevStart ls cr ro algorithm st prev ->
  verifyGroup_receipt rv key prevStart ls cr
  = (check checkChain (expandDEPReceipt cr) ro prev algorithm prevStart st in
     let* st := checkTurnoverCounter ro key algorithm st in
     Ok {| ls_state := st;
           ls_used := {[receiptId ro]} ∪ ls_used ls;
           ls_prev := Some (expandDEPReceipt cr);
           ls_prevObj := Some ro |}).
Proof.
  intros (st1 & verified & prevObj & Hs & Hr & Hi & Ha).
  unfold verifyGroup_receipt. rewrite Hs. cbn. rewrite Hr. cbn.
  rewrite Hi. cbn. rewrite Ha. reflexivity.
Qed.

(** The checks before the chain check leave the turnover counter as it
    was. *)
Lemma reachesChainCheck_counter rv prevStart ls cr ro algorithm st prev :
  reachesChainCheck rv prevStart ls cr ro algorithm st prev ->
  lastTurnoverCounter st = lastTurnoverCounter (ls_state ls).
Proof.
  intros (st1 & verified & prevObj & Hs & _ & Hi & _).
  assert (Hsame : lastTurnoverCounter st1 = lastTurnoverCounter (ls_state ls)).
  { unfold verifySignature in Hs.
    destruct (verifyJWS rv (expandDEPReceipt cr)) as [[ro' alg']|e].
    - destruct (_ && _).
      + destruct (needRestoreReceipt (ls_state ls)); [discriminate|].
        destruct (from_option isSignedBroken false (ls_prevObj ls));
          injection Hs as <- _; reflexivity.
      + injection Hs as <- _; reflexivity.
    - destruct e; try discriminate; injection Hs as <- _; reflexivity. }
  rewrite <- Hsame. unfold checkInitialReceipt in Hi.
  destruct (ls_prevObj ls); [injection Hi as <- _ _; reflexivity|].
  inv_ok Hi. injection Hi as <- _ _. reflexivity.
Qed.

(** C6. For a receipt that reaches the chain check, the check compares
    the base64 encoding of [algorithm.chain(ro, prev)] with the receipt's
    [previousChain]. On a mismatch the iteration raises
    [InvalidChainingOnClusterInitialReceiptException] when the receipt is
    the register's start receipt and a cluster previous-start was given,
    [InvalidChainingOnInitialReceiptException] when it is the start
    receipt and none was given, and [ChainingException] for every other
    receipt. On a match the chain check raises nothing: the iteration
    goes on with the turnover counter. *)
Theorem chain_check_outcomes rv key prevStart ls (cr : string) ro algorithm
    st prev :
  reachesChainCheck rv prevStart ls cr ro algorithm st prev ->
  let r := expandDEPReceipt cr in
  let expected := b64encode (chain algorithm ro prev) in
  (expected <> previousChain ro ->
   startReceiptJWS st = Some r -> truthy prevStart = true ->
   verifyGroup_receipt rv key prevStart ls cr
   = Raise (InvalidChainingOnClusterInitialReceiptException (receiptId ro)))
  /\ (expected <> previousChain ro ->
      startReceiptJWS st = Some r -> truthy prevStart = false ->
      verifyGroup_receipt rv key prevStart ls cr
      = Raise (InvalidChainingOnInitialReceiptException (receiptId ro)))
  /\ (expected <> previousChain ro ->
      startReceiptJWS st <> Some r ->
      verifyGroup_receipt rv key prevStart ls cr
      = Raise (ChainingException (receiptId ro) prev))
  /\ (expected = previousChain ro ->
      checkChain r ro prev algorithm prevStart st = Ok tt
      /\ verifyGroup_receipt rv key prevStart ls cr
         = (let* st := checkTurnoverCounter ro key algorithm st in
            Ok {| ls_state := st;
                  ls_used := {[receiptId ro]} ∪ ls_used ls;
                  ls_prev := Some r;
                  ls_prevObj := Some ro |})).
Proof.
  intros Hreach r expected.
  rewrite (verifyGroup_receipt_from_chain _ key _ _ _ _ _ _ _ Hreach).
  fold r. unfold checkChain, verifyChain. fold expected.
  split; [|split; [|split]].
  - intros Hne Hstart Hc. apply String_eqb_false in Hne. rewrite Hne. cbn.
    rewrite bool_decide_eq_true_2 by exact Hstart. rewrite Hc. reflexivity.
  - intros Hne Hstart Hc. apply String_eqb_false in Hne. rewrite Hne. cbn.
    rewrite bool_decide_eq_true_2 by exact Hstart. rewrite Hc. reflexivity.
  - intros Hne Hstart. apply String_eqb_false in Hne. rewrite Hne. cbn.
    rewrite bool_decide_eq_false_2 by exact Hstart. reflexivity.
  - intros ->. rewrite String.eqb_refl. split; reflexivity.
Qed.

(** What [checkTurnoverCounter] returns: the state it was given, with the
    turnover counter it computed. *)
Lemma checkTurnoverCounter_fields ro key algorithm st st' :
  checkTurnoverCounter ro key algorithm st = Ok st' ->
  startReceiptJWS st' = startReceiptJWS st
  /\ lastReceiptJWS st' = lastReceiptJWS st
  /\ needRestoreReceipt st' = needRestoreReceipt st.
Proof.
  unfold checkTurnoverCounter.
  destruct (negb (isDummy ro)); [|intros [= <-]; auto].
  destruct (truthy_bytes key); [|intros [= <-]; auto].
  intros Hok. apply bind_Ok in Hok as (cents & _ & Hok).
  apply bind_Ok in Hok as (u & _ & [= <-]). auto.
Qed.

Lemma int_of_round_finite (x : float) :
  is_finite x = true -> int_of_round x = Ok (int_round x).
Proof.
  unfold is_finite, int_of_round. destruct (is_nan x); [discriminate|].
  destruct (is_infinity x); [discriminate|]. reflexivity.
Qed.

(** C4. For a receipt that passed the chain check, with [cents] the float
    [(sumA+sumB+sumC+sumD+sumE) * 100] and
    [newC = lastTurnoverCounter + int(round(cents))] computed from the
    counter the register state held before the receipt. With a key and a
    receipt that is not a dummy: when [cents] is a number, the iteration
    raises [InvalidTurnoverCounterException] exactly when the receipt is
    no reversal and its decrypted turnover counter differs from [newC],
    and otherwise ends in a register state whose [lastTurnoverCounter] is
    [newC], for a reversal too; when [cents] is a NaN or an infinity,
    [int(round(cents))] raises [ValueError] or [OverflowError] and so does
    the iteration. For a dummy receipt or without a key the iteration
    ends with the counter unchanged. The other fields of the register
    state are those the checks before left. *)
Theorem turnover_counter_reconciliation rv key prevStart ls (cr : string) ro
    algorithm st prev :
  reachesChainCheck rv prevStart ls cr ro algorithm st prev ->
  checkChain (expandDEPReceipt cr) ro prev algorithm prevStart st = Ok tt ->
  let cents :=
    ((sumA ro + sumB ro + sumC ro + sumD ro + sumE ro) * 100)%float in
  let newC := lastTurnoverCounter (ls_state ls) + int_round cents in
  let decrypted := Receipt_decryptTurnoverCounter ro (default [] key) algorithm in
  let run := verifyGroup_receipt rv key prevStart ls cr in
  let ends_with (counter : Z) :=
    exists st',
      run = Ok {| ls_state := st';
                  ls_used := {[receiptId ro]} ∪ ls_used ls;
                  ls_prev := Some (expandDEPReceipt cr);
                  ls_prevObj := Some ro |}
      /\ lastTurnoverCounter st' = counter
      /\ startReceiptJWS st' = startReceiptJWS st
      /\ lastReceiptJWS st' = lastReceiptJWS st
      /\ needRestoreReceipt st' = needRestoreReceipt st in
  (truthy_bytes key = true -> isDummy ro = false ->
   (is_finite cents = true ->
    (run = Raise (InvalidTurnoverCounterException (receiptId ro))
     <-> isReversal ro = false /\ decrypted <> newC)
    /\ (isReversal ro = true \/ decrypted = newC -> ends_with newC))
   /\ (is_nan cents = true -> run = Raise PyValueError)
   /\ (is_nan cents = false -> is_infinity cents = true ->
       run = Raise PyOverflowError))
  /\ (isDummy ro = true \/ truthy_bytes key = false ->
      ends_with (lastTurnoverCounter (ls_state ls))).
Proof.
  intros Hreach Hchain cents newC decrypted run ends_with.
  subst ends_with run. cbv beta.
  rewrite (verifyGroup_receipt_from_chain _ key _ _ _ _ _ _ _ Hreach).
  rewrite Hchain. cbn [bind].
  pose proof (reachesChainCheck_counter _ _ _ _ _ _ _ _ Hreach) as Hcounter.
  split.
  - intros Hkey Hdummy. unfold checkTurnoverCounter.
    rewrite Hkey, Hdummy, Hcounter. cbn [negb]. fold cents.
    split; [|split].
    + intros Hfin. rewrite (int_of_round_finite _ Hfin). cbn [bind].
      fold newC decrypted.
      destruct (isReversal ro); cbn [negb].
      * cbn. split; [split; [discriminate|intros [? _]; discriminate]|].
        intros _. eexists. split; [reflexivity|]. cbn. auto.
      * destruct (Z.eqb_spec decrypted newC) as [He|Hne]; cbn.
        -- split; [split; [discriminate|intros [_ ?]; contradiction]|].
           intros _. eexists. split; [reflexivity|]. cbn. auto.
        -- split; [split; [tauto|reflexivity]|].
           intros [?|?]; [discriminate|contradiction].
    + intros Hnan. unfold int_of_round. rewrite Hnan. reflexivity.
    + intros Hnan Hinf. unfold int_of_round. rewrite Hnan, Hinf. reflexivity.
  - intros Hcase.
    assert (Hsame : checkTurnoverCounter ro key algorithm st = Ok st).
    { unfold checkTurnoverCounter.
      destruct Hcase as [-> | ->]; cbn [negb]; [reflexivity|].
      destruct (negb (isDummy ro)); reflexivity. }
    rewrite Hsame. cbn [bind]. exists st. auto.
Qed.

End ChainAndTurnover.

(** ** The first receipt and the restore receipt *)

Section InitialAndRestore.
Context `{CryptoI} `{BuiltinsI}.
Context {Receipt ReceiptVerifier Cert KeyStore ClusterState : Type}.
Context `{ReceiptI Receipt} `{VerifierI Receipt ReceiptVerifier}.
Context `{KeyStoreI Cert KeyStore ReceiptVerifier} `{StateI ClusterState}.

Implicit Types (rv : ReceiptVerifier) (key : option bytes)
  (prevStart prev : option string) (ls : LoopState Receipt)
  (used : gset string) (st : CashRegisterState) (ro : Receipt)
  (algorithm : AlgorithmI Receipt) (keyStore : KeyStore).

Lemma verifyGroup_first (cr : string) (rest : list string) rv key prevStart st
    used :
  truthy (lastReceiptJWS st) = false ->
  verifyGroup (cr :: rest) rv key prevStart st used
  = (let* ls :=
       verifyGroup_receipt rv key prevStart (initialLoopState st used) cr in
     let* ls := verifyGroup_loop rv key prevStart ls rest in
     Ok (set_lastReceiptJWS (ls_prev ls) (ls_state ls), ls_used ls)).
Proof.
  intros Hl. unfold verifyGroup. rewrite Hl. cbn.
  unfold initialLoopState.
  destruct (verifyGroup_receipt _ _ _ _ _); reflexivity.
Qed.

(** C8. When the register state holds no previous receipt and the
    verifier accepts the first receipt of the group, [verifyGroup] raises
    [NonzeroTurnoverOnInitialReceiptException] if the receipt is not null,
    [NonstandardTypeOnInitialReceiptException] if it is null but a dummy
    or a reversal, and, when a cluster previous-start is given,
    [ClusterInOpenSystemException] unless the operator tags of the receipt
    and of the previous start receipt are both AT0. When the checks pass,
    the receipt's JWS is recorded as [startReceiptJWS], and the iteration
    goes on with the cluster previous-start and its receipt object as
    [prev] and [prevObj], which is what the chain check then uses; without
    a cluster previous-start they stay as they were. *)
Theorem initial_receipt_checks (cr : string) (rest : list string) rv key
    prevStart st used ro algorithm :
  truthy (lastReceiptJWS st) = false ->
  verifyJWS rv (expandDEPReceipt cr) = Ok (ro, algorithm) ->
  let r := expandDEPReceipt cr in
  let group := cr :: rest in
  let recorded := set_startReceiptJWS (Some r) (set_needRestoreReceipt false st) in
  (isNull ro = false ->
   verifyGroup group rv key prevStart st used
   = Raise (NonzeroTurnoverOnInitialReceiptException (receiptId ro)))
  /\ (isNull ro = true -> isDummy ro || isReversal ro = true ->
      verifyGroup group rv key prevStart st used
      = Raise (NonstandardTypeOnInitialReceiptException (receiptId ro)))
  /\ (isNull ro = true -> isDummy ro || isReversal ro = false ->
      truthy prevStart = true -> zda ro <> "AT0" ->
      verifyGroup group rv key prevStart st used
      = Raise ClusterInOpenSystemException)
  /\ (forall prevObj algorithmPrefix,
        isNull ro = true -> isDummy ro || isReversal ro = false ->
        truthy prevStart = true -> zda ro = "AT0" ->
        fromJWSString (default "" prevStart) = Ok (prevObj, algorithmPrefix) ->
        (zda prevObj <> "AT0" ->
         verifyGroup group rv key prevStart st used
         = Raise ClusterInOpenSystemException)
        /\ (zda prevObj = "AT0" ->
            verifyGroup_receipt rv key prevStart (initialLoopState st used) cr
            = afterInitialChecks key prevStart r ro algorithm recorded used
                prevStart (Some prevObj)))
  /\ (isNull ro = true -> isDummy ro || isReversal ro = false ->
      truthy prevStart = false ->
      verifyGroup_receipt rv key prevStart (initialLoopState st used) cr
      = afterInitialChecks key prevStart r ro algorithm recorded used
          (lastReceiptJWS st) None)
  /\ (forall ls',
        verifyGroup_receipt rv key prevStart (initialLoopState st used) cr
        = Ok ls' ->
        startReceiptJWS (ls_state ls') = Some r).
Proof.
  intros Hlast Hjws. cbv zeta.
  rewrite (verifyGroup_first _ _ _ _ _ _ _ Hlast).
  unfold verifyGroup_receipt, initialLoopState, afterInitialChecks.
  cbn [ls_state ls_used ls_prev ls_prevObj].
  unfold verifySignature. rewrite Hjws.
  cbn [bool_decide decide_rel is_Some_dec andb bind recoverUnsigned].
  unfold checkInitialReceipt.
  split; [|split; [|split; [|split; [|split]]]].
  - intros ->. reflexivity.
  - intros -> ->. reflexivity.
  - intros -> -> -> Hz. apply String_eqb_false in Hz. rewrite Hz. reflexivity.
  - intros prevObj algorithmPrefix -> -> -> Hz Hp. rewrite Hz, Hp. cbn.
    split.
    + intros Hzp. apply String_eqb_false in Hzp. rewrite Hzp. reflexivity.
    + intros Hzp.
      assert (Heq : String.eqb (zda prevObj) "AT0" = true)
        by (rewrite Hzp; reflexivity).
      cbn. repeat (rewrite Heq; cbn). reflexivity.
  - intros -> -> ->. reflexivity.
  - intros ls' Hv. inv_ok Hv. injection Hv as <-. cbn.
    assert (Hst : startReceiptJWS c = Some (expandDEPReceipt cr)).
    { destruct (negb (isNull ro)); [discriminate|].
      destruct (isDummy ro || isReversal ro); [discriminate|]. cbn in Ha.
      inv_ok Ha. injection Ha as <- _ _. reflexivity. }
    unfold checkTurnoverCounter in Ha2.
    destruct (negb (isDummy ro)); [|injection Ha2 as <-; exact Hst].
    destruct (truthy_bytes key); [|injection Ha2 as <-; exact Hst].
    inv_ok Ha2. injection Ha2 as <-. exact Hst.
Qed.

Lemma verifyGroup_receipt_after_signature rv key prevStart ls (cr : string) :
  verifyGroup_receipt rv key prevStart ls cr
  = (let* '(st, verified) :=
       verifySignature rv (expandDEPReceipt cr) (ls_state ls) (ls_prevObj ls) in
     let* '(ro, algorithm) :=
       recoverUnsigned (expandDEPReceipt cr) st (ls_prevObj ls) verified in
     afterSignatureChecks key prevStart (expandDEPReceipt cr) ro algorithm
       st ls).
Proof.
  unfold verifyGroup_receipt, afterSignatureChecks, afterInitialChecks.
  destruct (verifySignature _ _ _ _) as [[st verified]|e]; [|reflexivity].
  cbn. destruct (recoverUnsigned _ _ _ _) as [[ro algorithm]|e];
    [|reflexivity].
  cbn. destruct (checkInitialReceipt _ _ _ _ _ _) as [[[st' prev] prevObj]|e];
    reflexivity.
Qed.

Lemma bind_Raise {E A B} (c : result E A) (k : A -> result E B) (e : E) :
  bind c k = Raise e <-> c = Raise e \/ exists a, c = Ok a /\ k a = Raise e.
Proof.
  destruct c as [a|e']; cbn; split.
  - intros Hk. right. eauto.
  - intros [Hc|(a' & [= <-] & Hk)]; [discriminate|exact Hk].
  - intros [= <-]. left. reflexivity.
  - intros [[= <-]|(a' & Hc & _)]; [reflexivity|discriminate].
Qed.

Lemma raise_if_Raise {E} (b : bool) (e e' : E) :
  raise_if b e = Raise e' -> e' = e.
Proof. destruct b; cbn; congruence. Qed.

(** Takes a failed computation apart: one goal for each step that can
    have raised. *)
Ltac inv_raise H :=
  repeat match type of H with
    | bind _ _ = Raise _ =>
        let a := fresh "a" in let Ha := fresh "Ha" in
        apply bind_Raise in H as [H|(a & Ha & H)]
    | raise_if _ _ = Raise _ => apply raise_if_Raise in H; subst
    | (let '(_, _) := ?p in _) = Raise _ => destruct p
    | (match ?p with (_, _) => _ end) = Raise _ => destruct p
    end.

Lemma checkInitialReceipt_raises (r : string) ro prevStart st prev
    (prevObj : option Receipt) e :
  checkInitialReceipt r ro prevStart st prev prevObj = Raise e ->
  raisedForRestore e = false.
Proof.
  unfold checkInitialReceipt. destruct prevObj; [discriminate|].
  intros Hr. inv_raise Hr; try reflexivity; try discriminate.
  destruct (truthy prevStart); [|discriminate].
  inv_raise Hr; try reflexivity; try discriminate.
  unfold lift_receipt in Hr.
  destruct (fromJWSString (default "" prevStart)); [discriminate|].
  injection Hr as <-. reflexivity.
Qed.

Lemma checkAgainstPrevious_raises ro used (prevObj : option Receipt) e :
  checkAgainstPrevious ro used prevObj = Raise e ->
  raisedForRestore e = false.
Proof.
  unfold checkAgainstPrevious. destruct prevObj; [|discriminate].
  intros Hr. inv_raise Hr; try reflexivity; discriminate.
Qed.

Lemma checkChain_raises (r : string) ro prev algorithm prevStart st e :
  checkChain r ro prev algorithm prevStart st = Raise e ->
  raisedForRestore e = false.
Proof.
  unfold checkChain, verifyChain.
  destruct (negb (String.eqb _ _)); [|discriminate].
  destruct (bool_decide _); [destruct (truthy prevStart)|];
    intros [= <-]; reflexivity.
Qed.

Lemma checkTurnoverCounter_raises ro key algorithm st e :
  checkTurnoverCounter ro key algorithm st = Raise e ->
  raisedForRestore e = false.
Proof.
  unfold checkTurnoverCounter, int_of_round.
  destruct (negb (isDummy ro)); [|discriminate].
  destruct (truthy_bytes key); [|discriminate].
  destruct (is_nan _); [intros [= <-]; reflexivity|].
  destruct (is_infinity _); [intros [= <-]; reflexivity|]. cbn [bind].
  destruct (negb (isReversal ro)); [|discriminate].
  intros Hr. inv_raise Hr; try reflexivity; discriminate.
Qed.

(** The checks after the signature checks never raise the restore
    exception, and leave [needRestoreReceipt] as it is. *)
Lemma afterSignatureChecks_raises key prevStart (r : string) ro algorithm st
    ls e :
  afterSignatureChecks key prevStart r ro algorithm st ls = Raise e ->
  raisedForRestore e = false.
Proof.
  unfold afterSignatureChecks, afterInitialChecks. intros Hr.
  apply bind_Raise in Hr as [Hr|([[st' prev] prevObj] & _ & Hr)];
    [eapply checkInitialReceipt_raises, Hr|].
  apply bind_Raise in Hr as [Hr|(? & _ & Hr)];
    [eapply checkAgainstPrevious_raises, Hr|].
  apply bind_Raise in Hr as [Hr|(? & _ & Hr)];
    [eapply checkChain_raises, Hr|].
  apply bind_Raise in Hr as [Hr|(? & _ & Hr)];
    [eapply checkTurnoverCounter_raises, Hr|discriminate].
Qed.

Lemma afterSignatureChecks_flag key prevStart (r : string) ro algorithm st
    ls ls' :
  afterSignatureChecks key prevStart r ro algorithm st ls = Ok ls' ->
  needRestoreReceipt (ls_state ls') = needRestoreReceipt st.
Proof.
  unfold afterSignatureChecks, afterInitialChecks. intros Hok. inv_ok Hok.
  injection Hok as <-. cbn.
  assert (Hini : needRestoreReceipt c = needRestoreReceipt st).
  { unfold checkInitialReceipt in Ha.
    destruct (ls_prevObj ls); [injection Ha as <- _ _; reflexivity|].
    inv_ok Ha. injection Ha as <- _ _. reflexivity. }
  rewrite <- Hini. unfold checkTurnoverCounter in Ha2.
  destruct (negb (isDummy ro)); [|injection Ha2 as <-; reflexivity].
  destruct (truthy_bytes key); [|injection Ha2 as <-; reflexivity].
  inv_ok Ha2. injection Ha2 as <-. reflexivity.
Qed.

Lemma not_plainNull ro :
  negb (isNull ro) || isDummy ro || isReversal ro = negb (plainNull ro).
Proof.
  unfold plainNull. destruct (isNull ro), (isDummy ro), (isReversal ro);
    reflexivity.
Qed.

(** C2, as amended. With a previous receipt [previous] in the loop:
    a receipt the verifier accepts as signed and that is not a plain null
    receipt is not refused for following a signed-broken receipt; it sets
    [needRestoreReceipt] when [previous] is signed-broken. While
    [needRestoreReceipt] is set, such a receipt raises
    [NoRestoreReceiptAfterSignatureSystemFailureException], and so does a
    receipt whose verification reports a failed signature device or an
    unsigned null receipt; a signed plain null receipt clears the
    flag. *)
Theorem restore_receipt_discipline rv key prevStart ls (cr : string)
    (previous : Receipt) :
  ls_prevObj ls = Some previous ->
  let r := expandDEPReceipt cr in
  let flag := needRestoreReceipt (ls_state ls) in
  (forall ro algorithm,
     verifyJWS rv r = Ok (ro, algorithm) -> plainNull ro = false ->
     flag = false ->
     (forall rec,
        verifyGroup_receipt rv key prevStart ls cr
        <> Raise (NoRestoreReceiptAfterSignatureSystemFailureException rec))
     /\ (forall ls',
           verifyGroup_receipt rv key prevStart ls cr = Ok ls' ->
           needRestoreReceipt (ls_state ls') = isSignedBroken previous))
  /\ (forall ro algorithm,
        verifyJWS rv r = Ok (ro, algorithm) -> plainNull ro = false ->
        flag = true ->
        verifyGroup_receipt rv key prevStart ls cr
        = Raise (NoRestoreReceiptAfterSignatureSystemFailureException
                   (receiptId ro)))
  /\ (forall ro algorithmPrefix,
        verifyJWS rv r = Raise SignatureSystemFailedException
        \/ verifyJWS rv r = Raise UnsignedNullReceiptException ->
        fromJWSString r = Ok (ro, algorithmPrefix) ->
        (flag = true ->
         verifyGroup_receipt rv key prevStart ls cr
         = Raise (NoRestoreReceiptAfterSignatureSystemFailureException
                    (receiptId ro)))
        /\ (flag = false ->
            forall rec,
              verifyGroup_receipt rv key prevStart ls cr
              <> Raise (NoRestoreReceiptAfterSignatureSystemFailureException
                          rec)))
  /\ (forall ro algorithm ls',
        verifyJWS rv r = Ok (ro, algorithm) -> plainNull ro = true ->
        verifyGroup_receipt rv key prevStart ls cr = Ok ls' ->
        needRestoreReceipt (ls_state ls') = false).
Proof.
  intros Hprev. cbv zeta. rewrite !verifyGroup_receipt_after_signature.
  unfold verifySignature. rewrite Hprev.
  cbn [bool_decide decide_rel is_Some_dec andb from_option].
  split; [|split; [|split]].
  - intros ro algorithm -> Hplain Hflag. rewrite not_plainNull, Hplain, Hflag.
    cbn [negb]. split.
    + intros rec Hraise.
      destruct (isSignedBroken previous); cbn in Hraise;
        apply afterSignatureChecks_raises in Hraise; discriminate.
    + intros ls' Hok.
      destruct (isSignedBroken previous); cbn in Hok;
        apply afterSignatureChecks_flag in Hok; rewrite Hok;
        [reflexivity|exact Hflag].
  - intros ro algorithm -> Hplain Hflag. rewrite not_plainNull, Hplain, Hflag.
    reflexivity.
  - intros ro algorithmPrefix Hjws Hparse.
    assert (Hsig : (let* '(st, verified) :=
                      match verifyJWS rv (expandDEPReceipt cr) with
                      | Ok (ro, algorithm) =>
                          if negb (isNull ro) || isDummy ro || isReversal ro
                          then
                            if needRestoreReceipt (ls_state ls)
                            then Raise
                              (NoRestoreReceiptAfterSignatureSystemFailureException
                                 (receiptId ro))
                            else
                              if isSignedBroken previous
                              then Ok (set_needRestoreReceipt true (ls_state ls),
                                       Some (ro, algorithm))
                              else Ok (ls_state ls, Some (ro, algorithm))
                          else Ok (set_needRestoreReceipt false (ls_state ls),
                                   Some (ro, algorithm))
                      | Raise SignatureSystemFailedException =>
                          Ok (ls_state ls, None)
                      | Raise UnsignedNullReceiptException =>
                          Ok (ls_state ls, None)
                      | Raise e => Raise (ReceiptError e)
                      end in
                    let* '(ro, algorithm) :=
                      recoverUnsigned (expandDEPReceipt cr) st
                        (Some previous) verified in
                    afterSignatureChecks key prevStart (expandDEPReceipt cr)
                      ro algorithm st ls)
                   = (check raise_if (needRestoreReceipt (ls_state ls))
                              (NoRestoreReceiptAfterSignatureSystemFailureException
                                 (receiptId ro)) in
                      match ALGORITHMS algorithmPrefix with
                      | Some algorithm =>
                          afterSignatureChecks key prevStart
                            (expandDEPReceipt cr) ro algorithm (ls_state ls) ls
                      | None => Raise (PyKeyError algorithmPrefix)
                      end)).
    { destruct Hjws as [-> | ->]; cbn; rewrite Hparse; cbn;
        destruct (needRestoreReceipt (ls_state ls)); cbn; try reflexivity;
        destruct (ALGORITHMS algorithmPrefix); reflexivity. }
    rewrite Hsig. clear Hsig. split.
    + intros ->. reflexivity.
    + intros -> rec Hraise. cbn in Hraise.
      destruct (ALGORITHMS algorithmPrefix); [|discriminate].
      apply afterSignatureChecks_raises in Hraise. discriminate.
  - intros ro algorithm ls' -> Hplain. rewrite not_plainNull, Hplain.
    cbn. intros Hok. apply afterSignatureChecks_flag in Hok. exact Hok.
Qed.

End InitialAndRestore.

(** Takes every successful computation of the context apart. *)
Ltac inv_all_ok :=
  repeat match goal with
    | Hx : bind _ _ = Ok _ |- _ => apply bind_Ok in Hx as (? & ? & ?)
    | Hx : (let '(_, _) := ?p in _) = Ok _ |- _ => destruct p
    | Hx : (match ?p with (_, _) => _ end) = Ok _ |- _ => destruct p
    | Hx : Ok _ = Ok _ |- _ => inversion Hx; subst; clear Hx
    end.

Section MergeFacts.
Implicit Types (seen : gset string) (rids : list string)
  (sets : list (gset string)).

Lemma updateUsedReceiptIds_set_Raise_seen seen rids e :
  NoDup rids ->
  updateUsedReceiptIds_set seen rids = Raise e ->
  exists rid, e = DuplicateReceiptIdException rid /\ rid ∈ rids /\ rid ∈ seen.
Proof.
  revert seen. induction rids as [|rid rest IH]; intros seen Hnd; cbn.
  - discriminate.
  - apply NoDup_cons in Hnd as [Hn Hnd]. case_bool_decide as Hin.
    + intros [= <-]. exists rid. split; [reflexivity|]. set_solver.
    + intros Hr. apply (IH _ Hnd) in Hr as (x & -> & Hx & Hs).
      exists x. split; [reflexivity|]. split; [set_solver|].
      assert (x <> rid) by (intros ->; contradiction). set_solver.
Qed.

(** A failed merge reports an ID that is in the set being merged and
    either was seen before the merge or is in an earlier set. *)
Lemma updateUsedReceiptIds_sets_Raise seen sets e :
  updateUsedReceiptIds_sets seen sets = Raise e ->
  exists rid (j : nat) (Y : gset string),
    e = DuplicateReceiptIdException rid
    /\ sets !! j = Some Y /\ rid ∈ Y
    /\ (rid ∈ seen
        \/ exists (i : nat) (X : gset string),
             (i < j)%nat /\ sets !! i = Some X /\ rid ∈ X).
Proof.
  revert seen. induction sets as [|X rest IH]; intros seen; cbn.
  - discriminate.
  - intros Hr. apply bind_Raise in Hr as [Hr|(seen1 & Hok & Hr)].
    + apply updateUsedReceiptIds_set_Raise_seen in Hr
        as (rid & -> & Hx & Hs); [|apply NoDup_elements].
      exists rid, 0%nat, X. apply elem_of_elements in Hx. tauto.
    + apply updateUsedReceiptIds_elements_Ok in Hok as [_ ->].
      apply IH in Hr as (rid & j & Y & -> & Hj & HY & Hin).
      exists rid, (S j), Y. repeat split; [exact Hj|exact HY|].
      destruct Hin as [Hin|(i & X' & Hi & HX & Hin)].
      * apply elem_of_union in Hin as [Hin|Hin]; [left; exact Hin|].
        right. exists 0%nat, X. repeat split; [lia|exact Hin].
      * right. exists (S i), X'. repeat split; [lia|exact HX|exact Hin].
Qed.

Lemma disjoint_sets_seen seen sets (j : nat) (Y : gset string) :
  disjoint_sets seen sets -> sets !! j = Some Y -> Y ## seen.
Proof.
  revert seen j. induction sets as [|X rest IH]; intros seen j; cbn.
  - intros _ Hj. discriminate.
  - intros [Hd Hrest] Hj. destruct j as [|j].
    + injection Hj as <-. exact Hd.
    + cbn in Hj. specialize (IH _ _ Hrest Hj). set_solver.
Qed.

Lemma disjoint_sets_pairwise seen sets (i j : nat) (X Y : gset string) :
  disjoint_sets seen sets -> (i < j)%nat ->
  sets !! i = Some X -> sets !! j = Some Y -> X ## Y.
Proof.
  revert seen i j. induction sets as [|Z rest IH]; intros seen i j; cbn.
  - intros _ _ Hi. discriminate.
  - intros [Hd Hrest] Hlt Hi Hj. destruct j as [|j]; [lia|]. cbn in Hj.
    destruct i as [|i].
    + injection Hi as <-.
      pose proof (disjoint_sets_seen _ _ _ _ Hrest Hj). set_solver.
    + cbn in Hi. apply (IH _ i j Hrest); [lia|exact Hi|exact Hj].
Qed.

End MergeFacts.

(** ** Receipt IDs *)

Section ReceiptIds.
Context `{CryptoI} `{BuiltinsI}.
Context {Receipt ReceiptVerifier Cert KeyStore ClusterState : Type}.
Context `{ReceiptI Receipt} `{VerifierI Receipt ReceiptVerifier}.
Context `{KeyStoreI Cert KeyStore ReceiptVerifier} `{StateI ClusterState}.

Implicit Types (rv : ReceiptVerifier) (key : option bytes)
  (prevStart prev : option string) (ls : LoopState Receipt)
  (used : gset string) (st : CashRegisterState) (ro : Receipt)
  (algorithm : AlgorithmI Receipt) (keyStore : KeyStore).

(** A receipt accepted with a predecessor has an ID that was not in the
    used set. *)
Lemma verifyGroup_receipt_fresh rv key prevStart ls (cr : string) ls' :
  (is_Some (ls_prevObj ls) \/ truthy prevStart = true) ->
  verifyGroup_receipt rv key prevStart ls cr = Ok ls' ->
  is_Some (ls_prevObj ls')
  /\ (exists rid, (rid ∉ ls_used ls) /\ ls_used ls' = {[rid]} ∪ ls_used ls).
Proof.
  intros Hpred. unfold verifyGroup_receipt. intros Hv. inv_ok Hv.
  injection Hv as <-. cbn. split; [eauto|]. exists (receiptId r).
  split; [|reflexivity].
  assert (Hsome : is_Some o0).
  { unfold checkInitialReceipt in Ha1.
    destruct (ls_prevObj ls) as [p|] eqn:Hp.
    - injection Ha1 as _ _ <-. eauto.
    - destruct Hpred as [[? ?]|Hps]; [discriminate|]. rewrite Hps in Ha1.
      inv_all_ok. eauto. }
  destruct Hsome as [p ->]. unfold checkAgainstPrevious in Ha2.
  inv_ok Ha2.
  match goal with
  | Hd : raise_if (bool_decide (_ ∈ _)) _ = Ok _ |- _ =>
      apply raise_if_Ok, bool_decide_eq_false in Hd; exact Hd
  end.
Qed.

Lemma verifyGroup_loop_fresh rv key prevStart ls (group : list string) ls' :
  (is_Some (ls_prevObj ls) \/ truthy prevStart = true) ->
  verifyGroup_loop rv key prevStart ls group = Ok ls' ->
  size (ls_used ls') = (size (ls_used ls) + length group)%nat.
Proof.
  revert ls. induction group as [|cr rest IH]; intros ls Hpred; cbn.
  - intros [= <-]. lia.
  - intros Hv. apply bind_Ok in Hv as (ls1 & Hv1 & Hv2).
    apply (verifyGroup_receipt_fresh _ _ _ _ _ _ Hpred) in Hv1
      as (Hsome & rid & Hfresh & Hused).
    rewrite (IH ls1 (or_introl Hsome) Hv2), Hused.
    rewrite size_union by set_solver. rewrite size_singleton. lia.
Qed.

(** C3, as amended. A receipt that reaches the checks against a previous
    receipt [prevObj] (the receipt before it or, for a register's first
    receipt, the cluster previous-start) with an ID that is already in the
    used set raises [DuplicateReceiptIdException]; so every receipt
    accepted with such a predecessor adds a new ID, and a group verified
    from a register state with a previous receipt, or with a cluster
    previous-start, grows the used set by one ID per receipt. The first
    receipt of a register without cluster previous-start is not checked
    against the set. [updateUsedReceiptIds] returns the union of the
    merged sets when no ID is in two of them, and raises
    [DuplicateReceiptIdException] for an ID that is in two when there is
    one. *)
Theorem receipt_ids_unique :
  (forall rv key prevStart ls (cr : string) st1 verified ro algorithm st prev
          (prevObj : Receipt),
     verifySignature rv (expandDEPReceipt cr) (ls_state ls) (ls_prevObj ls)
     = Ok (st1, verified) ->
     recoverUnsigned (expandDEPReceipt cr) st1 (ls_prevObj ls) verified
     = Ok (ro, algorithm) ->
     checkInitialReceipt (expandDEPReceipt cr) ro prevStart st1 (ls_prev ls)
       (ls_prevObj ls)
     = Ok (st, prev, Some prevObj) ->
     receiptId ro ∈ ls_used ls ->
     verifyGroup_receipt rv key prevStart ls cr
     = Raise (DuplicateReceiptIdException (receiptId ro)))
  /\ (forall rv key prevStart ls (cr : string) ls',
        (is_Some (ls_prevObj ls) \/ truthy prevStart = true) ->
        verifyGroup_receipt rv key prevStart ls cr = Ok ls' ->
        exists rid, (rid ∉ ls_used ls) /\ ls_used ls' = {[rid]} ∪ ls_used ls)
  /\ (forall (group : list string) rv key prevStart st used st' used',
        truthy (lastReceiptJWS st) = true \/ truthy prevStart = true ->
        verifyGroup group rv key prevStart st used = Ok (st', used') ->
        used ⊆ used' /\ size used' = (size used + length group)%nat)
  /\ (forall (outUsedRecIds : list (gset string)) used,
        (forall merged,
           updateUsedReceiptIds outUsedRecIds used = Ok merged
           <-> disjoint_sets used outUsedRecIds
               /\ merged = used ∪ ⋃ outUsedRecIds)
        /\ (forall e,
              updateUsedReceiptIds outUsedRecIds used = Raise e ->
              exists rid (i j : nat) (X Y : gset string),
                e = DuplicateReceiptIdException rid
                /\ i <> j
                /\ (used :: outUsedRecIds) !! i = Some X
                /\ (used :: outUsedRecIds) !! j = Some Y
                /\ rid ∈ X /\ rid ∈ Y)
        /\ (forall rid (i j : nat) (X Y : gset string),
              i <> j ->
              (used :: outUsedRecIds) !! i = Some X ->
              (used :: outUsedRecIds) !! j = Some Y ->
              rid ∈ X -> rid ∈ Y ->
              exists rid',
                updateUsedReceiptIds outUsedRecIds used
                = Raise (DuplicateReceiptIdException rid'))).
Proof.
  split; [|split; [|split]].
  - intros rv key prevStart ls cr st1 verified ro algorithm st prev prevObj
      Hsig Hrec Hini Hin.
    unfold verifyGroup_receipt. rewrite Hsig. cbn. rewrite Hrec. cbn.
    rewrite Hini. cbn. rewrite bool_decide_eq_true_2 by exact Hin.
    reflexivity.
  - intros rv key prevStart ls cr ls' Hpred Hok.
    apply (verifyGroup_receipt_fresh _ _ _ _ _ _ Hpred Hok).
  - intros group rv key prevStart st used st' used' Hpred Hok.
    split; [eapply verifyGroup_mono, Hok|].
    unfold verifyGroup in Hok. apply bind_Ok in Hok as (prevObj & Hp & Hok).
    apply bind_Ok in Hok as (ls' & Hloop & [= <- <-]).
    apply verifyGroup_loop_fresh in Hloop; [exact Hloop|]. cbn.
    destruct Hpred as [Hl|Hps]; [|right; exact Hps]. left.
    rewrite Hl in Hp. inv_all_ok. eauto.
  - intros outUsedRecIds used. split; [|split].
    + intros merged. rewrite updateUsedReceiptIds_from_used.
      apply updateUsedReceiptIds_sets_Ok.
    + intros e Hr. unfold updateUsedReceiptIds in Hr.
      apply updateUsedReceiptIds_sets_Raise in Hr
        as (rid & j & Y & -> & Hj & HY & [Hin|(i & X & Hi & HX & Hin)]);
        [set_solver|].
      exists rid, i, j, X, Y. repeat split; [lia|assumption..].
    + intros rid i j X Y Hne Hi Hj HX HY. unfold updateUsedReceiptIds.
      destruct (updateUsedReceiptIds_sets ∅ (used :: outUsedRecIds))
        as [merged|e] eqn:Hm.
      * exfalso. apply updateUsedReceiptIds_sets_Ok in Hm as [Hd _].
        destruct (Nat.lt_total i j) as [Hlt|[Heq|Hlt]]; [|contradiction|].
        -- pose proof (disjoint_sets_pairwise _ _ _ _ _ _ Hd Hlt Hi Hj).
           set_solver.
        -- pose proof (disjoint_sets_pairwise _ _ _ _ _ _ Hd Hlt Hj Hi).
           set_solver.
      * pose proof Hm as Hm'. apply updateUsedReceiptIds_sets_Raise in Hm'
          as (rid' & _ & _ & -> & _). eauto.
Qed.

End ReceiptIds.

(** ** Whole-file verification *)

Section WholeFile.
Context `{CryptoI} `{BuiltinsI}.
Context {Receipt ReceiptVerifier Cert KeyStore ClusterState : Type}.
Context `{ReceiptI Receipt} `{VerifierI Receipt ReceiptVerifier}.
Context `{KeyStoreI Cert KeyStore ReceiptVerifier} `{StateI ClusterState}.

Implicit Types (rv : ReceiptVerifier) (key : option bytes)
  (prevStart prev : option string)
  (used : gset string) (st : CashRegisterState) (ro : Receipt)
  (keyStore : KeyStore) (dls : DEPLoopState)
  (groups : list (DEPGroup Cert)) (chunks : list (list (DEPGroup Cert))).

Lemma verifyDEP_groups_app groups1 groups2 keyStore key prevStart dls :
  verifyDEP_groups (groups1 ++ groups2) keyStore key prevStart dls
  = bind (verifyDEP_groups groups1 keyStore key prevStart dls)
      (verifyDEP_groups groups2 keyStore key prevStart).
Proof.
  revert dls. induction groups1 as [|[[recs cert] chain] rest IH];
    intros [[one_group rState] usedRecIds]; [reflexivity|].
  cbn [app verifyDEP_groups].
  destruct (raise_if (bool_decide (one_group = Some true)) _); [|reflexivity].
  cbn [bind].
  destruct (match cert with Some _ => _ | None => _ end) as [[rv og]|e];
    [|reflexivity].
  cbn [bind].
  destruct (verifyGroup recs rv key prevStart rState usedRecIds)
    as [[s u]|e]; [|reflexivity].
  cbn [bind]. apply IH.
Qed.

(** With no empty chunk, the two loops of [verifyDEP] process the groups
    of all chunks in order. *)
Lemma verifyDEP_chunks_concat chunks keyStore key prevStart dls :
  Forall (fun chunk => chunk <> []) chunks ->
  verifyDEP_chunks chunks keyStore key prevStart dls
  = verifyDEP_groups (concat chunks) keyStore key prevStart dls.
Proof.
  intros Hne. revert dls. induction Hne as [|chunk rest Hc Hne IH];
    intros dls; [reflexivity|].
  cbn [verifyDEP_chunks concat]. rewrite verifyDEP_groups_app.
  destruct chunk; [contradiction|]. cbn [length Nat.ltb Nat.leb raise_if bind].
  destruct (verifyDEP_groups _ keyStore key prevStart dls); [|reflexivity].
  cbn [bind]. apply IH.
Qed.

(** What [one_group] is after a group was processed. *)
Lemma verifyDEP_groups_one_group groups recs (cert : option Cert) chain
    keyStore key prevStart dls one_group rState usedRecIds :
  verifyDEP_groups (groups ++ [(recs, cert, chain)]) keyStore key prevStart dls
  = Ok (one_group, rState, usedRecIds) ->
  one_group = Some (negb (bool_decide (is_Some cert))).
Proof.
  rewrite verifyDEP_groups_app. intros Hok.
  apply bind_Ok in Hok as ([[og s] u] & _ & Hok). cbn in Hok.
  inv_all_ok. destruct cert; inv_all_ok; reflexivity.
Qed.

(** C10. In [verifyDEP], whose chunks are not empty: once a group
    without a certificate has been processed (with the verifier that
    resolves certificates in the key store), any further group raises
    [NoCertificateGivenException], whether it carries a certificate or
    not; and a group without a certificate that follows a processed group
    with a certificate raises [NoCertificateGivenException]. *)
Theorem verifyDEP_single_group_without_certificate chunks keyStore key
    (state : option ClusterState) (cashRegisterIdx : option Z) prevStart
    rState usedRecIds :
  Forall (fun chunk => chunk <> []) chunks ->
  getCashRegisterInfo (default ClusterState_new state) cashRegisterIdx
  = Ok (prevStart, rState, usedRecIds) ->
  (forall before recs chain further after dls,
     concat chunks = before ++ (recs, None, chain) :: further :: after ->
     verifyDEP_groups (before ++ [(recs, None, chain)]) keyStore key prevStart
       (None, rState, usedRecIds)
     = Ok dls ->
     verifyDEP chunks keyStore key state cashRegisterIdx
     = Raise NoCertificateGivenException)
  /\ (forall before recs cert chain recs' chain' after dls,
        concat chunks
        = before ++ (recs, Some cert, chain) :: (recs', None, chain') :: after ->
        verifyDEP_groups (before ++ [(recs, Some cert, chain)]) keyStore key
          prevStart (None, rState, usedRecIds)
        = Ok dls ->
        verifyDEP chunks keyStore key state cashRegisterIdx
        = Raise NoCertificateGivenException)
  /\ (forall recs chain one_group st used,
        verifyDEP_groups [(recs, None, chain)] keyStore key prevStart
          (one_group, st, used)
        = (check raise_if (bool_decide (is_Some one_group))
                   NoCertificateGivenException in
           let* '(st, used) :=
             verifyGroup recs (ReceiptVerifier_fromKeyStore keyStore) key
               prevStart st used in
           Ok (Some true, st, used))).
Proof.
  intros Hne Hinfo. unfold verifyDEP. rewrite Hinfo. cbn [bind].
  rewrite (verifyDEP_chunks_concat _ _ _ _ _ Hne).
  split; [|split].
  - intros before recs chain further after [[og s] u] Hcat Hok.
    pose proof (verifyDEP_groups_one_group _ _ _ _ _ _ _ _ _ _ _ Hok) as Hog.
    cbn in Hog. subst og.
    rewrite Hcat.
    change (before ++ (recs, None, chain) :: further :: after)
      with (before ++ [(recs, None, chain)] ++ further :: after).
    rewrite app_assoc, verifyDEP_groups_app, Hok.
    destruct further as [[recs' cert'] chain']. reflexivity.
  - intros before recs cert chain recs' chain' after [[og s] u] Hcat Hok.
    pose proof (verifyDEP_groups_one_group _ _ _ _ _ _ _ _ _ _ _ Hok) as Hog.
    cbn in Hog. subst og.
    rewrite Hcat.
    change (before ++ (recs, Some cert, chain) :: (recs', None, chain') :: after)
      with (before ++ [(recs, Some cert, chain)]
              ++ (recs', None, chain') :: after).
    rewrite app_assoc, verifyDEP_groups_app, Hok. reflexivity.
  - intros recs chain one_group st used. cbn.
    destruct one_group as [[|]|]; reflexivity.
Qed.

End WholeFile.

(** ** Facts of the fixture *)

Module FixtureFacts.
Import Fixture.

Lemma set_lastReceiptJWS_id (st : CashRegisterState) :
  set_lastReceiptJWS (lastReceiptJWS st) st = st.
Proof. destruct st; reflexivity. Qed.


End FixtureFacts.

(** ** What an accepted group leaves behind *)

Section AcceptedGroups.
Context `{CryptoI} `{BuiltinsI}.
Context {Receipt ReceiptVerifier Cert KeyStore ClusterState : Type}.
Context `{ReceiptI Receipt} `{VerifierI Receipt ReceiptVerifier}.
Context `{KeyStoreI Cert KeyStore ReceiptVerifier} `{StateI ClusterState}.

Implicit Types (rv : ReceiptVerifier) (key : option bytes)
  (prevStart prev : option string) (ls : LoopState Receipt)
  (used : gset string) (st rState : CashRegisterState) (ro : Receipt)
  (algorithm : AlgorithmI Receipt) (keyStore : KeyStore).

Lemma verifySignature_Ok rv (r : string) st (prevObj : option Receipt) st1
    verified :
  verifySignature rv r st prevObj = Ok (st1, verified) ->
  startReceiptJWS st1 = startReceiptJWS st
  /\ lastReceiptJWS st1 = lastReceiptJWS st
  /\ lastTurnoverCounter st1 = lastTurnoverCounter st
  /\ match verified with
     | Some ro_algorithm => verifyJWS rv r = Ok ro_algorithm
     | None =>
         verifyJWS rv r = Raise SignatureSystemFailedException
         \/ verifyJWS rv r = Raise UnsignedNullReceiptException
     end.
Proof.
  unfold verifySignature.
  destruct (verifyJWS rv r) as [[ro algorithm]|e].
  - destruct (_ && _).
    + destruct (needRestoreReceipt st); [discriminate|].
      destruct (from_option isSignedBroken false prevObj);
        intros [= <- <-]; auto.
    + intros [= <- <-]; auto.
  - destruct e; try discriminate; intros [= <- <-]; auto.
Qed.

Lemma recoverUnsigned_Ok rv (r : string) st (prevObj : option Receipt)
    verified ro algorithm :
  match verified with
  | Some ro_algorithm => verifyJWS rv r = Ok ro_algorithm
  | None =>
      verifyJWS rv r = Raise SignatureSystemFailedException
      \/ verifyJWS rv r = Raise UnsignedNullReceiptException
  end ->
  recoverUnsigned r st prevObj verified = Ok (ro, algorithm) ->
  receiptAndAlgorithm rv r = Some (ro, algorithm).
Proof.
  unfold recoverUnsigned, receiptAndAlgorithm.
  destruct verified as [ro_algorithm|].
  - intros -> [= ->]. reflexivity.
  - intros Hjws Hrec.
    assert (Hparse : match fromJWSString r with
                     | Ok (ro', algorithmPrefix) =>
                         ALGORITHMS algorithmPrefix = Some algorithm /\ ro' = ro
                     | Raise _ => False
                     end).
    { destruct (fromJWSString r) as [[ro' algorithmPrefix]|e];
        [|discriminate]. cbn in Hrec. inv_ok Hrec.
      destruct (ALGORITHMS algorithmPrefix); [|discriminate].
      injection Hrec as <- <-. auto. }
    destruct (fromJWSString r) as [[ro' algorithmPrefix]|e]; [|contradiction].
    destruct Hparse as [-> ->].
    destruct Hjws as [-> | ->]; reflexivity.
Qed.

Lemma checkInitialReceipt_Ok (r : string) ro prevStart st prev
    (prevObj : option Receipt) st1 prev1 prevObj1 :
  checkInitialReceipt r ro prevStart st prev prevObj = Ok (st1, prev1, prevObj1) ->
  lastReceiptJWS st1 = lastReceiptJWS st
  /\ lastTurnoverCounter st1 = lastTurnoverCounter st
  /\ match prevObj with
     | Some _ =>
         st1 = st /\ prev1 = prev /\ prevObj1 = prevObj
     | None =>
         startReceiptJWS st1 = Some r
         /\ prev1 = (if truthy prevStart then prevStart else prev)
     end.
Proof.
  unfold checkInitialReceipt. destruct prevObj as [p|].
  - intros [= <- <- <-]. auto.
  - intros Hok. inv_ok Hok. injection Hok as <- <- <-.
    split; [reflexivity|]. split; [reflexivity|]. split; [reflexivity|].
    destruct (truthy prevStart).
    + inv_all_ok. reflexivity.
    + inv_all_ok. reflexivity.
Qed.

Lemma checkChain_Ok (r : string) ro prev algorithm prevStart st u :
  checkChain r ro prev algorithm prevStart st = Ok u ->
  previousChain ro = b64encode (chain algorithm ro prev).
Proof.
  unfold checkChain, verifyChain.
  destruct (String.eqb _ _) eqn:Heq; cbn.
  - intros _. apply String.eqb_eq in Heq. congruence.
  - destruct (bool_decide _); [destruct (truthy prevStart)|]; discriminate.
Qed.

Lemma checkTurnoverCounter_Ok ro key algorithm st st1 :
  checkTurnoverCounter ro key algorithm st = Ok st1 ->
  startReceiptJWS st1 = startReceiptJWS st
  /\ lastReceiptJWS st1 = lastReceiptJWS st
  /\ lastTurnoverCounter st1
     = lastTurnoverCounter st + (if truthy_bytes key then turnoverDelta ro else 0).
Proof.
  unfold checkTurnoverCounter, turnoverDelta.
  destruct (isDummy ro); cbn [negb].
  - intros [= <-]. destruct (truthy_bytes key); repeat split; lia.
  - destruct (truthy_bytes key).
    + intros Hok. apply bind_Ok in Hok as (cents & Hc & Hok).
      apply bind_Ok in Hok as (u & _ & [= <-]).
      unfold int_of_round in Hc. destruct (is_nan _); [discriminate|].
      destruct (is_infinity _); [discriminate|]. injection Hc as <-.
      repeat split.
    + intros [= <-]. repeat split; lia.
Qed.

(** What one accepted iteration did. *)
Lemma verifyGroup_receipt_trace rv key prevStart ls (cr : string) ls' :
  verifyGroup_receipt rv key prevStart ls cr = Ok ls' ->
  exists ro algorithm prev,
    receiptAndAlgorithm rv (expandDEPReceipt cr) = Some (ro, algorithm)
    /\ ls_prevObj ls' = Some ro
    /\ ls_prev ls' = Some (expandDEPReceipt cr)
    /\ ls_used ls' = {[receiptId ro]} ∪ ls_used ls
    /\ lastTurnoverCounter (ls_state ls')
       = lastTurnoverCounter (ls_state ls)
         + (if truthy_bytes key then turnoverDelta ro else 0)
    /\ lastReceiptJWS (ls_state ls') = lastReceiptJWS (ls_state ls)
    /\ startReceiptJWS (ls_state ls')
       = (if bool_decide (is_Some (ls_prevObj ls))
          then startReceiptJWS (ls_state ls)
          else Some (expandDEPReceipt cr))
    /\ prev = (if bool_decide (is_Some (ls_prevObj ls)) then ls_prev ls
               else if truthy prevStart then prevStart else ls_prev ls)
    /\ previousChain ro = b64encode (chain algorithm ro prev).
Proof.
  unfold verifyGroup_receipt. intros Hok.
  apply bind_Ok in Hok as ([st1 verified] & Hsig & Hok).
  apply bind_Ok in Hok as ([ro algorithm] & Hrec & Hok).
  apply bind_Ok in Hok as ([[st2 prev] prevObj] & Hini & Hok).
  apply bind_Ok in Hok as (u1 & _ & Hok).
  apply bind_Ok in Hok as (u2 & Hchain & Hok).
  apply bind_Ok in Hok as (st3 & Hturn & [= <-]).
  apply verifySignature_Ok in Hsig as (Hs1 & Hl1 & Hc1 & Hjws).
  apply (recoverUnsigned_Ok rv _ _ _ _ _ _ Hjws) in Hrec.
  apply checkInitialReceipt_Ok in Hini as (Hl2 & Hc2 & Hini).
  apply checkChain_Ok in Hchain.
  apply checkTurnoverCounter_Ok in Hturn as (Hs3 & Hl3 & Hc3).
  exists ro, algorithm, prev. cbn [ls_state ls_used ls_prev ls_prevObj].
  split; [exact Hrec|]. split; [reflexivity|]. split; [reflexivity|].
  split; [reflexivity|]. split; [congruence|]. split; [congruence|].
  destruct (ls_prevObj ls) as [p|]; cbn.
  - destruct Hini as (-> & -> & ->). repeat split; congruence.
  - destruct Hini as (Hstart & ->). repeat split; congruence.
Qed.

Lemma verifyGroup_loop_trace rv key prevStart ls (group : list string) ls' :
  verifyGroup_loop rv key prevStart ls group = Ok ls' ->
  exists ros,
    receiptObjects rv group = Some ros
    /\ ls_used ls' = ls_used ls ∪ list_to_set (receiptId <$> ros)
    /\ lastTurnoverCounter (ls_state ls')
       = lastTurnoverCounter (ls_state ls)
         + (if truthy_bytes key then foldr Z.add 0 (turnoverDelta <$> ros)
            else 0)
    /\ lastReceiptJWS (ls_state ls') = lastReceiptJWS (ls_state ls)
    /\ ls_prev ls'
       = from_option (fun cr => Some (expandDEPReceipt cr)) (ls_prev ls)
           (last group)
    /\ startReceiptJWS (ls_state ls')
       = (if bool_decide (is_Some (ls_prevObj ls))
          then startReceiptJWS (ls_state ls)
          else from_option (fun cr => Some (expandDEPReceipt cr))
                 (startReceiptJWS (ls_state ls)) (head group))
    /\ (group <> [] -> is_Some (ls_prevObj ls')).
Proof.
  revert ls. induction group as [|cr rest IH]; intros ls; cbn [verifyGroup_loop].
  - intros [= <-]. exists []. cbn.
    split; [reflexivity|]. split; [set_solver|]. split; [destruct (truthy_bytes key); lia|].
    split; [reflexivity|]. split; [reflexivity|].
    split; [destruct (bool_decide _); reflexivity|]. intros Hne. contradiction.
  - intros Hok. apply bind_Ok in Hok as (ls1 & Hone & Hrest).
    apply verifyGroup_receipt_trace in Hone
      as (ro & algorithm & prev & Hro & Hobj & Hprev & Hused & Hcount & Hlast
          & Hstart & _).
    pose proof (IH _ Hrest)
      as (ros & Hros & Hused' & Hcount' & Hlast' & Hprev' & Hstart' & Hobj').
    exists (ro :: ros). unfold receiptObjects in *. cbn [mapM].
    rewrite Hro, Hros. cbn.
    split; [reflexivity|].
    split; [rewrite Hused', Hused; set_solver|].
    split; [rewrite Hcount', Hcount; destruct (truthy_bytes key); lia|].
    split; [congruence|].
    split.
    { rewrite Hprev', Hprev, last_cons. destruct (last rest); reflexivity. }
    split.
    { rewrite Hstart', Hobj, Hstart. cbn. reflexivity. }
    intros _. destruct rest as [|cr' rest'].
    + cbn in Hrest. injection Hrest as <-. rewrite Hobj. eauto.
    + apply Hobj'. discriminate.
Qed.

Lemma verifyGroup_loop_chained rv key prevStart ls (group : list string) ls' :
  verifyGroup_loop rv key prevStart ls group = Ok ls' ->
  (forall cr,
     head group = Some cr ->
     exists ro algorithm,
       receiptAndAlgorithm rv (expandDEPReceipt cr) = Some (ro, algorithm)
       /\ previousChain ro
          = b64encode
              (chain algorithm ro
                 (if bool_decide (is_Some (ls_prevObj ls)) then ls_prev ls
                  else if truthy prevStart then prevStart else ls_prev ls)))
  /\ (forall (i : nat) cr cr',
        group !! i = Some cr -> group !! S i = Some cr' ->
        exists ro algorithm,
          receiptAndAlgorithm rv (expandDEPReceipt cr') = Some (ro, algorithm)
          /\ previousChain ro
             = b64encode (chain algorithm ro (Some (expandDEPReceipt cr)))).
Proof.
  revert ls. induction group as [|cr0 rest IH]; intros ls; cbn [verifyGroup_loop].
  - intros _. split; [discriminate|]. intros i cr cr' Hi. discriminate.
  - intros Hok. apply bind_Ok in Hok as (ls1 & Hone & Hrest).
    apply verifyGroup_receipt_trace in Hone
      as (ro & algorithm & prev & Hro & Hobj & Hprev & _ & _ & _ & _ & -> & Hchain).
    destruct (IH _ Hrest) as [Hhead Hpairs].
    rewrite Hobj, Hprev in Hhead. cbn in Hhead.
    split.
    + intros cr [= <-]. eauto.
    + intros [|i] cr cr' Hi Hj; cbn in Hi, Hj.
      * injection Hi as <-. apply Hhead. destruct rest; [discriminate|].
        cbn in *. congruence.
      * eapply Hpairs; eassumption.
Qed.

Lemma verifyGroup_Ok (group : list string) rv key prevStart st used st' used' :
  verifyGroup group rv key prevStart st used = Ok (st', used') ->
  exists (prevObj : option Receipt) ls',
    bool_decide (is_Some prevObj) = truthy (lastReceiptJWS st)
    /\ verifyGroup_loop rv key prevStart
         {| ls_state := st; ls_used := used;
            ls_prev := lastReceiptJWS st; ls_prevObj := prevObj |} group
       = Ok ls'
    /\ st' = set_lastReceiptJWS (ls_prev ls') (ls_state ls')
    /\ used' = ls_used ls'.
Proof.
  unfold verifyGroup. intros Hok.
  apply bind_Ok in Hok as (prevObj & Hprev & Hok).
  apply bind_Ok in Hok as (ls' & Hloop & [= <- <-]).
  exists prevObj, ls'. split; [|auto].
  destruct (truthy (lastReceiptJWS st)).
  - inv_all_ok. reflexivity.
  - injection Hprev as <-. reflexivity.
Qed.

(** The used IDs an accepted group returns are the caller's and the IDs
    of its receipts. *)
Theorem accepted_group_used_ids (group : list string) rv key prevStart st used
    st' used' :
  verifyGroup group rv key prevStart st used = Ok (st', used') ->
  exists ros,
    receiptObjects rv group = Some ros
    /\ used' = used ∪ list_to_set (receiptId <$> ros).
Proof.
  intros Hok. apply verifyGroup_Ok in Hok as (prevObj & ls' & _ & Hloop & _ & ->).
  apply verifyGroup_loop_trace in Hloop as (ros & Hros & Hused & _).
  exists ros. auto.
Qed.

(** The turnover counter an accepted group returns is the caller's plus,
    when a key is given, what the receipts that are no dummies add;
    without a key it is the caller's. *)
Theorem accepted_group_turnover (group : list string) rv key prevStart st used
    st' used' :
  verifyGroup group rv key prevStart st used = Ok (st', used') ->
  exists ros,
    receiptObjects rv group = Some ros
    /\ lastTurnoverCounter st'
       = lastTurnoverCounter st
         + (if truthy_bytes key then foldr Z.add 0 (turnoverDelta <$> ros)
            else 0).
Proof.
  intros Hok. apply verifyGroup_Ok in Hok as (prevObj & ls' & _ & Hloop & -> & _).
  apply verifyGroup_loop_trace in Hloop as (ros & Hros & _ & Hcount & _).
  exists ros. auto.
Qed.

(** The register state an accepted group returns holds the JWS of the
    group's last receipt as last receipt (the caller's for an empty
    group), and as start receipt the caller's when the caller's state
    held a previous receipt, the group's first receipt otherwise. *)
Theorem accepted_group_register_state (group : list string) rv key prevStart
    st used st' used' :
  verifyGroup group rv key prevStart st used = Ok (st', used') ->
  lastReceiptJWS st'
  = from_option (fun cr => Some (expandDEPReceipt cr)) (lastReceiptJWS st)
      (last group)
  /\ startReceiptJWS st'
     = (if truthy (lastReceiptJWS st) then startReceiptJWS st
        else from_option (fun cr => Some (expandDEPReceipt cr))
               (startReceiptJWS st) (head group)).
Proof.
  intros Hok. apply verifyGroup_Ok in Hok as (prevObj & ls' & Hp & Hloop & -> & _).
  apply verifyGroup_loop_trace in Hloop
    as (ros & _ & _ & _ & _ & Hprev & Hstart & _).
  cbn in *. rewrite Hp in Hstart. auto.
Qed.

(** An accepted group is an unbroken chain: every receipt after the
    first carries the chain value of the JWS right before it, and the
    first that of the register state's last receipt, of the cluster
    previous-start when the state has none, or of no JWS at all. *)
Theorem accepted_group_is_chained (group : list string) rv key prevStart st
    used st' used' :
  verifyGroup group rv key prevStart st used = Ok (st', used') ->
  (forall cr,
     head group = Some cr ->
     exists ro algorithm,
       receiptAndAlgorithm rv (expandDEPReceipt cr) = Some (ro, algorithm)
       /\ previousChain ro
          = b64encode (chain algorithm ro (firstPrevious prevStart st)))
  /\ (forall (i : nat) cr cr',
        group !! i = Some cr -> group !! S i = Some cr' ->
        exists ro algorithm,
          receiptAndAlgorithm rv (expandDEPReceipt cr') = Some (ro, algorithm)
          /\ previousChain ro
             = b64encode (chain algorithm ro (Some (expandDEPReceipt cr)))).
Proof.
  intros Hok. apply verifyGroup_Ok in Hok as (prevObj & ls' & Hp & Hloop & _).
  apply verifyGroup_loop_chained in Hloop as [Hhead Hpairs].
  cbn in Hhead. rewrite Hp in Hhead. split; [exact Hhead|exact Hpairs].
Qed.

End AcceptedGroups.

(** ** Verifying a group in two calls *)

Section Continuation.
Context `{CryptoI} `{BuiltinsI}.
Context {Receipt ReceiptVerifier Cert KeyStore ClusterState : Type}.
Context `{ReceiptI Receipt} `{VerifierI Receipt ReceiptVerifier}.
Context `{KeyStoreI Cert KeyStore ReceiptVerifier} `{StateI ClusterState}.

Implicit Types (rv : ReceiptVerifier) (key : option bytes)
  (prevStart prev : option string) (ls : LoopState Receipt)
  (used : gset string) (st rState : CashRegisterState) (ro : Receipt)
  (algorithm : AlgorithmI Receipt) (keyStore : KeyStore)
  (v : option string).

Lemma verifySignature_lastReceiptJWS rv (r : string) st
    (prevObj : option Receipt) v :
  verifySignature rv r (set_lastReceiptJWS v st) prevObj
  = (let* '(st1, verified) := verifySignature rv r st prevObj in
     Ok (set_lastReceiptJWS v st1, verified)).
Proof.
  unfold verifySignature.
  destruct (verifyJWS rv r) as [[ro algorithm]|e].
  - destruct (_ && _); [|reflexivity]. cbn.
    destruct (needRestoreReceipt st); [reflexivity|].
    destruct (from_option isSignedBroken false prevObj); reflexivity.
  - destruct e; reflexivity.
Qed.

Lemma recoverUnsigned_lastReceiptJWS (r : string) st (prevObj : option Receipt)
    verified v :
  recoverUnsigned r (set_lastReceiptJWS v st) prevObj verified
  = recoverUnsigned r st prevObj verified.
Proof. reflexivity. Qed.

Lemma checkInitialReceipt_lastReceiptJWS (r : string) ro prevStart st prev
    (prevObj : option Receipt) v :
  checkInitialReceipt r ro prevStart (set_lastReceiptJWS v st) prev prevObj
  = (let* '(st1, prev1, prevObj1) :=
       checkInitialReceipt r ro prevStart st prev prevObj in
     Ok (set_lastReceiptJWS v st1, prev1, prevObj1)).
Proof.
  unfold checkInitialReceipt. destruct prevObj as [p|]; [reflexivity|].
  destruct (raise_if (negb (isNull ro)) _); [|reflexivity]. cbn.
  destruct (raise_if (isDummy ro || isReversal ro) _); [|reflexivity]. cbn.
  destruct (if truthy prevStart then _ else _) as [[prev1 prevObj1]|e];
    reflexivity.
Qed.

Lemma checkChain_lastReceiptJWS (r : string) ro prev algorithm prevStart st v :
  checkChain r ro prev algorithm prevStart (set_lastReceiptJWS v st)
  = checkChain r ro prev algorithm prevStart st.
Proof. reflexivity. Qed.

Lemma checkTurnoverCounter_lastReceiptJWS ro key algorithm st v :
  checkTurnoverCounter ro key algorithm (set_lastReceiptJWS v st)
  = (let* st1 := checkTurnoverCounter ro key algorithm st in
     Ok (set_lastReceiptJWS v st1)).
Proof.
  unfold checkTurnoverCounter.
  destruct (negb (isDummy ro)); [|reflexivity].
  destruct (truthy_bytes key); [|reflexivity].
  destruct (int_of_round _) as [cents|e]; [|reflexivity]. cbn.
  destruct (if negb (isReversal ro) then _ else _); reflexivity.
Qed.

(** The loop neither reads nor writes [lastReceiptJWS]. *)
Lemma verifyGroup_receipt_lastReceiptJWS rv key prevStart ls (cr : string) v :
  verifyGroup_receipt rv key prevStart (with_lastReceiptJWS v ls) cr
  = (let* ls' := verifyGroup_receipt rv key prevStart ls cr in
     Ok (with_lastReceiptJWS v ls')).
Proof.
  unfold verifyGroup_receipt, with_lastReceiptJWS.
  cbn [ls_state ls_used ls_prev ls_prevObj].
  rewrite verifySignature_lastReceiptJWS.
  destruct (verifySignature _ _ _ _) as [[st1 verified]|e]; [|reflexivity].
  cbn [bind]. rewrite recoverUnsigned_lastReceiptJWS.
  destruct (recoverUnsigned _ _ _ _) as [[ro algorithm]|e]; [|reflexivity].
  cbn [bind]. rewrite checkInitialReceipt_lastReceiptJWS.
  destruct (checkInitialReceipt _ _ _ _ _ _) as [[[st2 prev1] prevObj1]|e];
    [|reflexivity].
  cbn [bind]. destruct (checkAgainstPrevious _ _ _); [|reflexivity].
  cbn [bind]. rewrite checkChain_lastReceiptJWS.
  destruct (checkChain _ _ _ _ _ _); [|reflexivity].
  cbn [bind]. rewrite checkTurnoverCounter_lastReceiptJWS.
  destruct (checkTurnoverCounter _ _ _ _); reflexivity.
Qed.

Lemma verifyGroup_loop_lastReceiptJWS rv key prevStart ls
    (group : list string) v :
  verifyGroup_loop rv key prevStart (with_lastReceiptJWS v ls) group
  = (let* ls' := verifyGroup_loop rv key prevStart ls group in
     Ok (with_lastReceiptJWS v ls')).
Proof.
  revert ls. induction group as [|cr rest IH]; intros ls; cbn [verifyGroup_loop].
  - reflexivity.
  - rewrite verifyGroup_receipt_lastReceiptJWS.
    destruct (verifyGroup_receipt rv key prevStart ls cr) as [ls1|e];
      [|reflexivity].
    cbn [bind]. apply IH.
Qed.

Lemma verifyGroup_loop_app rv key prevStart ls (group1 group2 : list string) :
  verifyGroup_loop rv key prevStart ls (group1 ++ group2)
  = (let* ls1 := verifyGroup_loop rv key prevStart ls group1 in
     verifyGroup_loop rv key prevStart ls1 group2).
Proof.
  revert ls. induction group1 as [|cr rest IH]; intros ls; cbn.
  - reflexivity.
  - destruct (verifyGroup_receipt rv key prevStart ls cr); cbn;
      [apply IH|reflexivity].
Qed.

(** After a receipt was accepted, its JWS parses to the receipt object
    the loop holds. *)
Lemma verifyGroup_loop_parses rv key prevStart ls (group : list string) ls' :
  verifier_parses rv ->
  Forall (fun cr => expandDEPReceipt cr <> "") group ->
  group <> [] ->
  verifyGroup_loop rv key prevStart ls group = Ok ls' ->
  exists (r : string) ro algorithmPrefix,
    ls_prev ls' = Some r /\ r <> "" /\ ls_prevObj ls' = Some ro
    /\ fromJWSString r = Ok (ro, algorithmPrefix).
Proof.
  intros Hparses Hne. revert ls.
  induction Hne as [|cr rest Hcr Hrest IH]; intros ls Hnil; [contradiction|].
  cbn [verifyGroup_loop]. intros Hok.
  apply bind_Ok in Hok as (ls1 & Hone & Hloop).
  destruct rest as [|cr' rest'].
  - cbn in Hloop. injection Hloop as <-.
    apply verifyGroup_receipt_trace in Hone
      as (ro & algorithm & prev & Hro & Hobj & Hprev & _).
    unfold receiptAndAlgorithm in Hro.
    destruct (verifyJWS rv (expandDEPReceipt cr)) as [[ro' algorithm']|e] eqn:Hjws.
    + injection Hro as -> ->. apply Hparses in Hjws as [prefix Hparse].
      exists (expandDEPReceipt cr), ro, prefix. auto.
    + assert (Hparse : exists prefix,
                 fromJWSString (expandDEPReceipt cr) = Ok (ro, prefix)).
      { destruct (fromJWSString (expandDEPReceipt cr)) as [[ro' prefix]|e'];
          [|destruct e; discriminate].
        exists prefix. destruct (ALGORITHMS prefix); destruct e; try discriminate;
          cbn in Hro; congruence. }
      destruct Hparse as [prefix Hparse].
      exists (expandDEPReceipt cr), ro, prefix. auto.
  - eapply IH; [discriminate|exact Hloop].
Qed.

Lemma verifyGroup_app (group1 group2 : list string) rv key prevStart st used :
  verifier_parses rv ->
  Forall (fun cr => expandDEPReceipt cr <> "") group1 ->
  verifyGroup (group1 ++ group2) rv key prevStart st used
  = (let* '(st1, used1) := verifyGroup group1 rv key prevStart st used in
     verifyGroup group2 rv key prevStart st1 used1).
Proof.
  intros Hparses Hne. destruct group1 as [|cr rest].
  - cbn [app]. unfold verifyGroup at 2. cbn [verifyGroup_loop].
    destruct (if truthy (lastReceiptJWS st) then _ else _) as [prevObj|e] eqn:Hp.
    + cbn. destruct st; reflexivity.
    + cbn. unfold verifyGroup. rewrite Hp. reflexivity.
  - unfold verifyGroup at 1 2.
    destruct (if truthy (lastReceiptJWS st) then _ else _) as [prevObj|e];
      [|reflexivity].
    cbn [bind]. rewrite verifyGroup_loop_app.
    destruct (verifyGroup_loop _ _ _ _ (cr :: rest)) as [ls1|e] eqn:Hloop;
      [|reflexivity].
    cbn [bind].
    destruct (verifyGroup_loop_parses _ _ _ _ _ _ Hparses Hne ltac:(discriminate)
                Hloop) as (r & ro & prefix & Hprev & Hr & Hobj & Hparse).
    unfold verifyGroup. cbn [lastReceiptJWS set_lastReceiptJWS].
    rewrite Hprev. cbn [truthy default].
    apply String.eqb_neq in Hr. rewrite Hr. cbn [negb].
    change (Datatypes.id r) with r. rewrite Hparse.
    cbn [lift_receipt bind].
    pose proof (verifyGroup_loop_lastReceiptJWS rv key prevStart ls1 group2
                  (Some r)) as Hcomm.
    unfold with_lastReceiptJWS in Hcomm at 1. rewrite Hprev, Hobj in Hcomm.
    rewrite Hcomm.
    destruct (verifyGroup_loop rv key prevStart ls1 group2) as [ls2|e];
      reflexivity.
Qed.

(** Verifying [group1 ++ group2] in one call is verifying [group1] and
    then [group2] from the state and the used IDs the first call returns,
    when the verifier's receipt objects are the parser's and no JWS of
    [group1] is the empty string. *)
Theorem verifyGroup_in_two_calls (group1 group2 : list string) rv key
    prevStart st used :
  verifier_parses rv ->
  Forall (fun cr => expandDEPReceipt cr <> "") group1 ->
  verifyGroup (group1 ++ group2) rv key prevStart st used
  = (let* '(st1, used1) := verifyGroup group1 rv key prevStart st used in
     verifyGroup group2 rv key prevStart st1 used1).
Proof. apply verifyGroup_app. Qed.

End Continuation.

(** ** What [verifyGroup] refuses *)

Section Refusals.
Context `{CryptoI} `{BuiltinsI}.
Context {Receipt ReceiptVerifier Cert KeyStore ClusterState : Type}.
Context `{ReceiptI Receipt} `{VerifierI Receipt ReceiptVerifier}.
Context `{KeyStoreI Cert KeyStore ReceiptVerifier} `{StateI ClusterState}.

Implicit Types (rv : ReceiptVerifier) (key : option bytes)
  (prevStart prev : option string) (ls : LoopState Receipt)
  (used : gset string) (st rState : CashRegisterState) (ro : Receipt)
  (algorithm : AlgorithmI Receipt) (keyStore : KeyStore).

(** An empty group leaves the register state and the used IDs as they
    are; the last receipt of the state is parsed all the same, and an
    exception of the parser ends the call. *)
Theorem verifyGroup_empty_group rv key prevStart st used :
  verifyGroup [] rv key prevStart st used
  = (if truthy (lastReceiptJWS st)
     then
       let* '(prevObj, algorithmPrefix) :=
         lift_receipt (fromJWSString (default "" (lastReceiptJWS st))) in
       Ok (st, used)
     else Ok (st, used)).
Proof.
  unfold verifyGroup. cbn [verifyGroup_loop].
  destruct (truthy (lastReceiptJWS st)).
  - destruct (lift_receipt _) as [[prevObj prefix]|e]; [|reflexivity].
    cbn. destruct st; reflexivity.
  - cbn. destruct st; reflexivity.
Qed.

(** A register's first receipt must be signed: when the register state
    holds no previous receipt and the verifier reports a failed signature
    device or an unsigned null receipt for the first receipt of the
    group, [verifyGroup] raises
    [SignatureSystemFailedOnInitialReceiptException], with or without a
    cluster previous-start. *)
Theorem unsigned_first_receipt_is_refused (cr : string) (rest : list string)
    rv key prevStart st used ro (algorithmPrefix : string) :
  truthy (lastReceiptJWS st) = false ->
  verifyJWS rv (expandDEPReceipt cr) = Raise SignatureSystemFailedException
  \/ verifyJWS rv (expandDEPReceipt cr) = Raise UnsignedNullReceiptException ->
  fromJWSString (expandDEPReceipt cr) = Ok (ro, algorithmPrefix) ->
  verifyGroup (cr :: rest) rv key prevStart st used
  = Raise (SignatureSystemFailedOnInitialReceiptException (receiptId ro)).
Proof.
  intros Hlast Hjws Hparse.
  rewrite (verifyGroup_first _ _ _ _ _ _ _ Hlast).
  unfold verifyGroup_receipt, initialLoopState, verifySignature.
  cbn [ls_state ls_used ls_prev ls_prevObj].
  destruct Hjws as [-> | ->]; cbn; rewrite Hparse; reflexivity.
Qed.

(** Every exception of the receipt verifier other than the two the loop
    catches ends the verification unchanged, whatever the loop state. *)
Theorem verifier_exceptions_pass_through rv key prevStart ls (cr : string) e :
  verifyJWS rv (expandDEPReceipt cr) = Raise e ->
  e <> SignatureSystemFailedException ->
  e <> UnsignedNullReceiptException ->
  forall (before after : list string) ls0,
    verifyGroup_loop rv key prevStart ls0 before = Ok ls ->
    verifyGroup_loop rv key prevStart ls0 (before ++ cr :: after)
    = Raise (ReceiptError e).
Proof.
  intros Hjws Hs Hu before after ls0 Hbefore.
  rewrite verifyGroup_loop_app, Hbefore. cbn [bind verifyGroup_loop].
  unfold verifyGroup_receipt, verifySignature. rewrite Hjws.
  destruct e; try contradiction; reflexivity.
Qed.

(** The checks against the previous receipt [previous] (the receipt
    before, or the cluster previous-start for a register's first
    receipt), for a receipt whose ID is new: a register ID other than
    that of [previous] raises [ChangingRegisterIdException]; with the same
    register ID, an operator tag that is AT0 when that of [previous] is
    not, or the other way round, raises [ChangingSystemTypeException]. *)
Theorem previous_receipt_checks rv key prevStart ls (cr : string) st1
    verified ro algorithm st prev (previous : Receipt) :
  verifySignature rv (expandDEPReceipt cr) (ls_state ls) (ls_prevObj ls)
  = Ok (st1, verified) ->
  recoverUnsigned (expandDEPReceipt cr) st1 (ls_prevObj ls) verified
  = Ok (ro, algorithm) ->
  checkInitialReceipt (expandDEPReceipt cr) ro prevStart st1 (ls_prev ls)
    (ls_prevObj ls)
  = Ok (st, prev, Some previous) ->
  receiptId ro ∉ ls_used ls ->
  (registerId previous <> registerId ro ->
   verifyGroup_receipt rv key prevStart ls cr
   = Raise (ChangingRegisterIdException (receiptId ro)))
  /\ (registerId previous = registerId ro ->
      (zda previous = "AT0" <-> zda ro <> "AT0") ->
      verifyGroup_receipt rv key prevStart ls cr
      = Raise (ChangingSystemTypeException (receiptId ro))).
Proof.
  intros Hsig Hrec Hini Hnew.
  unfold verifyGroup_receipt. rewrite Hsig. cbn [bind]. rewrite Hrec.
  cbn [bind]. rewrite Hini. cbn [bind]. unfold checkAgainstPrevious.
  rewrite bool_decide_eq_false_2 by exact Hnew. cbn [raise_if bind].
  split.
  - intros Hreg. apply String.eqb_neq in Hreg. rewrite Hreg. reflexivity.
  - intros Hreg Hzda. rewrite Hreg, String.eqb_refl. cbn [negb raise_if bind].
    destruct (String.eqb_spec (zda previous) "AT0") as [Hp|Hp],
             (String.eqb_spec (zda ro) "AT0") as [Hr|Hr]; cbn.
    + exfalso. apply (proj1 Hzda Hp Hr).
    + reflexivity.
    + reflexivity.
    + exfalso. apply Hp. apply Hzda. exact Hr.
Qed.

(** In a cluster, the first receipt of a register is checked against the
    start receipt of the register before it as against a previous
    receipt: when the two differ in their register ID, [verifyGroup]
    raises [ChangingRegisterIdException]. *)
Theorem cluster_first_receipt_register_id (cr : string) (rest : list string)
    rv key prevStart st used ro algorithm (previous : Receipt)
    (algorithmPrefix : string) :
  truthy (lastReceiptJWS st) = false ->
  truthy prevStart = true ->
  verifyJWS rv (expandDEPReceipt cr) = Ok (ro, algorithm) ->
  isNull ro = true -> isDummy ro || isReversal ro = false ->
  zda ro = "AT0" ->
  fromJWSString (default "" prevStart) = Ok (previous, algorithmPrefix) ->
  zda previous = "AT0" ->
  receiptId ro ∉ used ->
  registerId previous <> registerId ro ->
  verifyGroup (cr :: rest) rv key prevStart st used
  = Raise (ChangingRegisterIdException (receiptId ro)).
Proof.
  intros Hlast Hps Hjws Hnull Hplain Hzda Hparse Hzp Hnew Hreg.
  rewrite (verifyGroup_first _ _ _ _ _ _ _ Hlast).
  unfold verifyGroup_receipt, initialLoopState, verifySignature.
  cbn [ls_state ls_used ls_prev ls_prevObj]. rewrite Hjws.
  cbn [bool_decide decide_rel is_Some_dec andb bind recoverUnsigned].
  unfold checkInitialReceipt. rewrite Hnull, Hplain, Hps, Hzda, Hparse.
  cbn. rewrite Hzp. cbn.
  rewrite bool_decide_eq_false_2 by exact Hnew. cbn.
  apply String.eqb_neq in Hreg. rewrite Hreg. reflexivity.
Qed.

End Refusals.

(** ** Packaging and whole-file verification *)

Section Packaging.
Context `{CryptoI} `{BuiltinsI}.
Context {Receipt ReceiptVerifier Cert KeyStore ClusterState : Type}.
Context `{ReceiptI Receipt} `{VerifierI Receipt ReceiptVerifier}.
Context `{KeyStoreI Cert KeyStore ReceiptVerifier} `{StateI ClusterState}.

Implicit Types (rv : ReceiptVerifier) (key : option bytes)
  (prevStart prev : option string)
  (used : gset string) (st rState : CashRegisterState) (ro : Receipt)
  (keyStore : KeyStore) (chunk : list (DEPGroup Cert))
  (chunks : list (list (DEPGroup Cert)))
  (pkg : list (GroupWithVerifier ReceiptVerifier)).

Lemma packageGroupsWithCerts_Ok chunk keyStore pkg :
  packageGroupsWithCerts chunk keyStore = Ok pkg
  <-> Forall (certified keyStore) chunk
      /\ pkg = groupWithVerifier keyStore <$> chunk.
Proof.
  revert pkg. induction chunk as [|[[recs cert] chain] rest IH]; intros pkg;
    cbn [packageGroupsWithCerts].
  - split.
    + intros [= <-]. split; [constructor|reflexivity].
    + intros [_ ->]. reflexivity.
  - destruct cert as [c|].
    + split.
      * intros Hok. apply bind_Ok in Hok as ([] & Hcert & Hok).
        apply bind_Ok in Hok as (pkg' & Hrest & [= <-]).
        apply IH in Hrest as [Hall ->]. split; [|reflexivity].
        constructor; [|exact Hall]. exists c. auto.
      * intros [Hall ->]. apply Forall_cons in Hall as [(c' & [= <-] & Hcert) Hall].
        rewrite Hcert. cbn [bind].
        rewrite (proj2 (IH _) (conj Hall eq_refl)). reflexivity.
    + split; [discriminate|]. intros [Hall _].
      apply Forall_cons in Hall as [(c' & Hc & _) _]. discriminate.
Qed.

Lemma packageChunkWithVerifiers_Ok chunk keyStore pkg :
  packageChunkWithVerifiers chunk keyStore = Ok pkg
  <-> ((exists recs chain, chunk = [(recs, None, chain)])
       \/ Forall (certified keyStore) chunk)
      /\ pkg = groupWithVerifier keyStore <$> chunk.
Proof.
  unfold packageChunkWithVerifiers.
  destruct chunk as [|[[recs cert] chain] [|g rest]].
  - rewrite packageGroupsWithCerts_Ok. split.
    + intros [Hall ->]. auto.
    + intros [_ ->]. split; [constructor|reflexivity].
  - destruct cert as [c|]; cbn.
    + split.
      * intros Hok. apply bind_Ok in Hok as (rv & Hrv & [= <-]).
        apply bind_Ok in Hrv as ([] & Hcert & [= <-]).
        split; [|reflexivity]. right. constructor; [|constructor].
        exists c. auto.
      * intros [[(recs' & chain' & [=])|Hall] ->].
        apply Forall_cons in Hall as [(c' & [= <-] & Hcert) _].
        rewrite Hcert. reflexivity.
    + split.
      * intros [= <-]. split; [|reflexivity]. left. eauto.
      * intros [_ ->]. reflexivity.
  - rewrite packageGroupsWithCerts_Ok. split.
    + intros [Hall ->]. auto.
    + intros [[(recs' & chain' & [=])|Hall] ->]. auto.
Qed.

(** [packageChunkWithVerifiers] succeeds in two cases only: the chunk is
    one group without a certificate, which gets the verifier of the key
    store; or every group of the chunk carries a certificate that
    [verifyCert] accepts, and gets the verifier of its certificate. The
    package holds the receipts of the groups, in order. *)
Theorem packageChunkWithVerifiers_accepts chunk keyStore pkg :
  packageChunkWithVerifiers chunk keyStore = Ok pkg
  <-> ((exists recs chain, chunk = [(recs, None, chain)])
       \/ Forall (certified keyStore) chunk)
      /\ pkg = groupWithVerifier keyStore <$> chunk.
Proof. apply packageChunkWithVerifiers_Ok. Qed.

(** The groups in a chunk of several: the first without a certificate
    raises [NoCertificateGivenException] when the certificates of the
    groups before it are accepted. *)
Theorem packageChunkWithVerifiers_missing_certificate
    (before after : list (DEPGroup Cert)) (recs : list string)
    (chain : list Cert) keyStore :
  before ++ after <> [] ->
  Forall (certified keyStore) before ->
  packageChunkWithVerifiers (before ++ (recs, None, chain) :: after) keyStore
  = Raise NoCertificateGivenException.
Proof.
  intros Hmore Hbefore.
  assert (Hgroups : packageGroupsWithCerts
                      (before ++ (recs, None, chain) :: after) keyStore
                    = Raise NoCertificateGivenException).
  { clear Hmore. induction Hbefore as [|[[recs' cert'] chain'] rest Hg Hrest IH];
      [reflexivity|].
    destruct Hg as (c & -> & Hcert). cbn. rewrite Hcert. cbn.
    rewrite IH. reflexivity. }
  unfold packageChunkWithVerifiers.
  destruct before as [|g1 [|g2 before']]; cbn [app] in *.
  - destruct after; [contradiction|exact Hgroups].
  - destruct g1 as [[recs1 cert1] chain1]. exact Hgroups.
  - destruct g1 as [[recs1 cert1] chain1]. exact Hgroups.
Qed.

Lemma map_exc_Ok {A B} (f : A -> exc B) (l : list A) (bs : list B) :
  map_exc f l = Ok bs <-> Forall2 (fun a b => f a = Ok b) l bs.
Proof.
  revert bs. induction l as [|a l IH]; intros bs; cbn.
  - split.
    + intros [= <-]. constructor.
    + intros Hf. apply Forall2_nil_inv_l in Hf as ->. reflexivity.
  - split.
    + intros Hok. apply bind_Ok in Hok as (b & Hb & Hok).
      apply bind_Ok in Hok as (bs' & Hl & [= <-]).
      constructor; [exact Hb|]. apply IH, Hl.
    + intros Hf. apply Forall2_cons_inv_l in Hf as (b & bs' & Hb & Hl & ->).
      rewrite Hb. cbn. rewrite (proj2 (IH _) Hl). reflexivity.
Qed.

(** With certificates throughout, the inner loop of [verifyDEP] is
    [verifyGroupsWithVerifiers]. *)
Lemma verifyDEP_groups_certified chunk keyStore key prevStart
    (one_group : option bool) rState used :
  one_group <> Some true ->
  Forall (certified keyStore) chunk ->
  (let* '(one_group, rState, used) :=
     verifyDEP_groups chunk keyStore key prevStart (one_group, rState, used) in
   Ok (rState, used))
  = verifyGroupsWithVerifiers (groupWithVerifier keyStore <$> chunk) key
      prevStart rState used.
Proof.
  intros Hone Hall. revert one_group rState used Hone.
  induction Hall as [|[[recs cert] chain] rest Hg Hrest IH];
    intros one_group rState used Hone; [reflexivity|].
  destruct Hg as (c & -> & Hcert).
  cbn [verifyDEP_groups fmap list_fmap groupWithVerifier
       verifyGroupsWithVerifiers].
  rewrite bool_decide_eq_false_2 by exact Hone. cbn [raise_if bind].
  rewrite Hcert. cbn [bind].
  destruct (verifyGroup recs (ReceiptVerifier_fromCert c) key prevStart rState
              used) as [[rState1 used1]|e]; [|reflexivity].
  cbn [bind]. apply IH. discriminate.
Qed.

(** On a DEP whose groups all carry a certificate that [verifyCert]
    accepts, [verifyDEP] is [verifyGroupsWithVerifiers] over all groups in
    order, each with the verifier of its certificate, from the register
    state and the used IDs of the cluster state. *)
Theorem verifyDEP_with_certificates chunks keyStore key
    (state : option ClusterState) (cashRegisterIdx : option Z) :
  Forall (fun chunk => chunk <> []) chunks ->
  Forall (certified keyStore) (concat chunks) ->
  verifyDEP chunks keyStore key state cashRegisterIdx
  = (let state := default ClusterState_new state in
     let* '(prevStart, rState, usedRecIds) :=
       getCashRegisterInfo state cashRegisterIdx in
     let* '(rState, usedRecIds) :=
       verifyGroupsWithVerifiers (groupWithVerifier keyStore <$> concat chunks)
         key prevStart rState usedRecIds in
     Ok (updateCashRegisterInfo state cashRegisterIdx rState usedRecIds)).
Proof.
  intros Hne Hall. unfold verifyDEP. cbv zeta.
  destruct (getCashRegisterInfo _ _) as [[[prevStart rState] used]|e];
    [|reflexivity].
  cbn [bind]. rewrite (verifyDEP_chunks_concat _ _ _ _ _ Hne).
  rewrite <- (verifyDEP_groups_certified _ _ _ _ None) by (discriminate || exact Hall).
  destruct (verifyDEP_groups _ _ _ _ _) as [[[og s] u]|e]; reflexivity.
Qed.

End Packaging.

(** ** More on the orchestrator *)

Section OrchestratorEdges.
Context `{CryptoI} `{BuiltinsI}.
Context {Receipt ReceiptVerifier Cert KeyStore ClusterState : Type}.
Context `{ReceiptI Receipt} `{VerifierI Receipt ReceiptVerifier}.
Context `{KeyStoreI Cert KeyStore ReceiptVerifier} `{StateI ClusterState}.

Implicit Types (rv : ReceiptVerifier) (key : option bytes)
  (prevStart prev : option string)
  (used w : gset string) (st rState : CashRegisterState) (ro : Receipt)
  (keyStore : KeyStore)
  (pkgs : list (list (GroupWithVerifier ReceiptVerifier))).

(** The empty inputs. A DEP without chunks is no input [verifyParsedDEP]
    handles: once the register info is fetched there is no result to
    collect, and the call ends in Python's [AttributeError], for every
    number of workers. [verifyDEP] writes the register info back as it
    fetched it; an empty chunk makes it raise the exception that says
    THIS IS A BUG. *)
Theorem empty_DEP_edges keyStore key (state : option ClusterState)
    (cashRegisterIdx : option Z) (nprocs : nat)
    (rest : list (list (DEPGroup Cert))) :
  verifyParsedDEP [] keyStore key state cashRegisterIdx nprocs
  = (let* info :=
       getCashRegisterInfo (default ClusterState_new state) cashRegisterIdx in
     Raise PyAttributeError)
  /\ verifyDEP [] keyStore key state cashRegisterIdx
     = (let state := default ClusterState_new state in
        let* '(prevStart, rState, usedRecIds) :=
          getCashRegisterInfo state cashRegisterIdx in
        Ok (updateCashRegisterInfo state cashRegisterIdx rState usedRecIds))
  /\ verifyDEP ([] :: rest) keyStore key state cashRegisterIdx
     = (let* info :=
          getCashRegisterInfo (default ClusterState_new state)
            cashRegisterIdx in
        Raise (PyException "THIS IS A BUG")).
Proof.
  unfold verifyParsedDEP, verifyDEP. cbv zeta.
  destruct (getCashRegisterInfo _ _) as [[[prevStart rState] used]|e];
    repeat split; reflexivity.
Qed.

Lemma getChunksForProcs_from_single {A} (allChunks : list A) :
  Forall (fun batch => length batch = 1%nat)
    (getChunksForProcs_from [] allChunks 1).
Proof.
  induction allChunks as [|chunk rest IH]; cbn; [constructor|].
  constructor; [reflexivity|exact IH].
Qed.

#[local] Arguments collectResults : simpl never.

Lemma workers_runChunks_single key prevStart pkgs rState :
  length pkgs = 1%nat ->
  map_exc verifyGroupsWithVerifiersTuple
    (prepareVerificationTuples pkgs key prevStart rState)
  = runChunks key prevStart rState pkgs.
Proof.
  destruct pkgs as [|pkg [|pkg' rest]]; try discriminate. intros _. cbn.
  destruct (verifyGroupsWithVerifiers pkg key prevStart rState ∅)
    as [[s u]|e]; reflexivity.
Qed.

(** With one chunk in every batch no projected register state is used. *)
Lemma loopOutcome_sequence_single
    (batches : list (list (list (DEPGroup Cert)))) keyStore key prevStart res
    rState used :
  Forall (fun batch => length batch = 1%nat) batches ->
  ok_of (loopOutcome batches keyStore key prevStart res rState used)
  = '(rState, used) ← ok_of (pending res rState used);
    chunksInSequence (concat batches) keyStore key prevStart rState used.
Proof.
  intros Hone. revert res rState used.
  induction Hone as [|batch rest Hb Hone IH]; intros res rState used.
  - unfold loopOutcome, chunksInSequence. cbn.
    destruct (pending res rState used) as [[s u]|e]; reflexivity.
  - unfold loopOutcome, chunksInSequence in *.
    cbn [verifyParsedDEP_loop concat].
    rewrite map_exc_app.
    destruct (map_exc (fun chunk => packageChunkWithVerifiers chunk keyStore)
                batch) as [pkgs_b|e] eqn:Eb; cbn;
      [|destruct (ok_of (pending res rState used)) as [[? ?]|]; reflexivity].
    fold (pending res rState used).
    destruct (pending res rState used) as [[s1 u1]|e]; cbn; [|reflexivity].
    rewrite IH. cbn [pending].
    rewrite workers_runChunks_single
      by (apply map_exc_length in Eb; congruence).
    rewrite ok_of_collectResults.
    destruct (map_exc (fun chunk => packageChunkWithVerifiers chunk keyStore)
                (concat rest)) as [pkgs_r|e] eqn:Er; cbn.
    2: { destruct (runChunks key prevStart s1 pkgs_b) as [rs_b|e'];
           cbn; [|reflexivity].
         destruct (last (map fst rs_b)); cbn; [|reflexivity].
         destruct (updateUsedReceiptIds_sets u1 (map snd rs_b)); cbn;
           reflexivity. }
    rewrite runChunks_app.
    destruct (runChunks key prevStart s1 pkgs_b) as [rs_b|e'] eqn:Erb;
      cbn; [|reflexivity].
    assert (Hnb : rs_b <> []).
    { apply runChunks_length in Erb. apply map_exc_length in Eb.
      destruct rs_b; [|discriminate]. destruct batch; [discriminate|].
      cbn in *. lia. }
    rewrite (last_lastState s1 rs_b Hnb). cbn.
    destruct (updateUsedReceiptIds_sets u1 (map snd rs_b)) as [u2|e'']
      eqn:Em; cbn;
      destruct (runChunks key prevStart (lastState s1 rs_b) pkgs_r)
        as [rs_r|e3]; cbn; try reflexivity;
      rewrite map_app, updateUsedReceiptIds_sets_app, Em, ?lastState_app;
      reflexivity.
Qed.

(** The run with one worker uses no projected register state: whatever
    [fromDEPGroup] does, a DEP it accepts ends in the cluster state that
    [verifyGroupsWithVerifiers] returns over all groups in order, from the
    register state and the used IDs of the caller's cluster state. *)
Theorem verifyParsedDEP_single_worker
    (allChunks : list (list (DEPGroup Cert))) keyStore key
    (state : option ClusterState) (cashRegisterIdx : option Z)
    (final : ClusterState) :
  verifyParsedDEP allChunks keyStore key state cashRegisterIdx 1 = Ok final ->
  verifySequentially allChunks keyStore key state cashRegisterIdx = Ok final.
Proof.
  unfold verifyParsedDEP, verifySequentially. cbv zeta.
  destruct (getCashRegisterInfo _ _) as [[[prevStart rState] used]|e];
    cbn [bind]; [|discriminate].
  intros Hone. apply bind_Ok in Hone as ([s u] & Hreg & [= <-]).
  assert (Hseq : chunksInSequence allChunks keyStore key prevStart rState used
                 = Some (s, u)).
  { unfold verifyParsedDEP_register, getChunksForProcs in Hreg.
    pose proof (loopOutcome_sequence_single
                  (getChunksForProcs_from [] allChunks 1) keyStore key
                  prevStart None rState used
                  (getChunksForProcs_from_single allChunks)) as Hout.
    rewrite getChunksForProcs_from_concat in Hout. cbn in Hout.
    rewrite <- Hout. unfold loopOutcome.
    destruct (verifyParsedDEP_loop _ _ _ _ _ _ _) as [[[res' s'] u']|e];
      [|discriminate].
    cbn [bind] in Hreg |- *. destruct res' as [res'|]; [|discriminate].
    cbn [pending]. rewrite Hreg. reflexivity. }
  unfold chunksInSequence in Hseq.
  destruct (map_exc _ allChunks) as [pkgs|e]; cbn in *; [|discriminate].
  destruct (runChunks key prevStart rState pkgs) as [results|e] eqn:Hr;
    cbn in *; [|discriminate].
  destruct (updateUsedReceiptIds_sets used (map snd results)) as [used'|e]
    eqn:Hm; cbn in *; [|discriminate].
  injection Hseq as <- <-.
  rewrite (runChunks_sequential _ _ _ _ _ _ _ Hr Hm). reflexivity.
Qed.

(** [prepareVerificationTuples] makes one argument tuple per package, in
    order, each with the key, the cluster previous-start and an empty set
    of used IDs. The first package starts from the caller's register
    state, every other from the state before it projected over the
    groups of the package before it. *)
Theorem prepareVerificationTuples_shape pkgs key prevStart rState :
  (fun '(pkg, key, prevStart, rState, used) => (pkg, key, prevStart, used))
    <$> prepareVerificationTuples pkgs key prevStart rState
  = (fun pkg => (pkg, key, prevStart, ∅)) <$> pkgs
  /\ (fun '(pkg, key, prevStart, rState, used) => rState)
       <$> prepareVerificationTuples pkgs key prevStart rState
     = removelast (rState :: projectPackages key rState pkgs)
  /\ (forall (i : nat) pkg pkg' st,
        pkgs !! i = Some pkg -> pkgs !! S i = Some pkg' ->
        prepareVerificationTuples pkgs key prevStart rState !! i
        = Some (pkg, key, prevStart, st, ∅) ->
        prepareVerificationTuples pkgs key prevStart rState !! S i
        = Some (pkg', key, prevStart, projectPackage key st pkg, ∅)).
Proof.
  split; [|split].
  - revert rState. induction pkgs as [|pkg rest IH]; intros rState;
      [reflexivity|].
    rewrite prepareVerificationTuples_cons. cbn. f_equal. apply IH.
  - revert rState. induction pkgs as [|pkg rest IH]; intros rState;
      [reflexivity|].
    rewrite prepareVerificationTuples_cons. cbn [fmap list_fmap].
    rewrite IH. cbn [projectPackages]. destruct rest; reflexivity.
  - revert rState. induction pkgs as [|pkg0 rest IH]; intros rState i pkg pkg'
      st Hi Hj; [discriminate|].
    rewrite prepareVerificationTuples_cons. destruct i as [|i].
    + cbn in Hi, Hj. injection Hi as <-. intros [= <-].
      destruct rest as [|pkg1 rest]; [discriminate|].
      injection Hj as <-. rewrite prepareVerificationTuples_cons. reflexivity.
    + cbn in Hi, Hj. cbn [lookup list_lookup]. apply (IH _ i); assumption.
Qed.

(** Used IDs the group does not bring are of no account: a group that is
    accepted is accepted with any further IDs in the caller's set that
    are not among those it returns, with the same register state. *)
Theorem verifyGroup_ignores_other_ids (group : list string) rv key prevStart
    rState used rState' used' w :
  verifyGroup group rv key prevStart rState used = Ok (rState', used') ->
  used' ## w ->
  verifyGroup group rv key prevStart rState (used ∪ w)
  = Ok (rState', used' ∪ w).
Proof. apply verifyGroup_frame. Qed.

End OrchestratorEdges.

(** ** More on the turnover counter of R1 *)

Lemma be_value_range (bs : bytes) :
  0 <= be_value bs < 2 ^ (8 * Z.of_nat (length bs)).
Proof.
  induction bs as [|b bs IH] using rev_ind.
  - cbn. lia.
  - rewrite be_value_snoc, length_app. cbn [length].
    replace (8 * Z.of_nat (length bs + 1)) with (8 * Z.of_nat (length bs) + 8)
      by lia.
    rewrite Z.pow_add_r by lia. change (2 ^ 8) with 256.
    pose proof (Z_of_byte_range b). nia.
Qed.

Lemma be_bytes_be_value (bs : bytes) : be_bytes (length bs) (be_value bs) = bs.
Proof.
  induction bs as [|b bs IH] using rev_ind.
  - reflexivity.
  - rewrite be_value_snoc, length_app. cbn [length].
    replace (length bs + 1)%nat with (S (length bs)) by lia.
    cbn [be_bytes]. pose proof (Z_of_byte_range b) as Hb.
    replace ((be_value bs * 256 + Z_of_byte b) / 256) with (be_value bs)
      by (apply Z.div_unique with (r := Z_of_byte b); lia).
    replace ((be_value bs * 256 + Z_of_byte b) mod 256) with (Z_of_byte b)
      by (apply Z.mod_unique with (q := be_value bs); lia).
    rewrite IH, byte_of_Z_of_byte. reflexivity.
Qed.

Lemma int_to_from_bytes (bs : bytes) :
  int_to_bytes (length bs) (int_from_bytes bs) = Some bs.
Proof.
  unfold int_to_bytes, int_from_bytes.
  set (m := 2 ^ (8 * Z.of_nat (length bs))).
  pose proof (be_value_range bs) as Hu. fold m in Hu.
  destruct (Z.leb_spec m (2 * be_value bs)) as [Hhigh|Hlow].
  - replace ((- m <=? 2 * (be_value bs - m)) && (2 * (be_value bs - m) <? m))
      with true by (symmetry; apply andb_true_intro; split;
                    [apply Z.leb_le|apply Z.ltb_lt]; lia).
    replace ((be_value bs - m) mod m) with (be_value bs)
      by (apply Z.mod_unique with (q := -1); lia).
    rewrite be_bytes_be_value. reflexivity.
  - replace ((- m <=? 2 * be_value bs) && (2 * be_value bs <? m))
      with true by (symmetry; apply andb_true_intro; split;
                    [apply Z.leb_le|apply Z.ltb_lt]; lia).
    rewrite Z.mod_small by lia. rewrite be_bytes_be_value. reflexivity.
Qed.

(** [to_bytes] and [from_bytes] are inverse to each other. *)
Lemma int_to_bytes_Some (size : nat) (n : Z) (bs : bytes) :
  int_to_bytes size n = Some bs <-> length bs = size /\ int_from_bytes bs = n.
Proof.
  split.
  - intros Hto. split; [|eapply int_from_to_bytes, Hto].
    unfold int_to_bytes in Hto. destruct (_ && _); [|discriminate].
    injection Hto as <-. apply be_bytes_length.
  - intros [<- <-]. apply int_to_from_bytes.
Qed.

Lemma int_to_bytes_None (size : nat) (n : Z) :
  (0 < size)%nat -> int_to_bytes size n = None <-> ~ representable size n.
Proof.
  intros Hsize. unfold int_to_bytes, representable.
  assert (Hp : 2 ^ (8 * Z.of_nat size) = 2 * 2 ^ (8 * Z.of_nat size - 1)).
  { rewrite <- Z.pow_succ_r by lia. f_equal. lia. }
  rewrite Hp.
  destruct (Z.leb_spec (- (2 * 2 ^ (8 * Z.of_nat size - 1))) (2 * n)),
           (Z.ltb_spec (2 * n) (2 * 2 ^ (8 * Z.of_nat size - 1))); cbn;
    split; try discriminate; try reflexivity; intros; lia.
Qed.

Section R1More.
Context `{CryptoI} {Receipt : Type} `{ReceiptI Receipt}.

Lemma aes256ctr_from_length (j : nat) (iv key data : bytes) :
  length (aes256ctr_from j iv key data) = length data.
Proof.
  revert j. induction data as [|b rest IH]; intros j; cbn; [reflexivity|].
  rewrite IH. reflexivity.
Qed.

(** [R1.encryptTurnoverCounter] and [R1.decryptTurnoverCounter] are
    inverse to each other, both ways: the ciphertext of a counter [c] in
    [size] bytes is the one byte string of [size] bytes that decrypts to
    [c]. So a ciphertext has [size] bytes, different counters have
    different ciphertexts, and every byte string is the ciphertext of the
    counter it decrypts to. *)
Theorem R1_encrypt_iff_decrypt (receipt : Receipt) (key : bytes) (size : nat)
    (c : Z) (enc : bytes) :
  R1_encryptTurnoverCounter receipt c key size = Some enc
  <-> length enc = size /\ R1_decryptTurnoverCounter receipt enc key = c.
Proof.
  unfold R1_encryptTurnoverCounter, R1_decryptTurnoverCounter.
  set (iv := R1_iv receipt). split.
  - intros Henc. destruct (int_to_bytes size c) as [pt|] eqn:Hpt;
      [|discriminate].
    injection Henc as <-. apply int_to_bytes_Some in Hpt as [Hlen Hval].
    split.
    + unfold aes256ctr. rewrite aes256ctr_from_length. exact Hlen.
    + rewrite aes256ctr_involutive. exact Hval.
  - intros [Hlen Hdec].
    assert (Hpt : int_to_bytes size c = Some (aes256ctr iv key enc)).
    { apply int_to_bytes_Some. split; [|exact Hdec].
      unfold aes256ctr. rewrite aes256ctr_from_length. exact Hlen. }
    rewrite Hpt, aes256ctr_involutive. reflexivity.
Qed.

(** [R1.encryptTurnoverCounter] raises [OverflowError] exactly for the
    counters that [size] signed bytes do not represent. *)
Theorem R1_encrypt_overflow (receipt : Receipt) (key : bytes) (size : nat)
    (c : Z) :
  (0 < size)%nat ->
  R1_encryptTurnoverCounter receipt c key size = None
  <-> ~ representable size c.
Proof.
  intros Hsize. rewrite <- (int_to_bytes_None size c Hsize).
  unfold R1_encryptTurnoverCounter.
  destruct (int_to_bytes size c); split; congruence.
Qed.

End R1More.

(** ** Balancing the groups *)

Lemma py_range_count (m n : nat) :
  (0 < n)%nat -> (0 < m)%nat ->
  ((m + n - 1) / n = S ((m - n + n - 1) / n))%nat.
Proof.
  intros Hn Hm. destruct (Nat.le_gt_cases m n) as [Hle|Hgt].
  - replace (m - n)%nat with 0%nat by lia. cbn [Nat.add].
    rewrite (Nat.div_small (n - 1) n) by lia.
    symmetry. apply Nat.div_unique with (r := (m - 1)%nat); lia.
  - replace (m + n - 1)%nat with ((m - n + n - 1) + 1 * n)%nat by lia.
    rewrite Nat.div_add by lia. lia.
Qed.

Lemma slices_nil {A} (n : nat) : (0 < n)%nat -> slices n (@nil A) = [].
Proof.
  intros Hn. unfold slices, py_range. cbn [length Nat.add].
  rewrite Nat.div_small by lia. reflexivity.
Qed.

(** The slices, one after the other. *)
Lemma slices_cons {A} (n : nat) (l : list A) :
  (0 < n)%nat -> l <> [] ->
  slices n l = take n l :: slices n (drop n l).
Proof.
  intros Hn Hl. unfold slices, py_range.
  rewrite length_drop.
  rewrite (py_range_count (length l) n Hn)
    by (destruct l; [contradiction|cbn; lia]).
  cbn [seq map]. rewrite drop_0. f_equal.
  rewrite <- seq_shift, !map_map. apply map_ext. intros k.
  rewrite drop_drop. reflexivity.
Qed.

Lemma slices_spec {A} (n : nat) (l : list A) :
  (0 < n)%nat ->
  concat (slices n l) = l
  /\ Forall (fun s => s <> [] /\ (length s <= n)%nat) (slices n l)
  /\ length (slices n l) = ((length l + n - 1) / n)%nat.
Proof.
  intros Hn. remember (length l) as m eqn:Hm. revert l Hm.
  induction m as [m IH] using lt_wf_ind. intros l ->.
  destruct l as [|a l].
  - rewrite slices_nil by exact Hn. cbn. rewrite Nat.div_small by lia.
    split; [reflexivity|]. split; [constructor|reflexivity].
  - rewrite slices_cons by (exact Hn || discriminate).
    destruct (IH (length (drop n (a :: l)))
                ltac:(rewrite length_drop; cbn; lia) _ eq_refl)
      as (Hcat & Hall & Hlen).
    cbn [concat length]. rewrite Hcat, take_drop, Hlen, length_drop.
    split; [reflexivity|]. split.
    + constructor; [|exact Hall]. split.
      * destruct n; [lia|discriminate].
      * rewrite length_take. lia.
    + symmetry. apply py_range_count; cbn; lia.
Qed.

Section Balancing.
Context `{MathI} {ReceiptVerifier : Type} `{VerifierEqI ReceiptVerifier}.

Implicit Types (rv : ReceiptVerifier)
  (sub : list (string * ReceiptVerifier))
  (groups : list (GroupWithVerifier ReceiptVerifier)).

Lemma recsWithVerifiers_of_app groups1 groups2 :
  recsWithVerifiers_of (groups1 ++ groups2)
  = recsWithVerifiers_of groups1 ++ recsWithVerifiers_of groups2.
Proof.
  unfold recsWithVerifiers_of. rewrite map_app, concat_app. reflexivity.
Qed.

Lemma recsWithVerifiers_of_concat
    (pkgs : list (list (GroupWithVerifier ReceiptVerifier))) :
  recsWithVerifiers_of (concat pkgs)
  = concat (map recsWithVerifiers_of pkgs).
Proof.
  induction pkgs as [|pkg rest IH]; [reflexivity|].
  cbn [concat map]. rewrite recsWithVerifiers_of_app, IH. reflexivity.
Qed.

Lemma groupby_from_spec (tgtkey : ReceiptVerifier) (recs : list string) sub :
  (forall a b, rv_eq a b = true -> a = b) ->
  recs <> [] ->
  recsWithVerifiers_of (groupby_from tgtkey recs sub)
  = map (fun r => (r, tgtkey)) recs ++ sub
  /\ Forall (fun g : GroupWithVerifier ReceiptVerifier => fst g <> [])
       (groupby_from tgtkey recs sub).
Proof.
  intros Hsound. revert tgtkey recs.
  induction sub as [|[r v] rest IH]; intros tgtkey recs Hrecs;
    cbn [groupby_from].
  - unfold recsWithVerifiers_of. cbn. rewrite !app_nil_r.
    split; [reflexivity|]. constructor; [exact Hrecs|constructor].
  - destruct (rv_eq tgtkey v) eqn:Heq.
    + apply Hsound in Heq as <-.
      destruct (IH tgtkey (recs ++ [r]) ltac:(destruct recs; discriminate))
        as [Hflat Hall].
      rewrite Hflat, map_app, <- app_assoc. split; [reflexivity|exact Hall].
    + destruct (IH v [r] ltac:(discriminate)) as [Hflat Hall].
      change ((recs, tgtkey) :: groupby_from v [r] rest)
        with ([(recs, tgtkey)] ++ groupby_from v [r] rest).
      rewrite recsWithVerifiers_of_app, Hflat.
      unfold recsWithVerifiers_of at 1. cbn. rewrite app_nil_r.
      split; [reflexivity|]. constructor; [exact Hrecs|exact Hall].
Qed.

Lemma groupby_from_nonempty (tgtkey : ReceiptVerifier) (recs : list string)
    sub :
  groupby_from tgtkey recs sub <> [].
Proof.
  revert tgtkey recs. induction sub as [|[r v] rest IH]; intros tgtkey recs;
    cbn [groupby_from]; [discriminate|].
  destruct (rv_eq tgtkey v); [apply IH|discriminate].
Qed.

Lemma groupby_verifier_spec sub :
  (forall a b, rv_eq a b = true -> a = b) ->
  recsWithVerifiers_of (groupby_verifier sub) = sub
  /\ Forall (fun g : GroupWithVerifier ReceiptVerifier => fst g <> [])
       (groupby_verifier sub)
  /\ (sub <> [] -> groupby_verifier sub <> []).
Proof.
  intros Hsound. destruct sub as [|[r v] rest]; cbn [groupby_verifier].
  - split; [reflexivity|]. split; [constructor|]. intros Hne. contradiction.
  - destruct (groupby_from_spec v [r] rest Hsound ltac:(discriminate))
      as [Hflat Hall].
    split; [exact Hflat|]. split; [exact Hall|]. intros _.
    apply groupby_from_nonempty.
Qed.

(** [balanceGroupsWithVerifiers] raises [ZeroDivisionError] for 0
    processes and the [ValueError] of [range] when the number of receipts
    per process comes out as 0, as it does when there is no receipt; a
    negative number of receipts per process gives no package at all. *)
Theorem balanceGroupsWithVerifiers_edges groups (nprocs : Z) :
  let recsPerProc :=
    int_ceil_fdiv (Z.of_nat (length (recsWithVerifiers_of groups))) nprocs in
  (nprocs = 0 ->
   balanceGroupsWithVerifiers groups nprocs = Raise PyZeroDivisionError)
  /\ (nprocs <> 0 -> recsPerProc = 0 ->
      balanceGroupsWithVerifiers groups nprocs = Raise PyRangeStepError)
  /\ (nprocs <> 0 -> recsPerProc < 0 ->
      balanceGroupsWithVerifiers groups nprocs = Ok []).
Proof.
  cbv zeta. unfold balanceGroupsWithVerifiers. split; [|split].
  - intros ->. reflexivity.
  - intros Hn Hzero. apply Z.eqb_neq in Hn. rewrite Hn, Hzero. reflexivity.
  - intros Hn Hneg. apply Z.eqb_neq in Hn. rewrite Hn. cbn [raise_if bind].
    destruct (Z.eqb_spec
                (int_ceil_fdiv (Z.of_nat (length (recsWithVerifiers_of groups)))
                   nprocs) 0) as [Hz|_]; [lia|].
    cbn [raise_if bind]. apply Z.ltb_lt in Hneg. rewrite Hneg. reflexivity.
Qed.

Lemma balanceGroupsWithVerifiers_parts groups (nprocs : Z) :
  let recsPerProc :=
    int_ceil_fdiv (Z.of_nat (length (recsWithVerifiers_of groups))) nprocs in
  let n := length (recsWithVerifiers_of groups) in
  (forall a b, rv_eq a b = true -> a = b) ->
  nprocs <> 0 ->
  0 < recsPerProc ->
  exists pkgs,
    balanceGroupsWithVerifiers groups nprocs = Ok pkgs
    /\ recsWithVerifiers_of (concat pkgs) = recsWithVerifiers_of groups
    /\ Forall (fun pkg =>
                 pkg <> []
                 /\ Forall (fun g : GroupWithVerifier ReceiptVerifier =>
                              fst g <> []) pkg
                 /\ Z.of_nat (length (recsWithVerifiers_of pkg))
                    <= recsPerProc) pkgs
    /\ length pkgs = ((n + Z.to_nat recsPerProc - 1) / Z.to_nat recsPerProc)%nat
    /\ (Z.of_nat n <= recsPerProc * nprocs ->
        Z.of_nat (length pkgs) <= nprocs).
Proof.
  cbv zeta. intros Hsound Hn Hpos.
  unfold balanceGroupsWithVerifiers.
  set (l := recsWithVerifiers_of groups) in *.
  set (per := int_ceil_fdiv (Z.of_nat (length l)) nprocs) in *.
  apply Z.eqb_neq in Hn as Hn'. rewrite Hn'. cbn [raise_if bind].
  destruct (Z.eqb_spec per 0) as [Hz|_]; [lia|]. cbn [raise_if bind].
  destruct (Z.ltb_spec per 0) as [Hneg|_]; [lia|].
  eexists. split; [reflexivity|].
  destruct (slices_spec (Z.to_nat per) l ltac:(lia)) as (Hcat & Hall & Hlen).
  split; [|split; [|split]].
  - rewrite recsWithVerifiers_of_concat, map_map.
    rewrite (map_ext_in _ (fun sub => sub))
      by (intros sub _; apply groupby_verifier_spec, Hsound).
    rewrite List.map_id. exact Hcat.
  - apply (proj2 (List.Forall_map groupby_verifier _ (slices (Z.to_nat per) l))).
    eapply Forall_impl; [exact Hall|].
    intros sub [Hne Hle]. cbn beta.
    destruct (groupby_verifier_spec sub Hsound) as (Hflat & Hgroups & Hnil).
    split; [apply Hnil, Hne|]. split; [exact Hgroups|]. rewrite Hflat. lia.
  - rewrite length_map. exact Hlen.
  - intros Hcover. rewrite length_map, Hlen.
    assert (Hprocs : 0 < nprocs).
    { destruct (Z.lt_trichotomy nprocs 0) as [Hlt|[Heq|Hgt]];
        [|contradiction|exact Hgt].
      assert (per * nprocs < 0) by (apply Z.mul_pos_neg; lia). lia. }
    assert (Hnat : (length l <= Z.to_nat per * Z.to_nat nprocs)%nat).
    { apply Nat2Z.inj_le. rewrite Nat2Z.inj_mul, !Z2Nat.id by lia. exact Hcover. }
    assert (Hq : ((length l + Z.to_nat per - 1) / Z.to_nat per
                  < S (Z.to_nat nprocs))%nat).
    { apply Nat.Div0.div_lt_upper_bound.
      assert (0 < Z.to_nat per)%nat by lia. nia. }
    lia.
Qed.

(** With a positive number [recsPerProc] of receipts per process,
    [balanceGroupsWithVerifiers] returns packages that hold the receipts
    of the groups, each with its verifier, in the order of the groups: no
    package and no group of a package is empty, a package holds at most
    [recsPerProc] receipts, and there are as many packages as it takes,
    which is at most [nprocs] when [recsPerProc] times [nprocs] covers
    the receipts. Equal verifiers are taken to be the same verifier. *)
Theorem balanceGroupsWithVerifiers_partition groups (nprocs : Z) :
  let recsPerProc :=
    int_ceil_fdiv (Z.of_nat (length (recsWithVerifiers_of groups))) nprocs in
  let n := length (recsWithVerifiers_of groups) in
  (forall a b, rv_eq a b = true -> a = b) ->
  nprocs <> 0 ->
  0 < recsPerProc ->
  exists pkgs,
    balanceGroupsWithVerifiers groups nprocs = Ok pkgs
    /\ recsWithVerifiers_of (concat pkgs) = recsWithVerifiers_of groups
    /\ Forall (fun pkg =>
                 pkg <> []
                 /\ Forall (fun g : GroupWithVerifier ReceiptVerifier =>
                              fst g <> []) pkg
                 /\ Z.of_nat (length (recsWithVerifiers_of pkg))
                    <= recsPerProc) pkgs
    /\ length pkgs = ((n + Z.to_nat recsPerProc - 1) / Z.to_nat recsPerProc)%nat
    /\ (Z.of_nat n <= recsPerProc * nprocs ->
        Z.of_nat (length pkgs) <= nprocs).
Proof. apply balanceGroupsWithVerifiers_parts. Qed.

End Balancing.

(** ** Regrouping the receipts *)

Section Regrouping.
Context `{CryptoI} `{BuiltinsI} `{MathI}.
Context {Receipt ReceiptVerifier Cert KeyStore ClusterState : Type}.
Context `{ReceiptI Receipt} `{VerifierI Receipt ReceiptVerifier}.
Context `{KeyStoreI Cert KeyStore ReceiptVerifier} `{StateI ClusterState}.
Context `{VerifierEqI ReceiptVerifier}.

Implicit Types (rv : ReceiptVerifier) (key : option bytes)
  (prevStart prev : option string)
  (used : gset string) (st rState : CashRegisterState)
  (groups : list (GroupWithVerifier ReceiptVerifier))
  (l : list (string * ReceiptVerifier)).

Lemma separable_app l1 l2 :
  separable (l1 ++ l2) <-> separable l1 /\ separable l2.
Proof. apply Forall_app. Qed.

Lemma verifyGroup_singletons (recs : list string) rv key prevStart st used :
  recs <> [] ->
  separable (map (fun r => (r, rv)) recs) ->
  verifyGroup recs rv key prevStart st used
  = verifyGroupsWithVerifiers (singletons (map (fun r => (r, rv)) recs)) key
      prevStart st used.
Proof.
  intros Hne Hsep. revert st used.
  induction recs as [|r rest IH]; intros st used; [contradiction|].
  apply Forall_cons in Hsep as [[Hparses Hr] Hsep].
  cbn [map singletons verifyGroupsWithVerifiers].
  destruct rest as [|r' rest'].
  - cbn. destruct (verifyGroup [r] rv key prevStart st used) as [[s u]|e];
      reflexivity.
  - change (r :: r' :: rest') with ([r] ++ r' :: rest').
    rewrite (verifyGroup_app [r] (r' :: rest') rv key prevStart st used Hparses)
      by (constructor; [exact Hr|constructor]).
    destruct (verifyGroup [r] rv key prevStart st used) as [[s u]|e];
      [|reflexivity].
    cbn [bind]. apply IH; [discriminate|exact Hsep].
Qed.

Lemma singletons_app l1 l2 :
  singletons (l1 ++ l2) = singletons l1 ++ singletons l2.
Proof. apply map_app. Qed.

Lemma verifyGroupsWithVerifiers_singletons groups key prevStart st used :
  Forall (fun g : GroupWithVerifier ReceiptVerifier => fst g <> []) groups ->
  separable (recsWithVerifiers_of groups) ->
  verifyGroupsWithVerifiers groups key prevStart st used
  = verifyGroupsWithVerifiers (singletons (recsWithVerifiers_of groups)) key
      prevStart st used.
Proof.
  intros Hne. revert st used.
  induction Hne as [|[recs rv] rest Hg Hrest IH]; intros st used Hsep;
    [reflexivity|].
  change ((recs, rv) :: rest) with ([(recs, rv)] ++ rest) in Hsep |- *.
  rewrite recsWithVerifiers_of_app in Hsep |- *.
  apply separable_app in Hsep as [Hsep1 Hsep2].
  rewrite singletons_app, !verifyGroupsWithVerifiers_app.
  unfold recsWithVerifiers_of in Hsep1 |- * at 1. cbn [map concat] in Hsep1 |- *.
  rewrite app_nil_r in Hsep1 |- *.
  rewrite <- (verifyGroup_singletons recs rv key prevStart st used Hg Hsep1).
  cbn [verifyGroupsWithVerifiers].
  destruct (verifyGroup recs rv key prevStart st used) as [[s u]|e];
    [|reflexivity].
  cbn [bind]. apply IH, Hsep2.
Qed.

(** [verifyGroupsWithVerifiers] looks at the receipts with their
    verifiers in order, and not at how they are cut into groups: two
    lists of non-empty groups with the same receipts and verifiers in the
    same order give the same result, when the verifiers' receipt objects
    are the parser's and no JWS is the empty string. *)
Theorem verifyGroupsWithVerifiers_regrouped groups1 groups2 key prevStart st
    used :
  Forall (fun g : GroupWithVerifier ReceiptVerifier => fst g <> []) groups1 ->
  Forall (fun g : GroupWithVerifier ReceiptVerifier => fst g <> []) groups2 ->
  separable (recsWithVerifiers_of groups1) ->
  recsWithVerifiers_of groups1 = recsWithVerifiers_of groups2 ->
  verifyGroupsWithVerifiers groups1 key prevStart st used
  = verifyGroupsWithVerifiers groups2 key prevStart st used.
Proof.
  intros Hne1 Hne2 Hsep Hsame.
  rewrite (verifyGroupsWithVerifiers_singletons groups1) by assumption.
  rewrite (verifyGroupsWithVerifiers_singletons groups2)
    by (rewrite <- ?Hsame; assumption).
  rewrite Hsame. reflexivity.
Qed.

(** Balancing does not change what verification returns: the packages of
    [balanceGroupsWithVerifiers], verified one after the other, give the
    result of the groups they were made of, when no group is empty, the
    number of receipts per process is positive, equal verifiers are the
    same verifier, the verifiers' receipt objects are the parser's and no
    JWS is the empty string. *)
Theorem balanceGroupsWithVerifiers_verifies_alike groups (nprocs : Z) pkgs key
    prevStart st used :
  (forall a b, rv_eq a b = true -> a = b) ->
  0 < int_ceil_fdiv (Z.of_nat (length (recsWithVerifiers_of groups))) nprocs ->
  Forall (fun g : GroupWithVerifier ReceiptVerifier => fst g <> []) groups ->
  separable (recsWithVerifiers_of groups) ->
  balanceGroupsWithVerifiers groups nprocs = Ok pkgs ->
  verifyGroupsWithVerifiers (concat pkgs) key prevStart st used
  = verifyGroupsWithVerifiers groups key prevStart st used.
Proof.
  intros Hsound Hpos Hne Hsep Hbal.
  assert (Hn : nprocs <> 0).
  { intros ->. unfold balanceGroupsWithVerifiers in Hbal. discriminate. }
  destruct (balanceGroupsWithVerifiers_parts groups nprocs Hsound Hn Hpos)
    as (pkgs' & Hbal' & Hflat & Hall & _).
  rewrite Hbal in Hbal'. injection Hbal' as <-.
  rewrite (verifyGroupsWithVerifiers_singletons (concat pkgs)).
  - rewrite (verifyGroupsWithVerifiers_singletons groups) by assumption.
    rewrite Hflat. reflexivity.
  - apply Forall_concat. eapply Forall_impl; [exact Hall|].
    intros pkg (_ & Hgroups & _). exact Hgroups.
  - rewrite Hflat. exact Hsep.
Qed.

End Regrouping.

(** ** The further properties at work *)

Module MoreFixtureFacts.
Import Fixture.

Lemma verifier_parses_fixture (rv : ReceiptVerifier) : verifier_parses rv.
Proof.
  intros r ro algorithm. cbn. unfold verify.
  destruct (parse r) as [[ro' prefix]|e]; cbn; [|discriminate].
  destruct (r_signedBroken ro'); [discriminate|].
  destruct rv as [cert|keyStore].
  - destruct (_ =? _); [|discriminate]. intros [= <- _]. eauto.
  - destruct (assoc _ _); [|discriminate]. intros [= <- _]. eauto.
Qed.

End MoreFixtureFacts.
(** ** The projected start states of the workers *)

Section Carry.
Context `{CryptoI} `{BuiltinsI}.
Context {Receipt ReceiptVerifier Cert KeyStore ClusterState : Type}.
Context `{ReceiptI Receipt} `{VerifierI Receipt ReceiptVerifier}.
Context `{KeyStoreI Cert KeyStore ReceiptVerifier} `{StateI ClusterState}.

Implicit Types (rv : ReceiptVerifier) (key : option bytes)
  (prevStart prev : option string) (ls : LoopState Receipt)
  (used : gset string) (st rState P S : CashRegisterState) (ro : Receipt)
  (algorithm : AlgorithmI Receipt) (keyStore : KeyStore)
  (pkgs : list (list (GroupWithVerifier ReceiptVerifier)))
  (results : list (CashRegisterState * gset string)).












End Carry.

Section Projection.
Context `{CryptoI} `{BuiltinsI}.
Context {Receipt ReceiptVerifier Cert KeyStore ClusterState : Type}.
Context `{ReceiptI Receipt} `{VerifierI Receipt ReceiptVerifier}.
Context `{KeyStoreI Cert KeyStore ReceiptVerifier} `{StateI ClusterState}.

Implicit Types (rv : ReceiptVerifier) (key : option bytes)
  (prevStart prev : option string) (ls : LoopState Receipt)
  (used : gset string) (st rState P S : CashRegisterState) (ro : Receipt)
  (algorithm : AlgorithmI Receipt) (keyStore : KeyStore)
  (pkgs : list (list (GroupWithVerifier ReceiptVerifier)))
  (results : list (CashRegisterState * gset string)).









End Projection.

Section ParallelRun.
Context `{CryptoI} `{BuiltinsI}.
Context {Receipt ReceiptVerifier Cert KeyStore ClusterState : Type}.
Context `{ReceiptI Receipt} `{VerifierI Receipt ReceiptVerifier}.
Context `{KeyStoreI Cert KeyStore ReceiptVerifier} `{StateI ClusterState}.

Implicit Types (rv : ReceiptVerifier) (key : option bytes)
  (prevStart prev : option string) (ls : LoopState Receipt)
  (used : gset string) (st rState P S : CashRegisterState) (ro : Receipt)
  (algorithm : AlgorithmI Receipt) (keyStore : KeyStore)
  (pkgs : list (list (GroupWithVerifier ReceiptVerifier)))
  (results : list (CashRegisterState * gset string)).

#[local] Arguments collectResults : simpl never.








End ParallelRun.

Section ParallelAndSequential.
Context `{CryptoI} `{BuiltinsI}.
Context {Receipt ReceiptVerifier Cert KeyStore ClusterState : Type}.
Context `{ReceiptI Receipt} `{VerifierI Receipt ReceiptVerifier}.
Context `{KeyStoreI Cert KeyStore ReceiptVerifier} `{StateI ClusterState}.

Implicit Types (key : option bytes) (prevStart : option string)
  (used : gset string) (rState : CashRegisterState) (keyStore : KeyStore)
  (pkgs : list (list (GroupWithVerifier ReceiptVerifier)))
  (results : list (CashRegisterState * gset string)).



End ParallelAndSequential.

(** ** The properties at work on the fixture *)

Module Examples.
Import Fixture FixtureFacts MoreFixtureFacts.

(** The named loop states are those [verifyGroup] reaches. *)
Lemma afterStart_reached :
  verifyGroup_receipt (fromCert device) (Some key) None
    (initialLoopState emptyRegister ∅) "jws-start"
  = Ok afterStart.
Proof. vm_compute. reflexivity. Qed.

Lemma afterSale5x_reached :
  verifyGroup_loop (fromCert device) (Some key) None afterStart
    ["jws-sale-2"; "jws-sale-3"; "jws-outage-4"; "jws-sale-5x"]
  = Ok afterSale5x.
Proof. vm_compute. reflexivity. Qed.

(** The end-to-end scenarios of the specification run as it says: the
    three-receipt register ends with a turnover of 17500 cents, and after
    the outage and the sale in place of the restoring receipt, the next
    sale is refused. *)
Lemma three_receipt_register :
  verifyGroup ["jws-start"; "jws-sale-2"; "jws-sale-3"] (fromCert device)
    (Some key) None emptyRegister ∅
  = Ok ({| startReceiptJWS := Some "jws-start";
           lastReceiptJWS := Some "jws-sale-3";
           lastTurnoverCounter := 17500;
           needRestoreReceipt := false |},
        {["1"; "2"; "3"]}).
Proof. vm_compute. reflexivity. Qed.

Lemma second_sale_after_outage_is_refused :
  verifyGroup
    ["jws-start"; "jws-sale-2"; "jws-sale-3"; "jws-outage-4"; "jws-sale-5x";
     "jws-sale-6x"]
    (fromCert device) (Some key) None emptyRegister ∅
  = Raise (NoRestoreReceiptAfterSignatureSystemFailureException "6x").
Proof. vm_compute. reflexivity. Qed.



(** A DEP that continues a register: the projected start states have
    the start receipt of the register, and two or three workers end in
    the state of one. *)
Lemma continued_register_in_parallel :
  verifyParsedDEP dep_rest trustedRoot (Some key) (Some dep_begun) (Some 0) 1
  = Ok dep_verified
  /\ verifyParsedDEP dep_rest trustedRoot (Some key) (Some dep_begun) (Some 0)
       2
     = Ok dep_verified
  /\ verifyParsedDEP dep_rest trustedRoot (Some key) (Some dep_begun) (Some 0)
       3
     = Ok dep_verified.
Proof.
  split; [vm_compute; reflexivity|]. split; vm_compute; reflexivity.
Qed.

Lemma R1_turnover_roundtrip_witness :
  exists enc,
    R1_encryptTurnoverCounter sale2 (-15000) key 8 = Some enc
    /\ R1_decryptTurnoverCounter sale2 enc key = -15000.
Proof.
  apply R1_turnover_roundtrip.
  - reflexivity.
  - lia.
  - unfold representable. lia.
Defined.

Lemma turnover_counter_reconciliation_witness :
  reachesChainCheck (fromCert device) None afterStart "jws-sale-2" sale2 R1
    started (Some "jws-start")
  /\ exists st',
       verifyGroup_receipt (fromCert device) (Some key) None afterStart
         "jws-sale-2"
       = Ok {| ls_state := st';
               ls_used := {["2"]} ∪ ls_used afterStart;
               ls_prev := Some "jws-sale-2";
               ls_prevObj := Some sale2 |}
       /\ lastTurnoverCounter st' = 15000
       /\ startReceiptJWS st' = startReceiptJWS started
       /\ lastReceiptJWS st' = lastReceiptJWS started
       /\ needRestoreReceipt st' = needRestoreReceipt started.
Proof.
  assert (Hreach : reachesChainCheck (fromCert device) None afterStart
                     "jws-sale-2" sale2 R1 started (Some "jws-start"))
    by (exists started, (Some (sale2, R1)), (Some start1); repeat split).
  split; [exact Hreach|].
  assert (Hchain : checkChain "jws-sale-2" sale2 (Some "jws-start") R1 None
                     started = Ok tt) by (vm_compute; reflexivity).
  destruct (turnover_counter_reconciliation (fromCert device) (Some key) None
              afterStart "jws-sale-2" sale2 R1 started (Some "jws-start")
              Hreach Hchain) as [Hkey _].
  destruct (Hkey eq_refl eq_refl) as [Hnumber _].
  destruct (Hnumber eq_refl) as [_ Hends].
  apply Hends. right. vm_compute. reflexivity.
Defined.

Lemma chain_check_outcomes_witness :
  reachesChainCheck (fromCert device) None afterStart "jws-sale-3" sale3 R1
    started (Some "jws-start")
  /\ verifyGroup_receipt (fromCert device) (Some key) None afterStart
       "jws-sale-3"
     = Raise (ChainingException "3" (Some "jws-start")).
Proof.
  assert (Hreach : reachesChainCheck (fromCert device) None afterStart
                     "jws-sale-3" sale3 R1 started (Some "jws-start"))
    by (exists started, (Some (sale3, R1)), (Some start1); repeat split).
  split; [exact Hreach|].
  destruct (chain_check_outcomes (fromCert device) (Some key) None afterStart
              "jws-sale-3" sale3 R1 started (Some "jws-start")
              Hreach) as (_ & _ & Hother & _).
  apply Hother.
  - vm_compute. discriminate.
  - discriminate.
Defined.

Lemma initial_receipt_checks_witness :
  verifyJWS (fromCert device) "jws-sale-2" = Ok (sale2, R1)
  /\ verifyGroup ["jws-sale-2"; "jws-sale-3"] (fromCert device) (Some key) None
       emptyRegister ∅
     = Raise (NonzeroTurnoverOnInitialReceiptException "2").
Proof.
  assert (Hjws : verifyJWS (fromCert device) "jws-sale-2" = Ok (sale2, R1))
    by reflexivity.
  split; [exact Hjws|].
  destruct (initial_receipt_checks "jws-sale-2" ["jws-sale-3"]
              (fromCert device) (Some key) None emptyRegister ∅ sale2 R1
              eq_refl Hjws) as [Hnonzero _].
  apply Hnonzero. vm_compute. reflexivity.
Defined.

Lemma restore_receipt_discipline_witness :
  needRestoreReceipt (ls_state afterSale5x) = true
  /\ verifyGroup_receipt (fromCert device) (Some key) None afterSale5x
       "jws-sale-6x"
     = Raise (NoRestoreReceiptAfterSignatureSystemFailureException "6x").
Proof.
  split; [reflexivity|].
  destruct (restore_receipt_discipline (fromCert device) (Some key) None
              afterSale5x "jws-sale-6x" sale5x eq_refl) as (_ & Hflag & _).
  apply (Hflag sale6x R1); reflexivity.
Defined.

Lemma verifyDEP_single_group_without_certificate_witness :
  verifyDEP
    [[(["jws-start"], None, []);
      (["jws-sale-2"], Some device, [intermediate; root])]]
    trustedDevice (Some key) None None
  = Raise NoCertificateGivenException.
Proof.
  eapply (proj1 (verifyDEP_single_group_without_certificate _ trustedDevice
                   (Some key) None None None emptyRegister ∅ _ _))
    with (before := []).
  - reflexivity.
  - vm_compute. reflexivity.
  Unshelve.
  + repeat constructor. discriminate.
  + reflexivity.
Defined.

(** C2 as stated fails: the sale [sale5x] follows the signed-broken
    receipt [outage4], is not a null receipt, and the group verifies; the
    register state it ends in has [needRestoreReceipt] set. *)
Lemma sale_after_outage_is_accepted :
  fromJWSString "jws-outage-4" = Ok (outage4, "R1")
  /\ isSignedBroken outage4 = true
  /\ verifyJWS (fromCert device) "jws-sale-5x" = Ok (sale5x, R1)
  /\ isNull sale5x = false
  /\ verifyGroup
       ["jws-start"; "jws-sale-2"; "jws-sale-3"; "jws-outage-4"; "jws-sale-5x"]
       (fromCert device) (Some key) None emptyRegister ∅
     = Ok ({| startReceiptJWS := Some "jws-start";
              lastReceiptJWS := Some "jws-sale-5x";
              lastTurnoverCounter := 18700;
              needRestoreReceipt := true |},
           {["1"; "2"; "3"; "4"; "5x"]}).
Proof.
  split; [reflexivity|]. split; [reflexivity|]. split; [reflexivity|].
  split; [reflexivity|]. vm_compute. reflexivity.
Qed.


(** C3 as stated fails: the first receipt of a register outside a
    cluster is accepted though its ID is in the used set. *)
Lemma first_receipt_with_used_id_is_accepted :
  verifyJWS (fromCert device) "jws-start" = Ok (start1, R1)
  /\ receiptId start1 ∈ ({["1"]} : gset string)
  /\ verifyGroup ["jws-start"] (fromCert device) (Some key) None emptyRegister
       {["1"]}
     = Ok ({| startReceiptJWS := Some "jws-start";
              lastReceiptJWS := Some "jws-start";
              lastTurnoverCounter := 0;
              needRestoreReceipt := false |},
           {["1"]}).
Proof.
  split; [reflexivity|]. split; [cbn; set_solver|].
  vm_compute. reflexivity.
Qed.

End Examples.

Module MoreExamples.
Import Fixture FixtureFacts MoreFixture MoreFixtureFacts.

Lemma firstThree_verified :
  verifyGroup firstThree (fromCert device) (Some key) None emptyRegister ∅
  = Ok (afterThree, {["1"; "2"; "3"]}).
Proof. vm_compute. reflexivity. Qed.

Lemma unsigned_first_receipt_is_refused_witness :
  verifyGroup ["jws-outage-4"; "jws-restore-5"] (fromCert device) (Some key)
    None emptyRegister ∅
  = Raise (SignatureSystemFailedOnInitialReceiptException (receiptId outage4)).
Proof.
  refine (unsigned_first_receipt_is_refused "jws-outage-4" ["jws-restore-5"]
            (fromCert device) (Some key) None emptyRegister ∅ outage4 "R1"
            _ _ _).
  - reflexivity.
  - left. reflexivity.
  - reflexivity.
Defined.

(** The loop state after the start receipt and the first sale. *)
Lemma afterSale2_reached :
  verifyGroup_loop (fromCert device) (Some key) None
    (initialLoopState emptyRegister ∅) ["jws-start"; "jws-sale-2"]
  = Ok {| ls_state := set_lastTurnoverCounter 15000 started;
          ls_used := {["1"; "2"]};
          ls_prev := Some "jws-sale-2";
          ls_prevObj := Some sale2 |}.
Proof. vm_compute. reflexivity. Qed.

Lemma verifier_exceptions_pass_through_witness :
  verifyGroup_loop (fromCert device) (Some key) None
    (initialLoopState emptyRegister ∅)
    (["jws-start"; "jws-sale-2"] ++ "jws-unknown" :: ["jws-sale-3"])
  = Raise (ReceiptError MalformedReceiptException).
Proof.
  refine (verifier_exceptions_pass_through (fromCert device) (Some key) None _
            "jws-unknown" MalformedReceiptException _ _ _
            ["jws-start"; "jws-sale-2"] ["jws-sale-3"] _ afterSale2_reached).
  - reflexivity.
  - discriminate.
  - discriminate.
Defined.

Lemma accepted_group_used_ids_witness :
  exists ros,
    receiptObjects (fromCert device) firstThree = Some ros
    /\ ({["1"; "2"; "3"]} : gset string)
       = ∅ ∪ list_to_set (receiptId <$> ros).
Proof.
  exact (accepted_group_used_ids _ _ _ _ _ _ _ _ firstThree_verified).
Defined.

Lemma accepted_group_turnover_witness :
  exists ros,
    receiptObjects (fromCert device) firstThree = Some ros
    /\ lastTurnoverCounter afterThree
       = lastTurnoverCounter emptyRegister
         + (if truthy_bytes (Some key)
            then foldr Z.add 0 (turnoverDelta <$> ros) else 0).
Proof.
  exact (accepted_group_turnover _ _ _ _ _ _ _ _ firstThree_verified).
Defined.

Lemma accepted_group_register_state_witness :
  lastReceiptJWS afterThree
  = from_option (fun cr => Some (expandDEPReceipt cr))
      (lastReceiptJWS emptyRegister) (last firstThree)
  /\ startReceiptJWS afterThree
     = (if truthy (lastReceiptJWS emptyRegister)
        then startReceiptJWS emptyRegister
        else from_option (fun cr => Some (expandDEPReceipt cr))
               (startReceiptJWS emptyRegister) (head firstThree)).
Proof.
  exact (accepted_group_register_state _ _ _ _ _ _ _ _ firstThree_verified).
Defined.

Lemma accepted_group_is_chained_witness :
  (forall cr,
     head firstThree = Some cr ->
     exists ro algorithm,
       receiptAndAlgorithm (fromCert device) (expandDEPReceipt cr)
       = Some (ro, algorithm)
       /\ previousChain ro
          = b64encode (chain algorithm ro (firstPrevious None emptyRegister)))
  /\ (forall (i : nat) cr cr',
        firstThree !! i = Some cr -> firstThree !! S i = Some cr' ->
        exists ro algorithm,
          receiptAndAlgorithm (fromCert device) (expandDEPReceipt cr')
          = Some (ro, algorithm)
          /\ previousChain ro
             = b64encode (chain algorithm ro (Some (expandDEPReceipt cr)))).
Proof.
  exact (accepted_group_is_chained _ _ _ _ _ _ _ _ firstThree_verified).
Defined.

Lemma verifyGroup_in_two_calls_witness :
  verifyGroup (["jws-start"; "jws-sale-2"] ++ ["jws-sale-3"]) (fromCert device)
    (Some key) None emptyRegister ∅
  = (let* '(st1, used1) :=
       verifyGroup ["jws-start"; "jws-sale-2"] (fromCert device) (Some key)
         None emptyRegister ∅ in
     verifyGroup ["jws-sale-3"] (fromCert device) (Some key) None st1 used1).
Proof.
  refine (verifyGroup_in_two_calls _ _ _ _ _ _ _ _ _).
  - apply verifier_parses_fixture.
  - repeat constructor; discriminate.
Defined.

Lemma verifyGroup_ignores_other_ids_witness :
  verifyGroup firstThree (fromCert device) (Some key) None emptyRegister
    (∅ ∪ {["9"]})
  = Ok (afterThree, {["1"; "2"; "3"]} ∪ {["9"]}).
Proof.
  refine (verifyGroup_ignores_other_ids _ _ _ _ _ _ _ _ _
            firstThree_verified _).
  apply (bool_decide_unpack _). vm_compute. exact I.
Defined.

Lemma device_certified :
  certified trustedRoot (["jws-start"], Some device, [intermediate; root]).
Proof. exists device. split; reflexivity. Qed.

Lemma packageChunkWithVerifiers_missing_certificate_witness :
  packageChunkWithVerifiers
    ([(["jws-start"], Some device, [intermediate; root])]
       ++ (["jws-sale-2"], None, []) :: [])
    trustedRoot
  = Raise NoCertificateGivenException.
Proof.
  refine (packageChunkWithVerifiers_missing_certificate _ _ _ _ _ _ _).
  - discriminate.
  - constructor; [apply device_certified|constructor].
Defined.

Lemma dep_certified : Forall (certified trustedRoot) (concat dep).
Proof. repeat constructor; exists device; split; reflexivity. Qed.

Lemma dep_chunks_nonempty : Forall (fun chunk => chunk <> []) dep.
Proof. repeat constructor; discriminate. Qed.

Lemma verifyDEP_with_certificates_witness :
  verifyDEP dep trustedRoot (Some key) None None
  = (let state := default ClusterState_new None in
     let* '(prevStart, rState, usedRecIds) := getCashRegisterInfo state None in
     let* '(rState, usedRecIds) :=
       verifyGroupsWithVerifiers (groupWithVerifier trustedRoot <$> concat dep)
         (Some key) prevStart rState usedRecIds in
     Ok (updateCashRegisterInfo state None rState usedRecIds)).
Proof.
  refine (verifyDEP_with_certificates _ _ _ _ _ _ _).
  - apply dep_chunks_nonempty.
  - apply dep_certified.
Defined.

Lemma dep_single_worker :
  verifyParsedDEP dep trustedRoot (Some key) None None 1 = Ok dep_verified.
Proof. vm_compute. reflexivity. Qed.

Lemma verifyParsedDEP_single_worker_witness :
  verifySequentially dep trustedRoot (Some key) None None = Ok dep_verified.
Proof.
  exact (verifyParsedDEP_single_worker _ _ _ _ _ _ dep_single_worker).
Defined.

Lemma R1_encrypt_overflow_witness :
  R1_encryptTurnoverCounter sale2 (2 ^ 39) key 5 = None
  <-> ~ representable 5 (2 ^ 39).
Proof.
  refine (R1_encrypt_overflow _ _ _ _ _). lia.
Defined.

Lemma rv_eq_sound (a b : ReceiptVerifier) : rv_eq a b = true -> a = b.
Proof. apply bool_decide_eq_true. Qed.

Lemma balanceGroupsWithVerifiers_partition_witness :
  exists pkgs,
    balanceGroupsWithVerifiers twoGroups 2 = Ok pkgs
    /\ recsWithVerifiers_of (concat pkgs) = recsWithVerifiers_of twoGroups
    /\ Forall (fun pkg =>
                 pkg <> []
                 /\ Forall (fun g : GroupWithVerifier ReceiptVerifier =>
                              fst g <> []) pkg
                 /\ Z.of_nat (length (recsWithVerifiers_of pkg))
                    <= int_ceil_fdiv
                         (Z.of_nat (length (recsWithVerifiers_of twoGroups))) 2)
         pkgs
    /\ length pkgs
       = ((length (recsWithVerifiers_of twoGroups)
           + Z.to_nat (int_ceil_fdiv
                         (Z.of_nat (length (recsWithVerifiers_of twoGroups))) 2)
           - 1)
          / Z.to_nat (int_ceil_fdiv
                        (Z.of_nat (length (recsWithVerifiers_of twoGroups))) 2))%nat
    /\ (Z.of_nat (length (recsWithVerifiers_of twoGroups))
        <= int_ceil_fdiv
             (Z.of_nat (length (recsWithVerifiers_of twoGroups))) 2 * 2 ->
        Z.of_nat (length pkgs) <= 2).
Proof.
  refine (balanceGroupsWithVerifiers_partition twoGroups 2 _ _ _).
  - apply rv_eq_sound.
  - discriminate.
  - reflexivity.
Defined.

Lemma twoGroups_balanced :
  balanceGroupsWithVerifiers twoGroups 2
  = Ok [[(["jws-start"; "jws-sale-2"; "jws-sale-3"], fromCert device)];
        [(["jws-outage-4"; "jws-restore-5"], fromCert device)]].
Proof. vm_compute. reflexivity. Qed.

Lemma twoGroups_separable : separable (recsWithVerifiers_of twoGroups).
Proof.
  repeat constructor; first [apply verifier_parses_fixture | discriminate].
Qed.

Lemma verifyGroupsWithVerifiers_regrouped_witness :
  verifyGroupsWithVerifiers twoGroups (Some key) None emptyRegister ∅
  = verifyGroupsWithVerifiers
      [(["jws-start"], fromCert device);
       (["jws-sale-2"; "jws-sale-3"; "jws-outage-4"], fromCert device);
       (["jws-restore-5"], fromCert device)]
      (Some key) None emptyRegister ∅.
Proof.
  refine (verifyGroupsWithVerifiers_regrouped _ _ _ _ _ _ _ _ _ _).
  - repeat constructor; discriminate.
  - repeat constructor; discriminate.
  - apply twoGroups_separable.
  - reflexivity.
Defined.

Lemma balanceGroupsWithVerifiers_verifies_alike_witness :
  verifyGroupsWithVerifiers
    (concat [[(["jws-start"; "jws-sale-2"; "jws-sale-3"], fromCert device)];
             [(["jws-outage-4"; "jws-restore-5"], fromCert device)]])
    (Some key) None emptyRegister ∅
  = verifyGroupsWithVerifiers twoGroups (Some key) None emptyRegister ∅.
Proof.
  refine (balanceGroupsWithVerifiers_verifies_alike twoGroups 2 _ _ _ _ _
            _ _ _ _ twoGroups_balanced).
  - apply rv_eq_sound.
  - reflexivity.
  - repeat constructor; discriminate.
  - apply twoGroups_separable.
Defined.

End MoreExamples.

Module ClusterExamples.
Import Fixture Cluster.

Lemma previous_receipt_checks_witness :
  verifyGroup_receipt (fromCert device) (Some key) None afterStart
    "jws-open-sale"
  = Raise (ChangingSystemTypeException (receiptId openSale)).
Proof.
  refine (proj2 (previous_receipt_checks (fromCert device) (Some key) None
                   afterStart "jws-open-sale" started (Some (openSale, R1))
                   openSale R1 started (Some "jws-start") start1 _ _ _ _)
            _ _).
  - reflexivity.
  - reflexivity.
  - reflexivity.
  - apply (bool_decide_unpack _). vm_compute. exact I.
  - reflexivity.
  - split; [discriminate|reflexivity].
Defined.

Lemma cluster_first_receipt_register_id_witness :
  verifyGroup ["jws-k2-start"] (fromCert device) (Some key)
    (Some "jws-start") emptyRegister {["1"]}
  = Raise (ChangingRegisterIdException (receiptId start2)).
Proof.
  refine (cluster_first_receipt_register_id "jws-k2-start" [] (fromCert device)
            (Some key) (Some "jws-start") emptyRegister {["1"]} start2 R1
            start1 "R1" _ _ _ _ _ _ _ _ _ _);
    try reflexivity.
  - apply (bool_decide_unpack _). vm_compute. exact I.
  - discriminate.
Defined.

End ClusterExamples.
